(** * Goal tracker: the step-tree mutation engine

    A shallow embedding of [stepHelpers] (the tree engine of the goal
    tracker's [lib/db] module) and of the step operations of the
    [GoalContext] provider, with the properties of the engine's
    specification stated and settled against it.

    Conventions of the embedding.
    - A JavaScript [number] that holds an order, an index or a timestamp
      is a [Z].
    - An optional string ([parentId?: string]) is an [option string];
      the tests [!x] and [x && ...] of the source go through [truthy],
      under which both [undefined] and the empty string are false.
    - [Date.now()] is the parameter [now] of every operation.
    - [generateId()] is an oracle [gen : nat -> string] with a call
      counter that is threaded through the code: the k-th call of the
      session returns [gen k].
    - [isDescendant] recurses through [findStep] by identifier and is not
      structurally recursive: it takes fuel, and [None] stands for a
      recursion that does not come back. *)

From Stdlib Require Import List String Ascii ZArith Lia Bool Arith Permutation FinFun Sorted.
Import ListNotations.

Local Open Scope Z_scope.

(* ================================================================== *)
(** ** Data model *)

#[local] Unset Elimination Schemes.
Inductive Step : Type := mkStep {
  id : string;
  title : string;
  description : option string;
  completed : bool;
  parentId : option string;
  children : list Step;
  order : Z
}.
#[local] Set Elimination Schemes.

Record Goal : Type := mkGoal {
  goalId : string;
  goalTitle : string;
  goalDescription : option string;
  createdAt : Z;
  updatedAt : Z;
  steps : list Step;
  goalOrder : Z
}.

(** [{ ...goal, updatedAt: Date.now() }] *)
Definition touch (goal : Goal) (now : Z) : Goal :=
  mkGoal (goalId goal) (goalTitle goal) (goalDescription goal)
         (createdAt goal) now (steps goal) (goalOrder goal).

(** [updatedGoal.steps = ...] *)
Definition setSteps (goal : Goal) (l : list Step) : Goal :=
  mkGoal (goalId goal) (goalTitle goal) (goalDescription goal)
         (createdAt goal) (updatedAt goal) l (goalOrder goal).

(** [{ ...goal, order: index }] *)
Definition setGoalOrder (goal : Goal) (o : Z) : Goal :=
  mkGoal (goalId goal) (goalTitle goal) (goalDescription goal)
         (createdAt goal) (updatedAt goal) (steps goal) o.

(** [{ ...s, children: cs }] *)
Definition setChildren (s : Step) (cs : list Step) : Step :=
  mkStep (id s) (title s) (description s) (completed s) (parentId s) cs (order s).

(** [{ ...s, order: o }] and [s.order = o] *)
Definition setOrder (s : Step) (o : Z) : Step :=
  mkStep (id s) (title s) (description s) (completed s) (parentId s) (children s) o.

(** [{ ...s, parentId: p }] *)
Definition setParentId (s : Step) (p : option string) : Step :=
  mkStep (id s) (title s) (description s) (completed s) p (children s) (order s).

(** JavaScript truthiness of an optional string. *)
Definition truthy (o : option string) : bool :=
  match o with
  | None => false
  | Some s => negb (String.eqb s EmptyString)
  end.

(** [a === b] on optional strings. *)
Definition optEqb (a b : option string) : bool :=
  match a, b with
  | None, None => true
  | Some x, Some y => String.eqb x y
  | _, _ => false
  end.

(** [Math.max(0, ...xs)] *)
Definition mathMax0 (xs : list Z) : Z := fold_right Z.max 0 xs.

(** [xs.length > 0 ? Math.max(...xs) : -1] *)
Definition mathMaxOrMinus1 (xs : list Z) : Z :=
  match xs with
  | [] => -1
  | x :: rest => fold_right Z.max x rest
  end.

(** The first [Some] among the images of a list: the shape of a [for]
    loop that returns as soon as one iteration finds a result. *)
Fixpoint firstSome {A B : Type} (f : A -> option B) (l : list A) : option B :=
  match l with
  | [] => None
  | a :: rest =>
      match f a with
      | Some b => Some b
      | None => firstSome f rest
      end
  end.

(** Pre-order listing of every step of a forest. *)
Fixpoint flattenStep (s : Step) : list Step :=
  match s with
  | mkStep _ _ _ _ _ cs _ => s :: flat_map flattenStep cs
  end.

Definition flatten (l : list Step) : list Step := flat_map flattenStep l.

Definition ids (l : list Step) : list string := map id (flatten l).

(* ================================================================== *)
(** ** Tree locator *)

Module Locator.

(** One iteration of the loop of [findStepRecursive]: the step itself,
    else the search of its children. *)
Fixpoint findStepAt (sid : string) (step : Step) : option Step :=
  match step with
  | mkStep i _ _ _ _ cs _ =>
      if String.eqb i sid then Some step
      else firstSome (findStepAt sid) cs
  end.

Definition findStepRecursive (l : list Step) (sid : string) : option Step :=
  firstSome (findStepAt sid) l.

Definition findStep (goal : Goal) (stepId : string) : option Step :=
  findStepRecursive (steps goal) stepId.

End Locator.
Export Locator.

(* ================================================================== *)
(** ** Tree mutator *)

(** [l.filter(p).map(f)] in one pass, so that a recursive [f] is applied
    to elements of [l] itself. *)
Fixpoint filterThenMap {A B : Type} (p : A -> bool) (f : A -> B) (l : list A) : list B :=
  match l with
  | [] => []
  | a :: rest => if p a then f a :: filterThenMap p f rest else filterThenMap p f rest
  end.

(** A stateful [map]: the elements are visited left to right and the
    state (the call counter of [generateId]) is handed on. *)
Fixpoint mapState {A B S : Type} (f : A -> S -> B * S) (l : list A) (st : S) : list B * S :=
  match l with
  | [] => ([], st)
  | a :: rest =>
      let (b, st1) := f a st in
      let (bs, st2) := mapState f rest st1 in
      (b :: bs, st2)
  end.

Module Mutator.

(** *** addStep *)

Fixpoint addStepAt (step : Step) (parentStepId : string) (s : Step) : Step :=
  match s with
  | mkStep i _ _ _ _ cs _ =>
      if String.eqb i parentStepId then setChildren s (cs ++ [step])
      else match cs with
           | [] => s
           | _ :: _ => setChildren s (map (addStepAt step parentStepId) cs)
           end
  end.

Definition addStepRecursive (step : Step) (parentStepId : string) (l : list Step) : list Step :=
  map (addStepAt step parentStepId) l.

Definition addStep (now : Z) (goal : Goal) (step : Step) (parentStepId : option string) : Goal :=
  let updatedGoal := touch goal now in
  match parentStepId with
  | Some p =>
      if truthy parentStepId
      then setSteps updatedGoal (addStepRecursive step p (steps updatedGoal))
      else setSteps updatedGoal (steps updatedGoal ++ [step])
  | None => setSteps updatedGoal (steps updatedGoal ++ [step])
  end.

(** *** updateStep *)

Fixpoint updateStepAt (updatedStep : Step) (s : Step) : Step :=
  match s with
  | mkStep i _ _ _ _ cs _ =>
      if String.eqb i (id updatedStep) then setChildren updatedStep cs
      else match cs with
           | [] => s
           | _ :: _ => setChildren s (map (updateStepAt updatedStep) cs)
           end
  end.

Definition updateStepRecursive (updatedStep : Step) (l : list Step) : list Step :=
  map (updateStepAt updatedStep) l.

Definition updateStep (now : Z) (goal : Goal) (updatedStep : Step) : Goal :=
  let updatedGoal := touch goal now in
  setSteps updatedGoal (updateStepRecursive updatedStep (steps updatedGoal)).

(** *** deleteStep *)

Fixpoint deleteStepAt (stepId : string) (s : Step) : Step :=
  match s with
  | mkStep _ _ _ _ _ cs _ =>
      setChildren s
        (filterThenMap (fun c => negb (String.eqb (id c) stepId)) (deleteStepAt stepId) cs)
  end.

Definition deleteStepRecursive (stepId : string) (l : list Step) : list Step :=
  filterThenMap (fun s => negb (String.eqb (id s) stepId)) (deleteStepAt stepId) l.

Definition deleteStep (now : Z) (goal : Goal) (stepId : string) : Goal :=
  let updatedGoal := touch goal now in
  setSteps updatedGoal (deleteStepRecursive stepId (steps updatedGoal)).

(** *** toggleStepCompletion *)

Fixpoint toggleCompletionForceAt (status : bool) (s : Step) : Step :=
  match s with
  | mkStep i t d _ p cs o =>
      mkStep i t d status p (map (toggleCompletionForceAt status) cs) o
  end.

Definition toggleCompletionRecursiveForce (l : list Step) (status : bool) : list Step :=
  map (toggleCompletionForceAt status) l.

Fixpoint toggleCompletionAt (stepId : string) (s : Step) : Step :=
  match s with
  | mkStep i t d c p cs o =>
      if String.eqb i stepId then
        let newStatus := negb c in
        mkStep i t d newStatus p
          (map (fun child =>
                  mkStep (id child) (title child) (description child) newStatus
                         (parentId child)
                         (toggleCompletionRecursiveForce (children child) newStatus)
                         (order child))
               cs)
          o
      else match cs with
           | [] => s
           | _ :: _ => setChildren s (map (toggleCompletionAt stepId) cs)
           end
  end.

Definition toggleCompletionRecursive (stepId : string) (l : list Step) : list Step :=
  map (toggleCompletionAt stepId) l.

Definition toggleStepCompletion (now : Z) (goal : Goal) (stepId : string) : Goal :=
  let updatedGoal := touch goal now in
  setSteps updatedGoal (toggleCompletionRecursive stepId (steps updatedGoal)).

(** *** duplicateStep *)

(** [duplicateStepRecursive]: [generateId()] is called for the node
    before its children are copied, so the identifiers are drawn in
    pre-order. *)
Fixpoint duplicateStepRecursive (gen : nat -> string) (step : Step) (k : nat) : Step * nat :=
  match step with
  | mkStep _ t d c p cs o =>
      let newId := gen k in
      let (copies, k') := mapState (duplicateStepRecursive gen) cs (S k) in
      (mkStep newId (String.append t " (Copy)"%string) d c p copies o, k')
  end.

Definition findMaxOrder (l : list Step) (pid : option string) : Z :=
  mathMax0 (map order (filter (fun s => optEqb (parentId s) pid) l)).

(** The value of [duplicatedStep.order] once [addDuplicatedStepToParent]
    has been mapped over the tree: every step whose id is the parent's
    assigns to the one shared object, and the last assignment stays.
    [cur] is the value before the step is visited. *)
Fixpoint duplicatedOrderAt (pid : string) (s : Step) (cur : Z) : Z :=
  match s with
  | mkStep i _ _ _ _ cs _ =>
      if String.eqb i pid then findMaxOrder cs (Some i) + 1
      else fold_left (fun acc c => duplicatedOrderAt pid c acc) cs cur
  end.

Definition duplicatedOrder (pid : string) (l : list Step) (cur : Z) : Z :=
  fold_left (fun acc s => duplicatedOrderAt pid s acc) l cur.

(** [addDuplicatedStepToParent], with [duplicatedStep] the shared object
    as it is when the function has returned. *)
Fixpoint addDuplicatedStepToParentAt (duplicatedStep : Step) (pid : string) (s : Step) : Step :=
  match s with
  | mkStep i _ _ _ _ cs _ =>
      if String.eqb i pid then setChildren s (cs ++ [duplicatedStep])
      else match cs with
           | [] => s
           | _ :: _ => setChildren s (map (addDuplicatedStepToParentAt duplicatedStep pid) cs)
           end
  end.

Definition addDuplicatedStepToParent (duplicatedStep : Step) (pid : string) (l : list Step) : list Step :=
  map (addDuplicatedStepToParentAt duplicatedStep pid) l.

Definition duplicateStep (gen : nat -> string) (k : nat) (now : Z) (goal : Goal) (stepId : string)
  : Goal * nat :=
  let updatedGoal := touch goal now in
  match findStep goal stepId with
  | None => (goal, k)
  | Some stepToDuplicate =>
      let (duplicatedStep, k') := duplicateStepRecursive gen stepToDuplicate k in
      match parentId stepToDuplicate with
      | Some pid =>
          if truthy (parentId stepToDuplicate) then
            let duplicatedStep' :=
              setOrder duplicatedStep
                (duplicatedOrder pid (steps updatedGoal) (order duplicatedStep)) in
            (setSteps updatedGoal
               (addDuplicatedStepToParent duplicatedStep' pid (steps updatedGoal)), k')
          else
            (setSteps updatedGoal
               (steps updatedGoal ++
                [setOrder duplicatedStep (findMaxOrder (steps updatedGoal) None + 1)]), k')
      | None =>
          (setSteps updatedGoal
             (steps updatedGoal ++
              [setOrder duplicatedStep (findMaxOrder (steps updatedGoal) None + 1)]), k')
      end
  end.

(** *** reorderStep *)

(** The actual start index of [Array.prototype.splice] on an array of
    length [len]: a negative [start] counts from the end, and the result
    is clamped to [0, len]. *)
Definition spliceStart (len : nat) (start : Z) : nat :=
  if start <? 0 then Z.to_nat (Z.max (Z.of_nat len + start) 0)
  else Z.to_nat (Z.min start (Z.of_nat len)).

(** [const [moved] = l.splice(start, 1)]: the removed element, if there
    is one at the start index, and the array that is left. *)
Definition spliceRemove1 {A : Type} (l : list A) (start : Z) : option A * list A :=
  let k := spliceStart (List.length l) start in
  (nth_error l k, firstn k l ++ skipn (S k) l).

(** [l.splice(start, 0, x)] *)
Definition spliceInsert {A : Type} (l : list A) (start : Z) (x : A) : list A :=
  let k := spliceStart (List.length l) start in
  firstn k l ++ x :: skipn k l.

(** [l.findIndex(s => s.id === sourceId)], [None] for [-1]. *)
Fixpoint findIndex (sourceId : string) (l : list Step) : option nat :=
  match l with
  | [] => None
  | s :: rest =>
      if String.eqb (id s) sourceId then Some O
      else option_map S (findIndex sourceId rest)
  end.

(** [l.map((step, index) => ({ ...step, order: index }))], counting from [k]. *)
Fixpoint renumberFrom (k : nat) (l : list Step) : list Step :=
  match l with
  | [] => []
  | s :: rest => setOrder s (Z.of_nat k) :: renumberFrom (S k) rest
  end.

Definition renumber (l : list Step) : list Step := renumberFrom 0 l.

(** The body shared by both branches of [reorderStepsAtSameLevel]: move
    the step inside one sibling list and renumber it; [None] when
    [sourceIndex < 0]. *)
Definition reorderList (l : list Step) (sourceId : string) (newIndex : Z) : option (list Step) :=
  match findIndex sourceId l with
  | None => None
  | Some sourceIndex =>
      match spliceRemove1 l (Z.of_nat sourceIndex) with
      | (Some movedStep, rest) => Some (renumber (spliceInsert rest newIndex movedStep))
      | (None, _) => None
      end
  end.

Fixpoint reorderWithinParentAt (sourceId : string) (newIndex : Z) (pid : string) (step : Step) : Step :=
  match step with
  | mkStep i _ _ _ _ cs _ =>
      if String.eqb i pid then
        match reorderList cs sourceId newIndex with
        | None => step
        | Some reorderedChildren => setChildren step reorderedChildren
        end
      else match cs with
           | [] => step
           | _ :: _ => setChildren step (map (reorderWithinParentAt sourceId newIndex pid) cs)
           end
  end.

Definition reorderStepsAtSameLevel (l : list Step) (sourceId : string) (newIndex : Z)
    (parentId : option string) : list Step :=
  match parentId with
  | Some pid =>
      if truthy parentId then map (reorderWithinParentAt sourceId newIndex pid) l
      else match reorderList l sourceId newIndex with
           | None => l
           | Some reorderedSteps => reorderedSteps
           end
  | None =>
      match reorderList l sourceId newIndex with
      | None => l
      | Some reorderedSteps => reorderedSteps
      end
  end.

Definition reorderStep (now : Z) (goal : Goal) (stepId : string) (newIndex : Z)
    (parentId : option string) : Goal :=
  let updatedGoal := touch goal now in
  setSteps updatedGoal (reorderStepsAtSameLevel (steps updatedGoal) stepId newIndex parentId).

(** *** moveStepToParent *)

(** [isDescendant] calls itself on [child.id], which [findStep] resolves
    again from the root of the goal: the recursion is on identifiers, not
    on the tree, and is bounded here by [fuel]. *)
Fixpoint isDescendant (fuel : nat) (goal : Goal) (parentId potentialChildId : string)
  : option bool :=
  match fuel with
  | O => None
  | S fuel' =>
      match findStep goal parentId with
      | None => Some false
      | Some parent =>
          (fix loop (cs : list Step) : option bool :=
             match cs with
             | [] => Some false
             | child :: rest =>
                 if String.eqb (id child) potentialChildId then Some true
                 else match isDescendant fuel' goal (id child) potentialChildId with
                      | None => None
                      | Some true => Some true
                      | Some false => loop rest
                      end
             end) (children parent)
      end
  end.

Definition hasId (stepId : string) (s : Step) : bool := String.eqb (id s) stepId.
Definition lacksId (stepId : string) (s : Step) : bool := negb (String.eqb (id s) stepId).

Fixpoint removeStepFromParentAt (stepId : string) (s : Step) : Step :=
  match s with
  | mkStep _ _ _ _ _ cs _ =>
      setChildren s
        (if existsb (hasId stepId) cs then filter (lacksId stepId) cs
         else if existsb (hasId stepId) cs then filter (lacksId stepId) cs
         else map (removeStepFromParentAt stepId) cs)
  end.

Definition removeStepFromParent (l : list Step) (stepId : string) : list Step :=
  if existsb (hasId stepId) l then filter (lacksId stepId) l
  else map (removeStepFromParentAt stepId) l.

Definition getMaxOrder (goal : Goal) (l : list Step) (parentId : option string) : Z :=
  match parentId with
  | Some pid =>
      if truthy parentId then
        match findStep goal pid with
        | Some parent => mathMax0 (map order (children parent))
        | None => 0
        end
      else mathMax0 (map order l)
  | None => mathMax0 (map order l)
  end.

Fixpoint addStepToNewParentAt (movedStep : Step) (newParentId : string) (s : Step) : Step :=
  match s with
  | mkStep i _ _ _ _ cs _ =>
      if String.eqb i newParentId then setChildren s (cs ++ [movedStep])
      else match cs with
           | [] => s
           | _ :: _ => setChildren s (map (addStepToNewParentAt movedStep newParentId) cs)
           end
  end.

Definition addStepToNewParent (movedStep : Step) (newParentId : string) (l : list Step) : list Step :=
  map (addStepToNewParentAt movedStep newParentId) l.

(** [movedStep.order = getMaxOrder([], s.id) + 1] is evaluated at a step
    whose id is [newParentId] and reads the goal as it was given, so every
    assignment to the shared [movedStep] writes the same value; the object
    appears in the result only where an assignment happened. *)
Definition moveStepToParent (fuel : nat) (now : Z) (goal : Goal) (stepId : string)
    (newParentId : option string) : option Goal :=
  let updatedGoal := touch goal now in
  match findStep goal stepId with
  | None => Some goal
  | Some stepToMove =>
      let intermediateSteps := removeStepFromParent (steps updatedGoal) stepId in
      let movedStep := setParentId stepToMove newParentId in
      let toRoot :=
        setSteps updatedGoal
          (intermediateSteps ++
           [setOrder movedStep (getMaxOrder goal intermediateSteps None + 1)]) in
      match newParentId with
      | Some np =>
          if truthy newParentId then
            match isDescendant fuel goal stepId np with
            | None => None
            | Some true => Some goal
            | Some false =>
                let movedStep' :=
                  setOrder movedStep (getMaxOrder goal [] (Some np) + 1) in
                Some (setSteps updatedGoal (addStepToNewParent movedStep' np intermediateSteps))
            end
          else Some toRoot
      | None => Some toRoot
      end
  end.

End Mutator.
Export Mutator.

(* ================================================================== *)
(** ** Goal collection *)

Module Collection.

Fixpoint renumberGoalsFrom (k : nat) (l : list Goal) : list Goal :=
  match l with
  | [] => []
  | g :: rest => setGoalOrder g (Z.of_nat k) :: renumberGoalsFrom (S k) rest
  end.

(** [reorderGoals]. When [sourceIndex] names no element, [movedGoal] is
    [undefined] and the array that is returned holds an object that is
    not a [Goal]: that outcome is [None]. *)
Definition reorderGoals (goals : list Goal) (sourceIndex destinationIndex : Z)
  : option (list Goal) :=
  match spliceRemove1 goals sourceIndex with
  | (Some movedGoal, reorderedGoals) =>
      Some (renumberGoalsFrom 0 (spliceInsert reorderedGoals destinationIndex movedGoal))
  | (None, _) => None
  end.

End Collection.
Export Collection.

(* ================================================================== *)
(** ** The provider's step operations ([GoalContext]) *)

Module Facade.

(** The state of the provider that the step operations read and write.
    The persistence call [db.updateGoal] is outside the engine: whether it
    resolves or rejects is the parameter [stored] of an operation. A
    rejection, like an exception thrown before the call, lands in the
    [catch] of the operation, which sets [error] and leaves the goals as
    they are. *)
Record Provider : Type := mkProvider {
  goals : list Goal;
  error : option string
}.

(** [goals.find(g => g.id === goalId)] *)
Definition findGoal (gs : list Goal) (gid : string) : option Goal :=
  find (fun g => String.eqb (goalId g) gid) gs.

(** [prevGoals.map(g => g.id === goalId ? updatedGoal : g)] *)
Definition replaceGoal (gs : list Goal) (gid : string) (updatedGoal : Goal) : list Goal :=
  map (fun g => if String.eqb (goalId g) gid then updatedGoal else g) gs.

(** [findParent] of the provider's [addStep] is the loop of
    [findStepRecursive] written out a second time. *)
Definition findParent (l : list Step) (parentStepId : string) : option Step :=
  firstSome (findStepAt parentStepId) l.

(** The [maxOrder] that the provider's [addStep] computes. *)
Definition addStepMaxOrder (goalToUpdate : Goal) (parentStepId : option string) : Z :=
  match parentStepId with
  | Some p =>
      if truthy parentStepId then
        match findParent (steps goalToUpdate) p with
        | Some parent => mathMaxOrMinus1 (map order (children parent))
        | None => -1
        end
      else mathMaxOrMinus1 (map order (steps goalToUpdate))
  | None => mathMaxOrMinus1 (map order (steps goalToUpdate))
  end.

(** The goal that the provider's [addStep] hands to the store, for a
    goal that was found. *)
Definition addStepToGoal (gen : nat -> string) (k : nat) (now : Z) (goalToUpdate : Goal)
    (title : string) (description parentStepId : option string) : Goal * nat :=
  let maxOrder := addStepMaxOrder goalToUpdate parentStepId in
  let newStep := mkStep (gen k) title description false parentStepId [] (maxOrder + 1) in
  (addStep now goalToUpdate newStep parentStepId, S k).

Definition ctxAddStep (gen : nat -> string) (k : nat) (now : Z) (stored : bool)
    (st : Provider) (gid title : string) (description parentStepId : option string)
  : Provider * nat :=
  let failed :=
    mkProvider (goals st) (Some "Failed to add step. Please try again later."%string) in
  match findGoal (goals st) gid with
  | None => (failed, k)
  | Some goalToUpdate =>
      let (updatedGoal, k') :=
        addStepToGoal gen k now goalToUpdate title description parentStepId in
      if stored then (mkProvider (replaceGoal (goals st) gid updatedGoal) (error st), k')
      else (failed, k')
  end.

(** The goal that the provider's [updateStep] hands to the store, for a
    goal that was found; [None] when it throws [Step not found]. *)
Definition updateStepInGoal (now : Z) (goalToUpdate : Goal) (stepId title : string)
    (description : option string) : option Goal :=
  match findStep goalToUpdate stepId with
  | None => None
  | Some existingStep =>
      let updatedStep :=
        mkStep (id existingStep) title description (completed existingStep)
               (parentId existingStep) (children existingStep) (order existingStep) in
      Some (updateStep now goalToUpdate updatedStep)
  end.

Definition ctxUpdateStep (now : Z) (stored : bool) (st : Provider)
    (gid stepId title : string) (description : option string) : Provider :=
  let failed :=
    mkProvider (goals st) (Some "Failed to update step. Please try again later."%string) in
  match findGoal (goals st) gid with
  | None => failed
  | Some goalToUpdate =>
      match updateStepInGoal now goalToUpdate stepId title description with
      | None => failed
      | Some updatedGoal =>
          if stored then mkProvider (replaceGoal (goals st) gid updatedGoal) (error st)
          else failed
      end
  end.

End Facade.
Export Facade.

(* ================================================================== *)
(** ** The provider's other operations ([GoalContext])

    Every operation awaits the store before it calls [setGoals], with the
    store's answer as the parameter [stored]. One operation runs at a
    time: the [prevGoals] that [setGoals] hands to its updater are the
    [goals] the operation read. *)

Module ProviderOps.

(** The [catch] block: [setError(message)], goals untouched. *)
Definition failWith (st : Provider) (message : string) : Provider :=
  mkProvider (goals st) (Some message).

(** [addGoal]: [createdAt] and [updatedAt] come from two calls of
    [Date.now()]. *)
Definition ctxAddGoal (gen : nat -> string) (k : nat) (createdNow updatedNow : Z)
    (stored : bool) (st : Provider) (title : string) (description : option string)
  : Provider * nat :=
  let maxOrder := mathMaxOrMinus1 (map goalOrder (goals st)) in
  let newGoal := mkGoal (gen k) title description createdNow updatedNow [] (maxOrder + 1) in
  if stored then (mkProvider (goals st ++ [newGoal]) (error st), S k)
  else (failWith st "Failed to add goal. Please try again later.", S k).

Definition ctxUpdateGoalDetails (now : Z) (stored : bool) (st : Provider) (gid title : string)
    (description : option string) : Provider :=
  let failed := failWith st "Failed to update goal. Please try again later." in
  match findGoal (goals st) gid with
  | None => failed
  | Some goalToUpdate =>
      let updatedGoal :=
        mkGoal (goalId goalToUpdate) title description (createdAt goalToUpdate) now
               (steps goalToUpdate) (goalOrder goalToUpdate) in
      if stored then mkProvider (replaceGoal (goals st) gid updatedGoal) (error st)
      else failed
  end.

Definition ctxDeleteGoal (stored : bool) (st : Provider) (gid : string) : Provider :=
  if stored
  then mkProvider (filter (fun g => negb (String.eqb (goalId g) gid)) (goals st)) (error st)
  else failWith st "Failed to delete goal. Please try again later.".

(** The frame shared by the step operations that cannot fail inside the
    engine: find the goal, transform it, store it, replace it. *)
Definition ctxStepOperation (message : string) (transform : Goal -> Goal)
    (stored : bool) (st : Provider) (gid : string) : Provider :=
  match findGoal (goals st) gid with
  | None => failWith st message
  | Some goalToUpdate =>
      if stored then mkProvider (replaceGoal (goals st) gid (transform goalToUpdate)) (error st)
      else failWith st message
  end.

Definition ctxDeleteStep (now : Z) (stored : bool) (st : Provider) (gid stepId : string)
  : Provider :=
  ctxStepOperation "Failed to delete step. Please try again later."
    (fun goalToUpdate => deleteStep now goalToUpdate stepId) stored st gid.

Definition ctxToggleStepCompletion (now : Z) (stored : bool) (st : Provider)
    (gid stepId : string) : Provider :=
  ctxStepOperation "Failed to toggle step completion. Please try again later."
    (fun goalToUpdate => toggleStepCompletion now goalToUpdate stepId) stored st gid.

Definition ctxReorderSteps (now : Z) (stored : bool) (st : Provider) (gid stepId : string)
    (newIndex : Z) (parentId : option string) : Provider :=
  ctxStepOperation "Failed to reorder steps. Please try again later."
    (fun goalToUpdate => reorderStep now goalToUpdate stepId newIndex parentId) stored st gid.

(** [duplicateStep] draws identifiers, so the call counter comes back. *)
Definition ctxDuplicateStep (gen : nat -> string) (k : nat) (now : Z) (stored : bool)
    (st : Provider) (gid stepId : string) : Provider * nat :=
  let failed := failWith st "Failed to duplicate step. Please try again later." in
  match findGoal (goals st) gid with
  | None => (failed, k)
  | Some goalToUpdate =>
      let (updatedGoal, k') := duplicateStep gen k now goalToUpdate stepId in
      if stored then (mkProvider (replaceGoal (goals st) gid updatedGoal) (error st), k')
      else (failed, k')
  end.

(** [moveStepToParent]: a recursion of [isDescendant] that does not come
    back ends in a [RangeError], which the [catch] takes like any other. *)
Definition ctxMoveStepToParent (fuel : nat) (now : Z) (stored : bool) (st : Provider)
    (gid stepId : string) (newParentId : option string) : Provider :=
  let failed := failWith st "Failed to move step. Please try again later." in
  match findGoal (goals st) gid with
  | None => failed
  | Some goalToUpdate =>
      match moveStepToParent fuel now goalToUpdate stepId newParentId with
      | None => failed
      | Some updatedGoal =>
          if stored then mkProvider (replaceGoal (goals st) gid updatedGoal) (error st)
          else failed
      end
  end.

(** [reorderGoals] of the provider. When the engine returns an array with
    an object that is not a goal (see [reorderGoals] of the engine), what
    the store makes of it is outside the model, which stops there with
    [None]. *)
Definition ctxReorderGoals (stored : bool) (st : Provider) (sourceIndex destinationIndex : Z)
  : option Provider :=
  match reorderGoals (goals st) sourceIndex destinationIndex with
  | None => None
  | Some updatedGoals =>
      if stored then Some (mkProvider updatedGoals (error st))
      else Some (failWith st "Failed to reorder goals. Please try again later.")
  end.

(** [[...loadedGoals].sort((a, b) => a.order - b.order)]: the sort of the
    language is stable, so what it returns is what a stable insertion sort
    returns: a goal goes in front of the first goal whose [order] is not
    below its own. *)
Fixpoint insertByOrder (g : Goal) (sorted : list Goal) : list Goal :=
  match sorted with
  | [] => [g]
  | h :: rest =>
      if goalOrder g <=? goalOrder h then g :: sorted else h :: insertByOrder g rest
  end.

Definition sortByOrder (l : list Goal) : list Goal := fold_right insertByOrder [] l.

(** [loadGoals] of the effect that runs on mount. [loaded] is what
    [db.getAllGoals()] resolves to, [None] when it rejects. *)
Definition ctxLoadGoals (loaded : option (list Goal)) (st : Provider) : Provider :=
  match loaded with
  | Some loadedGoals => mkProvider (sortByOrder loadedGoals) None
  | None => failWith st "Failed to load goals. Please try again later."
  end.

End ProviderOps.
Export ProviderOps.

(* ================================================================== *)
(** ** The goal card and the goal list ([GoalItem], [StepItem], the page) *)

Module Components.

(** [countTotalSteps]: [countRecursive] adds the length of the list it is
    given to the shared counter and goes down into every non-empty list of
    children. [count] is the counter before the step is visited. *)
Fixpoint countTotalAt (step : Step) (count : Z) : Z :=
  match step with
  | mkStep _ _ _ _ _ cs _ =>
      match cs with
      | [] => count
      | _ :: _ =>
          fold_left (fun acc c => countTotalAt c acc) cs (count + Z.of_nat (List.length cs))
      end
  end.

Definition countTotalRecursive (l : list Step) (count : Z) : Z :=
  fold_left (fun acc s => countTotalAt s acc) l (count + Z.of_nat (List.length l)).

Definition countTotalSteps (goal : Goal) : Z := countTotalRecursive (steps goal) 0.

(** [countCompletedSteps] *)
Fixpoint countCompletedAt (step : Step) (count : Z) : Z :=
  match step with
  | mkStep _ _ _ c _ cs _ =>
      let count1 := if c then count + 1 else count in
      match cs with
      | [] => count1
      | _ :: _ => fold_left (fun acc ch => countCompletedAt ch acc) cs count1
      end
  end.

Definition countCompletedRecursive (l : list Step) (count : Z) : Z :=
  fold_left (fun acc s => countCompletedAt s acc) l count.

Definition countCompletedSteps (goal : Goal) : Z := countCompletedRecursive (steps goal) 0.

(** [s.split('-')[0]]: what stands before the first hyphen. *)
Fixpoint beforeHyphen (s : string) : string :=
  match s with
  | EmptyString => EmptyString
  | String c rest =>
      if Ascii.eqb c "-"%char then EmptyString else String c (beforeHyphen rest)
  end.

(** The droppable of the root steps of a goal: [`${goal.id}-steps`]. *)
Definition rootDroppableId (gid : string) : string := String.append gid "-steps"%string.

(** The droppable of the children of a step: [`${step.id}-children`]. *)
Definition childrenDroppableId (stepId : string) : string :=
  String.append stepId "-children"%string.

Record DraggableLocation : Type := mkLocation {
  droppableId : string;
  index : Z
}.

Record DropResult : Type := mkDropResult {
  source : DraggableLocation;
  destination : option DraggableLocation;
  draggableId : string
}.

(** What a drag handler asks the provider to do. *)
Inductive DragAction : Type :=
| NoAction
| CallReorderSteps (gid stepId : string) (newIndex : Z) (parentId : option string)
| CallMoveStepToParent (gid stepId : string) (newParentId : option string)
| CallReorderGoals (sourceIndex destinationIndex : Z).

(** The parent that a droppable id stands for in [handleDragEnd]. *)
Definition droppableParent (goal : Goal) (dropId : string) : option string :=
  if String.eqb dropId (rootDroppableId (goalId goal)) then None
  else Some (beforeHyphen dropId).

(** [handleDragEnd] of the goal card. *)
Definition handleDragEnd (goal : Goal) (result : DropResult) : DragAction :=
  match destination result with
  | None => NoAction
  | Some dest =>
      if String.eqb (droppableId (source result)) (droppableId dest)
         && Z.eqb (index (source result)) (index dest)
      then NoAction
      else if String.eqb (droppableId (source result)) (droppableId dest)
      then CallReorderSteps (goalId goal) (draggableId result) (index dest)
                            (droppableParent goal (droppableId (source result)))
      else CallMoveStepToParent (goalId goal) (draggableId result)
                                (droppableParent goal (droppableId dest))
  end.

(** [handleDragEnd] of the page, for the list of goals. *)
Definition pageHandleDragEnd (result : DropResult) : DragAction :=
  match destination result with
  | None => NoAction
  | Some dest =>
      if Z.eqb (index dest) (index (source result)) then NoAction
      else CallReorderGoals (index (source result)) (index dest)
  end.

End Components.
Export Components.

(* ================================================================== *)
(** ** Vocabulary of the specification

    The invariants of the data model and the functions that say, in the
    words of the specification, what an operation is to do. None of them
    is part of the engine; the theorems compare the engine with them. *)

(** I1: no two steps of a forest share an identifier. *)
Definition uniqueIds (l : list Step) : Prop := NoDup (ids l).

(** I3 below a parent: the step names [pid] as its parent and each of its
    children names the step. *)
Fixpoint parentConsistentAt (pid : option string) (s : Step) : bool :=
  match s with
  | mkStep i _ _ _ p cs _ =>
      optEqb p pid && forallb (parentConsistentAt (Some i)) cs
  end.

(** I3 for the forest of a goal: root steps have no [parentId]. *)
Definition parentConsistent (l : list Step) : bool :=
  forallb (parentConsistentAt None) l.

(** A sibling set of a forest: its root list, or the children of one of
    its steps. *)
Definition siblingSet (forest sibs : list Step) : Prop :=
  sibs = forest \/ exists s, In s (flatten forest) /\ children s = sibs.

(** I2 for one sibling set: its orders are 0..N-1, each once. *)
Definition dense (sibs : list Step) : Prop :=
  Permutation (map order sibs) (map Z.of_nat (seq 0 (List.length sibs))).

(** I2 for every sibling set below the root list. *)
Definition innerDense (forest : list Step) : Prop :=
  forall s, In s (flatten forest) -> dense (children s).

(** I2 for every sibling set of a forest. *)
Definition allDense (forest : list Step) : Prop :=
  forall sibs, siblingSet forest sibs -> dense sibs.

(** Membership of an identifier in a list of identifiers. *)
Definition memId (x : string) (l : list string) : bool := existsb (String.eqb x) l.

(** The fields of a step other than its children. *)
Definition scalars (s : Step) : string * string * option string * bool * option string * Z :=
  (id s, title s, description s, completed s, parentId s, order s).

(** The shape that a copy is to mirror: description, completion flag and
    number of children. *)
Definition shape (s : Step) : option string * bool * nat :=
  (description s, completed s, List.length (children s)).

(** Where a step says it sits: its [parentId] and its [order]. *)
Definition placement (s : Step) : option string * Z := (parentId s, order s).

(** The title that [duplicateStepRecursive] gives to the copy of a step. *)
Definition copyTitle (s : Step) : string := String.append (title s) " (Copy)"%string.

(** What a forest of copies [cs] owes to the forest [l] it was made of,
    when the first identifier was drawn at call [k]. *)
Definition copiedForest (gen : nat -> string) (k : nat) (l cs : list Step) : Prop :=
  List.length cs = List.length l /\
  map order cs = map order l /\
  ids cs = map gen (seq k (List.length (flatten l))) /\
  map title (flatten cs) = map copyTitle (flatten l) /\
  map shape (flatten cs) = map shape (flatten l) /\
  map placement (flatten cs) = map placement (flatten l) /\
  (innerDense l -> innerDense cs).

(** What Update is specified to do, step by step: a step named [stepId]
    gets the new title and description; its other fields, and every field
    of every other step, stay; the shape of the tree stays. *)
Fixpoint retitle (stepId newTitle : string) (newDescription : option string) (s : Step) : Step :=
  match s with
  | mkStep i t d c p cs o =>
      mkStep i
             (if String.eqb i stepId then newTitle else t)
             (if String.eqb i stepId then newDescription else d)
             c p (map (retitle stepId newTitle newDescription) cs) o
  end.

(** What ToggleCompletion is specified to do, step by step: a step whose
    id is in [subtree] (the ids of X and of its descendants) gets the
    completion [b]; every other step keeps its own; nothing else moves. *)
Fixpoint setCompletion (subtree : list string) (b : bool) (s : Step) : Step :=
  match s with
  | mkStep i t d c p cs o =>
      mkStep i t d (if memId i subtree then b else c) p
             (map (setCompletion subtree b) cs) o
  end.


(** The sibling list that an operation with an optional parent is aimed
    at: the root list, or the children of the step that [findStep] finds
    for a non-empty parent identifier. *)
Definition targetSiblings (goal : Goal) (parent : option string) (sibs : list Step) : Prop :=
  match parent with
  | None => sibs = steps goal
  | Some p => p <> EmptyString /\ exists P, findStep goal p = Some P /\ sibs = children P
  end.

(** The parent that DuplicateSubtree reads off the step it copies: its
    [parentId] when that is a non-empty string, none otherwise. *)
Definition copyParent (X : Step) : option string :=
  if truthy (parentId X) then parentId X else None.

(** Every field of a goal but [steps] and [updatedAt] is what it was. *)
Definition keepsGoalFields (g g' : Goal) : Prop :=
  goalId g' = goalId g /\ goalTitle g' = goalTitle g /\
  goalDescription g' = goalDescription g /\ createdAt g' = createdAt g /\
  goalOrder g' = goalOrder g.

(* ================================================================== *)
(** ** Auxiliary definitions of the proofs *)

(** The skeleton shared by the in-place rewrites of the engine: rewrite
    with [H] a step whose id is [target], descend into the children of
    every other step. *)
Fixpoint rewriteAt (target : string) (H : Step -> Step) (s : Step) : Step :=
  match s with
  | mkStep i _ _ _ _ cs _ =>
      if String.eqb i target then H s
      else setChildren s (map (rewriteAt target H) cs)
  end.

(** [{ ...s, children: [...s.children, x] }] *)
Definition appendChild (x : Step) (s : Step) : Step := setChildren s (children s ++ [x]).

(** What [toggleCompletionRecursive] returns for the step it is aimed at. *)
Definition forceChildren (s : Step) : Step :=
  mkStep (id s) (title s) (description s) (negb (completed s)) (parentId s)
         (map (toggleCompletionForceAt (negb (completed s))) (children s)) (order s).

(** What the nested branch of [reorderStepsAtSameLevel] returns for the
    parent it is aimed at. *)
Definition reorderChildren (sourceId : string) (newIndex : Z) (s : Step) : Step :=
  match reorderList (children s) sourceId newIndex with
  | None => s
  | Some l => setChildren s l
  end.

(** The [for] loop of [isDescendant], with the recursive call abstracted. *)
Fixpoint descendantLoop (rec : string -> option bool) (potentialChildId : string)
    (cs : list Step) : option bool :=
  match cs with
  | [] => Some false
  | child :: rest =>
      if String.eqb (id child) potentialChildId then Some true
      else match rec (id child) with
           | None => None
           | Some true => Some true
           | Some false => descendantLoop rec potentialChildId rest
           end
  end.

(** Where the step [X] that [findStepRecursive (s :: l) sid] returns sits,
    when identifiers are unique, with the facts that each case brings. *)
Inductive Located (sid : string) (X s : Step) (l : list Step) : Prop :=
| AtHead :
    id s = sid -> X = s ->
    ~ In sid (ids (children s)) -> ~ In sid (ids l) ->
    (forall x, In x (ids [X]) -> ~ In x (ids l)) ->
    Located sid X s l
| BelowHead :
    id s <> sid -> findStepRecursive (children s) sid = Some X ->
    ~ In sid (ids l) -> ~ In (id s) (ids [X]) ->
    (forall x, In x (ids [X]) -> ~ In x (ids l)) ->
    Located sid X s l
| InTail :
    id s <> sid -> findStepRecursive l sid = Some X ->
    ~ In sid (ids (children s)) -> ~ In (id s) (ids [X]) ->
    (forall x, In x (ids [X]) -> ~ In x (ids (children s))) ->
    Located sid X s l.

(* ================================================================== *)
(** ** Sample data *)

Definition leaf (i : string) (p : option string) (o : Z) : Step :=
  mkStep i i None false p [] o.

Definition node (i : string) (p : option string) (o : Z) (cs : list Step) : Step :=
  mkStep i i None false p cs o.

Definition goalOf (l : list Step) : Goal :=
  mkGoal "g"%string "goal"%string None 0 0 l 0.

(** A goal with the chain a -> b -> c and a second root d. *)
Definition chainGoal : Goal :=
  goalOf [ node "a" None 0 [ node "b" (Some "a"%string) 0 [ leaf "c" (Some "b"%string) 0 ] ];
           leaf "d" None 1 ].

(** The session's identifier oracle in the examples. *)
Definition sampleGen (k : nat) : string :=
  match k with
  | O => "n0"%string
  | S O => "n1"%string
  | S (S O) => "n2"%string
  | _ => "n3"%string
  end.

(** An oracle that gives five identifiers, for the longer scenarios. *)
Definition sessionGen (k : nat) : string :=
  nth k [ "n0"; "n1"; "n2"; "n3"; "n4" ]%string "n5"%string.

(* ================================================================== *)
(** ** Vocabulary of the further properties

    Projections and predicates in which the properties of the code
    beyond the specification are stated. None of them is part of the
    program. *)

(** A goal whose step a has a child that is also named a. *)
Definition selfNamedGoal : Goal :=
  goalOf [ node "a" None 0 [ leaf "a" (Some "a"%string) 0 ]; leaf "d" None 1 ].

(** The fields that ToggleCompletion has no business with. *)
Definition unflagged (s : Step) : string * string * option string * option string * Z * nat :=
  (id s, title s, description s, parentId s, order s, List.length (children s)).

(** The place of a step in the tree: its identifier and how many children
    it has. *)
Definition skeleton (s : Step) : string * nat := (id s, List.length (children s)).

(** What a step is, apart from its position among its siblings. *)
Definition unordered (s : Step) : string * string * option string * bool * option string * nat :=
  (id s, title s, description s, completed s, parentId s, List.length (children s)).

(** What a step carries along when it is moved. *)
Definition payload (s : Step) : string * string * option string * bool :=
  (id s, title s, description s, completed s).

(** The step [X] as it arrives below [newParentId] with the order [o]. *)
Definition movedStep (X : Step) (newParentId : option string) (o : Z) : Step :=
  mkStep (id X) (title X) (description X) (completed X) newParentId (children X) o.

(** Whether a string holds a hyphen. *)
Fixpoint hasHyphen (s : string) : bool :=
  match s with
  | EmptyString => false
  | String c rest => Ascii.eqb c "-"%char || hasHyphen rest
  end.

(** The last character of a string, if it has one. *)
Fixpoint lastChar (s : string) : option ascii :=
  match s with
  | EmptyString => None
  | String c EmptyString => Some c
  | String _ rest => lastChar rest
  end.

(** The goals of a list at their places, with the goals named [gid]
    blanked out. *)
Definition otherGoals (gid : string) (gs : list Goal) : list (option Goal) :=
  map (fun g => if String.eqb (goalId g) gid then None else Some g) gs.

(** Two provider states have the same goal identifiers at the same places
    and the same goals wherever the goal is not named [gid]. *)
Definition sameBut (gid : string) (st st' : Provider) : Prop :=
  map goalId (goals st') = map goalId (goals st) /\
  otherGoals gid (goals st') = otherGoals gid (goals st).

(** The goals of a list are in strictly ascending [order]: sorting them by
    [order], as the provider does when it loads them, gives the list
    back. *)
Definition ascending (gs : list Goal) : Prop :=
  StronglySorted Z.lt (map goalOrder gs).

(** A provider state with the goal named [gid] rewritten by [f] where it
    stands. *)
Definition inPlace (st : Provider) (gid : string) (f : Goal -> Goal) : Provider :=
  mkProvider (map (fun g => if String.eqb (goalId g) gid then f g else g) (goals st))
             (error st).

(** What [updateGoalDetails] writes into a goal. *)
Definition withDetails (title : string) (description : option string) (now : Z) (g : Goal)
  : Goal :=
  mkGoal (goalId g) title description (createdAt g) now (steps g) (goalOrder g).

(* ================================================================== *)
(** ** Induction on steps and forests *)

Section StepInduction.

Variable P : Step -> Prop.
Hypothesis Hnode : forall i t d c p cs o, Forall P cs -> P (mkStep i t d c p cs o).

Lemma Step_ind' : forall s, P s.
Proof.
  fix IH 1. intros [i t d c p cs o]. apply Hnode.
  induction cs as [|x rest IHrest]; constructor; [apply IH|exact IHrest].
Qed.

End StepInduction.

Lemma setChildren_same : forall s, setChildren s (children s) = s.
Proof. intros []; reflexivity. Qed.

Lemma flattenStep_eq : forall s, flattenStep s = s :: flatten (children s).
Proof. intros []; reflexivity. Qed.

Lemma flatten_cons : forall s l, flatten (s :: l) = s :: flatten (children s) ++ flatten l.
Proof. intros s l. unfold flatten at 1. simpl. now rewrite flattenStep_eq. Qed.

Lemma flatten_app : forall l1 l2, flatten (l1 ++ l2) = flatten l1 ++ flatten l2.
Proof. intros. unfold flatten. apply flat_map_app. Qed.

Lemma ids_cons : forall s l, ids (s :: l) = id s :: ids (children s) ++ ids l.
Proof. intros. unfold ids. rewrite flatten_cons. simpl. now rewrite map_app. Qed.

Lemma filterThenMap_eq : forall (A B : Type) (p : A -> bool) (f : A -> B) l,
  filterThenMap p f l = map f (filter p l).
Proof.
  induction l as [|a l IH]; simpl; [reflexivity|].
  destruct (p a); simpl; now rewrite IH.
Qed.

(* ================================================================== *)
(** ** The shared skeleton of the in-place rewrites

    [addStepRecursive], [updateStepRecursive], [toggleCompletionRecursive],
    [addDuplicatedStepToParent], [addStepToNewParent] and the nested branch
    of [reorderStepsAtSameLevel] all map over the forest, rewrite a step
    whose id is the target with some function [H], and descend into the
    children of every other step. [rewriteAt] is that skeleton; each
    source function is shown equal to an instance of it. *)

Ltac skeleton_step IH :=
  simpl; destruct (String.eqb _ _); [reflexivity|];
  match goal with
  | |- context [match ?cs with [] => _ | _ :: _ => _ end] =>
      destruct cs; [reflexivity|]
  end;
  unfold setChildren; simpl; f_equal;
  inversion IH; subst; simpl; f_equal; [assumption|];
  apply map_ext_in; intros x Hx;
  match goal with
  | Hall : Forall _ _ |- _ => rewrite Forall_forall in Hall; now apply Hall
  end.

Lemma addStepAt_skeleton : forall step pid s,
  addStepAt step pid s = rewriteAt pid (appendChild step) s.
Proof. intros step pid s. induction s as [i t d c p cs o IH] using Step_ind'. skeleton_step IH. Qed.

Lemma addDuplicatedStepToParentAt_skeleton : forall dup pid s,
  addDuplicatedStepToParentAt dup pid s = rewriteAt pid (appendChild dup) s.
Proof. intros dup pid s. induction s as [i t d c p cs o IH] using Step_ind'. skeleton_step IH. Qed.

Lemma addStepToNewParentAt_skeleton : forall moved pid s,
  addStepToNewParentAt moved pid s = rewriteAt pid (appendChild moved) s.
Proof. intros moved pid s. induction s as [i t d c p cs o IH] using Step_ind'. skeleton_step IH. Qed.

Lemma updateStepAt_skeleton : forall u s,
  updateStepAt u s = rewriteAt (id u) (fun s => setChildren u (children s)) s.
Proof. intros u s. induction s as [i t d c p cs o IH] using Step_ind'. skeleton_step IH. Qed.

Lemma reorderWithinParentAt_skeleton : forall sourceId newIndex pid s,
  reorderWithinParentAt sourceId newIndex pid s =
  rewriteAt pid (reorderChildren sourceId newIndex) s.
Proof.
  intros sourceId newIndex pid s.
  induction s as [i t d c p cs o IH] using Step_ind'. skeleton_step IH.
Qed.

Lemma toggleCompletionAt_skeleton : forall stepId s,
  toggleCompletionAt stepId s = rewriteAt stepId forceChildren s.
Proof.
  intros stepId s. induction s as [i t d c p cs o IH] using Step_ind'.
  simpl. destruct (String.eqb i stepId).
  - unfold forceChildren. simpl. f_equal. apply map_ext. intros []. reflexivity.
  - destruct cs; [reflexivity|].
    unfold setChildren; simpl; f_equal.
    inversion IH as [|? ? Hhead Htail]; subst; simpl; f_equal; [assumption|].
    apply map_ext_in; intros x Hx.
    rewrite Forall_forall in Htail. now apply Htail.
Qed.

(* ================================================================== *)
(** ** Identifiers that occur in a forest *)

Lemma ids_single : forall s, ids [s] = id s :: ids (children s).
Proof. intros. rewrite ids_cons. unfold ids at 2. simpl. now rewrite app_nil_r. Qed.

Lemma in_ids_cons : forall x s l,
  In x (ids (s :: l)) <-> x = id s \/ In x (ids (children s)) \/ In x (ids l).
Proof.
  intros. rewrite ids_cons. simpl. rewrite in_app_iff. intuition congruence.
Qed.

Lemma in_flatten_cons : forall x s l,
  In x (flatten (s :: l)) <-> x = s \/ In x (flatten (children s)) \/ In x (flatten l).
Proof.
  intros. rewrite flatten_cons. simpl. rewrite in_app_iff. intuition congruence.
Qed.

Lemma in_flatten_ids : forall x l, In x (flatten l) -> In (id x) (ids l).
Proof. intros. unfold ids. now apply in_map. Qed.

Lemma in_flatten_root : forall x l, In x l -> In x (flatten l).
Proof.
  induction l as [|s l IH]; [intros []|].
  intros Hin. rewrite in_flatten_cons. destruct Hin as [->|Hin]; auto.
Qed.

(** Induction on a forest: a property holds of [s :: l] as soon as it
    holds of the children of [s] and of [l]. *)
Lemma forest_ind : forall Q : list Step -> Prop,
  Q [] ->
  (forall s l, Q (children s) -> Q l -> Q (s :: l)) ->
  forall l, Q l.
Proof.
  intros Q Hnil Hcons.
  assert (Hch : forall s, Q (children s)).
  { induction s as [i t d c p cs o IH] using Step_ind'. simpl.
    induction IH as [|x rest Hx _ IHrest]; auto. }
  induction l; auto.
Qed.

Lemma in_flatten_child : forall l s x,
  In s (flatten l) -> In x (flatten (children s)) -> In x (flatten l).
Proof.
  induction l as [|r l IHc IHl] using forest_ind; [intros s x []|].
  intros s x Hs Hx. rewrite in_flatten_cons in Hs |- *.
  destruct Hs as [->|[Hs|Hs]]; eauto.
Qed.

Lemma in_ids_child : forall l s x,
  In s (flatten l) -> In x (ids (children s)) -> In x (ids l).
Proof.
  intros l s x Hs Hx. unfold ids in *. rewrite in_map_iff in *.
  destruct Hx as (y & Hy & Hin). exists y. split; [assumption|].
  eapply in_flatten_child; eauto.
Qed.

(** *** [findStep] against the pre-order listing *)

Lemma findStepRecursive_cons : forall s l sid,
  findStepRecursive (s :: l) sid =
  if String.eqb (id s) sid then Some s
  else match findStepRecursive (children s) sid with
       | Some found => Some found
       | None => findStepRecursive l sid
       end.
Proof.
  intros [i t d c p cs o] l sid. unfold findStepRecursive. simpl.
  destruct (String.eqb i sid); reflexivity.
Qed.

Lemma findStepRecursive_none : forall l sid,
  ~ In sid (ids l) -> findStepRecursive l sid = None.
Proof.
  induction l as [|s l IHc IHl] using forest_ind; [reflexivity|].
  intros sid Hn. rewrite in_ids_cons in Hn. rewrite findStepRecursive_cons.
  destruct (String.eqb_spec (id s) sid) as [E|E]; [exfalso; auto|].
  rewrite IHc by tauto. apply IHl. tauto.
Qed.

Lemma findStepRecursive_some : forall l sid found,
  findStepRecursive l sid = Some found -> In found (flatten l) /\ id found = sid.
Proof.
  induction l as [|s l IHc IHl] using forest_ind; [discriminate|].
  intros sid found. rewrite findStepRecursive_cons, in_flatten_cons.
  destruct (String.eqb_spec (id s) sid) as [E|E].
  - intros [= <-]. auto.
  - destruct (findStepRecursive (children s) sid) eqn:Ec.
    + intros [= <-]. apply IHc in Ec. tauto.
    + intros Hl. apply IHl in Hl. tauto.
Qed.

Lemma findStepRecursive_in : forall l sid,
  In sid (ids l) -> exists found, findStepRecursive l sid = Some found.
Proof.
  intros l sid Hin. destruct (findStepRecursive l sid) eqn:E; [eauto|].
  exfalso. revert sid Hin E.
  induction l as [|s l IHc IHl] using forest_ind; [intros sid []|].
  intros sid Hin. rewrite findStepRecursive_cons. rewrite in_ids_cons in Hin.
  destruct (String.eqb_spec (id s) sid) as [E|E]; [discriminate|].
  destruct (findStepRecursive (children s) sid) eqn:Ec; [discriminate|].
  intros Hl. destruct Hin as [->|[Hin|Hin]]; eauto.
Qed.

Lemma findStepRecursive_in_none : forall l sid,
  findStepRecursive l sid = None -> ~ In sid (ids l).
Proof.
  intros l sid Hn Hin. apply findStepRecursive_in in Hin. destruct Hin as [x Hx]. congruence.
Qed.

(** *** I1: no two steps of a goal share an identifier *)

Lemma uniqueIds_cons : forall s l,
  uniqueIds (s :: l) ->
  ~ In (id s) (ids (children s)) /\ ~ In (id s) (ids l) /\
  uniqueIds (children s) /\ uniqueIds l /\
  (forall x, In x (ids (children s)) -> ~ In x (ids l)).
Proof.
  unfold uniqueIds. intros s l H. rewrite ids_cons in H.
  inversion H as [|? ? Hni Hnd]; subst. rewrite in_app_iff in Hni.
  pose proof (NoDup_app_remove_l _ _ Hnd). pose proof (NoDup_app_remove_r _ _ Hnd).
  repeat split; try tauto.
  intros x Hc Hl. revert Hnd Hc Hl. clear.
  induction (ids (children s)) as [|y ys IH]; simpl; [tauto|].
  intros Hnd [->|Hc] Hl; inversion Hnd; subst.
  - apply H1. apply in_or_app. auto.
  - auto.
Qed.

Lemma uniqueIds_find : forall l s,
  uniqueIds l -> In s (flatten l) -> findStepRecursive l (id s) = Some s.
Proof.
  induction l as [|r l IHc IHl] using forest_ind; [intros s _ []|].
  intros s Hu Hin. apply uniqueIds_cons in Hu.
  destruct Hu as (Hrc & Hrl & Huc & Hul & Hdisj).
  rewrite findStepRecursive_cons. rewrite in_flatten_cons in Hin.
  destruct (String.eqb_spec (id r) (id s)) as [E|E].
  - destruct Hin as [->|[Hin|Hin]]; [reflexivity| |];
      apply in_flatten_ids in Hin; rewrite <- E in Hin; tauto.
  - destruct Hin as [->|[Hin|Hin]]; [congruence| |].
    + now rewrite (IHc s Huc Hin).
    + rewrite findStepRecursive_none; [auto|].
      intro Hc. apply (Hdisj _ Hc). now apply in_flatten_ids.
Qed.

Lemma uniqueIds_child : forall l s,
  uniqueIds l -> In s (flatten l) -> uniqueIds (children s) /\ ~ In (id s) (ids (children s)).
Proof.
  induction l as [|r l IHc IHl] using forest_ind; [intros s _ []|].
  intros s Hu Hin. apply uniqueIds_cons in Hu.
  destruct Hu as (Hrc & Hrl & Huc & Hul & Hdisj).
  rewrite in_flatten_cons in Hin. destruct Hin as [->|[Hin|Hin]]; auto.
Qed.

(* ================================================================== *)
(** ** Operations aimed at an identifier that is not in the tree *)

Lemma rewriteAt_eq : forall target H s,
  rewriteAt target H s =
  if String.eqb (id s) target then H s
  else setChildren s (map (rewriteAt target H) (children s)).
Proof. intros target H []; reflexivity. Qed.

Lemma rewriteAt_absent : forall target H l,
  ~ In target (ids l) -> map (rewriteAt target H) l = l.
Proof.
  intros target H.
  induction l as [|s l IHc IHl] using forest_ind; [reflexivity|].
  intros Hn. rewrite in_ids_cons in Hn. simpl. rewrite rewriteAt_eq.
  destruct (String.eqb_spec (id s) target) as [E|E]; [exfalso; auto|].
  rewrite IHc, IHl by tauto. now rewrite setChildren_same.
Qed.

Lemma deleteStepRecursive_cons : forall sid s l,
  deleteStepRecursive sid (s :: l) =
  if String.eqb (id s) sid then deleteStepRecursive sid l
  else setChildren s (deleteStepRecursive sid (children s)) :: deleteStepRecursive sid l.
Proof.
  intros sid [i t d c p cs o] l. unfold deleteStepRecursive. simpl.
  destruct (String.eqb i sid); reflexivity.
Qed.

(** The one-pass model against the source's [filter] followed by [map]. *)
Lemma deleteStepRecursive_source : forall sid l,
  deleteStepRecursive sid l =
  map (fun s => setChildren s (deleteStepRecursive sid (children s)))
      (filter (fun s => negb (String.eqb (id s) sid)) l).
Proof.
  intros sid l. unfold deleteStepRecursive at 1. rewrite filterThenMap_eq.
  apply map_ext. intros []. reflexivity.
Qed.

Lemma deleteStepRecursive_absent : forall sid l,
  ~ In sid (ids l) -> deleteStepRecursive sid l = l.
Proof.
  intros sid.
  induction l as [|s l IHc IHl] using forest_ind; [reflexivity|].
  intros Hn. rewrite in_ids_cons in Hn. rewrite deleteStepRecursive_cons.
  destruct (String.eqb_spec (id s) sid) as [E|E]; [exfalso; auto|].
  rewrite IHc, IHl by tauto. now rewrite setChildren_same.
Qed.

Lemma findIndex_absent : forall sid l,
  ~ In sid (map id l) -> findIndex sid l = None.
Proof.
  induction l as [|s l IH]; simpl; [reflexivity|].
  intros Hn. destruct (String.eqb_spec (id s) sid); [tauto|].
  rewrite IH; tauto.
Qed.

Lemma in_root_ids : forall x l, In x (map id l) -> In x (ids l).
Proof.
  intros x l Hin. rewrite in_map_iff in Hin. destruct Hin as (s & <- & Hs).
  apply in_flatten_ids. now apply in_flatten_root.
Qed.

Lemma reorderList_absent : forall sid newIndex l,
  ~ In sid (ids l) -> reorderList l sid newIndex = None.
Proof.
  intros sid newIndex l Hn. unfold reorderList.
  rewrite findIndex_absent; [reflexivity|]. intro Hin. apply Hn. now apply in_root_ids.
Qed.

Lemma reorderWithinParent_source_absent : forall sid newIndex pid l,
  ~ In sid (ids l) -> map (reorderWithinParentAt sid newIndex pid) l = l.
Proof.
  intros sid newIndex pid.
  induction l as [|s l IHc IHl] using forest_ind; [reflexivity|].
  intros Hn. rewrite in_ids_cons in Hn. simpl.
  rewrite IHl by tauto. f_equal.
  rewrite reorderWithinParentAt_skeleton, rewriteAt_eq.
  destruct (String.eqb (id s) pid).
  - unfold reorderChildren. rewrite reorderList_absent; tauto.
  - rewrite <- (map_ext _ _ (reorderWithinParentAt_skeleton sid newIndex pid)).
    rewrite IHc by tauto. apply setChildren_same.
Qed.

Lemma reorderStepsAtSameLevel_source_absent : forall sid newIndex pid l,
  ~ In sid (ids l) -> reorderStepsAtSameLevel l sid newIndex pid = l.
Proof.
  intros sid newIndex pid l Hn. unfold reorderStepsAtSameLevel.
  rewrite reorderList_absent by assumption.
  destruct pid; [|reflexivity].
  destruct (truthy _); [|reflexivity].
  now apply reorderWithinParent_source_absent.
Qed.

Lemma truthy_some : forall s, s <> EmptyString -> truthy (Some s) = true.
Proof. intros s Hs. simpl. destruct (String.eqb_spec s EmptyString); [contradiction|reflexivity]. Qed.

Section AbsentIdentifier.

Variables (goal : Goal) (sid : string) (now : Z).
Hypothesis Habsent : ~ In sid (ids (steps goal)).

Lemma addStep_absent : forall step,
  sid <> EmptyString -> addStep now goal step (Some sid) = touch goal now.
Proof.
  intros step Hne. unfold addStep. rewrite truthy_some by assumption.
  unfold addStepRecursive. simpl steps.
  rewrite (map_ext _ _ (addStepAt_skeleton step sid)).
  now rewrite rewriteAt_absent.
Qed.

Lemma updateStep_absent : forall u, id u = sid -> updateStep now goal u = touch goal now.
Proof.
  intros u <-. unfold updateStep, updateStepRecursive. simpl steps.
  rewrite (map_ext _ _ (updateStepAt_skeleton u)).
  now rewrite rewriteAt_absent.
Qed.

Lemma deleteStep_absent : deleteStep now goal sid = touch goal now.
Proof.
  unfold deleteStep. simpl steps. now rewrite deleteStepRecursive_absent.
Qed.

Lemma toggleStepCompletion_absent : toggleStepCompletion now goal sid = touch goal now.
Proof.
  unfold toggleStepCompletion, toggleCompletionRecursive. simpl steps.
  rewrite (map_ext _ _ (toggleCompletionAt_skeleton sid)).
  now rewrite rewriteAt_absent.
Qed.

Lemma reorderStep_source_absent : forall newIndex pid,
  reorderStep now goal sid newIndex pid = touch goal now.
Proof.
  intros. unfold reorderStep. simpl steps.
  now rewrite reorderStepsAtSameLevel_source_absent.
Qed.

Lemma reorderStep_parent_absent : forall src newIndex,
  sid <> EmptyString -> reorderStep now goal src newIndex (Some sid) = touch goal now.
Proof.
  intros src newIndex Hne. unfold reorderStep, reorderStepsAtSameLevel.
  rewrite truthy_some by assumption. simpl steps.
  rewrite (map_ext _ _ (reorderWithinParentAt_skeleton src newIndex sid)).
  now rewrite rewriteAt_absent.
Qed.

Lemma duplicateStep_absent : forall gen k, duplicateStep gen k now goal sid = (goal, k).
Proof.
  intros. unfold duplicateStep, findStep.
  now rewrite findStepRecursive_none.
Qed.

Lemma moveStepToParent_absent : forall fuel np,
  moveStepToParent fuel now goal sid np = Some goal.
Proof.
  intros. unfold moveStepToParent, findStep.
  now rewrite findStepRecursive_none.
Qed.

End AbsentIdentifier.

(* ================================================================== *)
(** ** C3: mutations aimed at an absent identifier *)

(** C3, as stated, fails: [deleteStep] on an identifier that is not in
    the tree returns a goal whose [updatedAt] is the current time, which
    is not deep-equal to the input. *)
Lemma C3_absent_delete_changes_updatedAt :
  ~ In "zz"%string (ids (steps chainGoal)) /\
  deleteStep 7 chainGoal "zz" <> chainGoal.
Proof.
  split.
  - vm_compute. intuition discriminate.
  - intro H. apply (f_equal updatedAt) in H. vm_compute in H. discriminate.
Qed.

(** C3 (amended): for every goal and every identifier that is not in the
    goal's tree, each mutation aimed at it leaves the step tree as it was.
    DuplicateSubtree and MoveToParent return the input goal itself;
    Update, Delete, ToggleCompletion and ReorderSiblings (with that
    stepId), and Insert and ReorderSiblings with that identifier as a
    non-empty parentId, return the input goal with [updatedAt] set to the
    current time and nothing else changed. *)
Theorem C3_absent_identifier_keeps_tree :
  forall (goal : Goal) (sid : string) (now : Z),
    ~ In sid (ids (steps goal)) ->
    (forall step, sid <> EmptyString -> addStep now goal step (Some sid) = touch goal now) /\
    (forall u, id u = sid -> updateStep now goal u = touch goal now) /\
    deleteStep now goal sid = touch goal now /\
    toggleStepCompletion now goal sid = touch goal now /\
    (forall newIndex pid, reorderStep now goal sid newIndex pid = touch goal now) /\
    (forall src newIndex,
        sid <> EmptyString -> reorderStep now goal src newIndex (Some sid) = touch goal now) /\
    (forall gen k, duplicateStep gen k now goal sid = (goal, k)) /\
    (forall fuel np, moveStepToParent fuel now goal sid np = Some goal).
Proof.
  intros goal sid now Habsent.
  repeat split; intros.
  - now apply addStep_absent.
  - now apply updateStep_absent with (sid := sid).
  - now apply deleteStep_absent.
  - now apply toggleStepCompletion_absent.
  - now apply reorderStep_source_absent.
  - now apply reorderStep_parent_absent.
  - now apply duplicateStep_absent.
  - now apply moveStepToParent_absent.
Qed.

Lemma C3_absent_identifier_witness :
  ~ In "zz"%string (ids (steps chainGoal)) /\
  deleteStep 7 chainGoal "zz" = touch chainGoal 7.
Proof.
  assert (Ha : ~ In "zz"%string (ids (steps chainGoal))).
  { vm_compute. intuition discriminate. }
  split; [exact Ha|].
  exact (proj1 (proj2 (proj2 (C3_absent_identifier_keeps_tree chainGoal "zz" 7 Ha)))).
Defined.

(* ================================================================== *)
(** ** Delete *)

Lemma memId_In : forall x l, memId x l = true <-> In x l.
Proof.
  intros. unfold memId. rewrite existsb_exists. split.
  - intros (y & Hy & E). apply String.eqb_eq in E. now subst.
  - intros H. exists x. split; [assumption|apply String.eqb_refl].
Qed.

Lemma memId_false : forall x l, memId x l = false <-> ~ In x l.
Proof.
  intros. rewrite <- memId_In. destruct (memId x l); intuition congruence.
Qed.

Lemma deleteStepRecursive_removes : forall sid l, ~ In sid (ids (deleteStepRecursive sid l)).
Proof.
  intros sid.
  induction l as [|s l IHc IHl] using forest_ind; [intros []|].
  rewrite deleteStepRecursive_cons.
  destruct (String.eqb_spec (id s) sid) as [E|E]; [assumption|].
  rewrite in_ids_cons. simpl. intros [H|[H|H]]; auto.
Qed.

Lemma filter_all : forall (A : Type) (p : A -> bool) l,
  (forall x, In x l -> p x = true) -> filter p l = l.
Proof.
  induction l as [|a l IH]; simpl; intros H; [reflexivity|].
  rewrite (H a) by auto. f_equal. auto.
Qed.

Lemma filter_none : forall (A : Type) (p : A -> bool) l,
  (forall x, In x l -> p x = false) -> filter p l = [].
Proof.
  induction l as [|a l IH]; simpl; intros H; [reflexivity|].
  rewrite (H a) by auto. auto.
Qed.

Lemma findStepRecursive_subtree : forall l sid X,
  findStepRecursive l sid = Some X -> forall x, In x (ids [X]) -> In x (ids l).
Proof.
  intros l sid X Hf x Hx. apply findStepRecursive_some in Hf. destruct Hf as [Hin _].
  rewrite ids_single in Hx. destruct Hx as [<-|Hx].
  - now apply in_flatten_ids.
  - eapply in_ids_child; eauto.
Qed.

(** The steps that survive [deleteStepRecursive], in pre-order, against
    the steps of the input that lie outside the subtree of the target. *)
Lemma deleteStepRecursive_survivors : forall l sid X,
  uniqueIds l ->
  findStepRecursive l sid = Some X ->
  map scalars (flatten (deleteStepRecursive sid l)) =
  map scalars (filter (fun s => negb (memId (id s) (ids [X]))) (flatten l)).
Proof.
  intros l sid X. set (keep := fun s => negb (memId (id s) (ids [X]))).
  assert (Hkeep : forall l', (forall x, In x (ids [X]) -> ~ In x (ids l')) ->
                             filter keep (flatten l') = flatten l').
  { intros l' Hd. apply filter_all. intros x Hx. unfold keep.
    apply negb_true_iff, memId_false. intro Hin. apply (Hd _ Hin).
    now apply in_flatten_ids. }
  induction l as [|s l IHc IHl] using forest_ind; [discriminate|].
  intros Hu Hf. pose proof (uniqueIds_cons _ _ Hu) as (Hsc & Hsl & Huc & Hul & Hdisj).
  rewrite findStepRecursive_cons in Hf. rewrite deleteStepRecursive_cons.
  rewrite flatten_cons. simpl filter. rewrite filter_app.
  destruct (String.eqb_spec (id s) sid) as [E|E].
  - injection Hf as <-.
    replace (keep s) with false.
    2:{ unfold keep. symmetry. apply negb_false_iff, memId_In. rewrite ids_single. now left. }
    rewrite (filter_none _ keep (flatten (children s))).
    2:{ intros x Hx. unfold keep. apply negb_false_iff, memId_In.
        rewrite ids_single. right. now apply in_flatten_ids. }
    rewrite deleteStepRecursive_absent by (rewrite <- E; assumption).
    simpl. rewrite (Hkeep l); [reflexivity|].
    intros x Hx. rewrite ids_single in Hx. destruct Hx as [<-|Hx]; auto.
  - destruct (findStepRecursive (children s) sid) eqn:Ec.
    + injection Hf as ->.
      pose proof (findStepRecursive_subtree _ _ _ Ec) as Hsub.
      pose proof (findStepRecursive_some _ _ _ Ec) as [HXin HXid].
      replace (keep s) with true.
      2:{ unfold keep. symmetry. apply negb_true_iff, memId_false. intro Hin.
          apply Hsc. now apply Hsub. }
      rewrite (deleteStepRecursive_absent sid l).
      2:{ intro Hin. apply (Hdisj sid); [|assumption].
          rewrite <- HXid. now apply in_flatten_ids. }
      rewrite flatten_cons. simpl. rewrite !map_app. rewrite (IHc Huc eq_refl).
      rewrite (Hkeep l); [reflexivity|]. intros x Hx. apply Hdisj. now apply Hsub.
    + pose proof (findStepRecursive_subtree _ _ _ Hf) as Hsub.
      pose proof (findStepRecursive_some _ _ _ Hf) as [HXin HXid].
      replace (keep s) with true.
      2:{ unfold keep. symmetry. apply negb_true_iff, memId_false. intro Hin.
          apply Hsl. now apply Hsub. }
      rewrite (deleteStepRecursive_absent sid (children s)).
      2:{ intro Hin. apply (Hdisj sid Hin). rewrite <- HXid. now apply in_flatten_ids. }
      rewrite setChildren_same, flatten_cons. simpl. rewrite !map_app.
      rewrite (IHl Hul Hf). rewrite (Hkeep (children s)); [reflexivity|].
      intros x Hx Hc. apply (Hdisj x Hc). now apply Hsub.
Qed.

Lemma deleteStepRecursive_subtree_gone : forall l sid X,
  uniqueIds l ->
  findStepRecursive l sid = Some X ->
  forall x, In x (ids [X]) -> ~ In x (ids (deleteStepRecursive sid l)).
Proof.
  intros l sid X Hu Hf x Hx Hin.
  unfold ids in Hin at 1.
  assert (E : map id (flatten (deleteStepRecursive sid l)) =
              map id (filter (fun s => negb (memId (id s) (ids [X]))) (flatten l))).
  { pose proof (deleteStepRecursive_survivors l sid X Hu Hf) as Hs.
    apply (f_equal (map (fun t : string * string * option string * bool * option string * Z =>
                           fst (fst (fst (fst (fst t))))))) in Hs.
    rewrite !map_map in Hs. exact Hs. }
  rewrite E in Hin. rewrite in_map_iff in Hin. destruct Hin as (s & <- & Hs).
  rewrite filter_In in Hs. destruct Hs as [_ Hk].
  apply negb_true_iff, memId_false in Hk. contradiction.
Qed.

(** The scenario of the specification: in a -> b -> c, deleting b leaves a
    without children. *)
Example deleteStep_scenario :
  steps (deleteStep 7 chainGoal "b") = [ node "a" None 0 []; leaf "d" None 1 ].
Proof. reflexivity. Qed.

(** C7: for a goal whose step identifiers are pairwise distinct (I1) and a
    step X found in it, Delete leaves no identifier of X's subtree in the
    returned goal, and the steps of the returned goal are, in pre-order,
    exactly the steps of the input outside X's subtree, each with the
    fields it had, [order] included: nothing is renumbered. *)
Theorem C7_delete_removes_subtree :
  forall (goal : Goal) (sid : string) (X : Step) (now : Z),
    uniqueIds (steps goal) ->
    findStep goal sid = Some X ->
    (forall x, In x (ids [X]) -> ~ In x (ids (steps (deleteStep now goal sid)))) /\
    map scalars (flatten (steps (deleteStep now goal sid))) =
    map scalars (filter (fun s => negb (memId (id s) (ids [X]))) (flatten (steps goal))).
Proof.
  intros goal sid X now Hu Hf. unfold findStep in Hf. simpl steps. split.
  - now apply deleteStepRecursive_subtree_gone.
  - now apply deleteStepRecursive_survivors.
Qed.

Lemma chainGoal_uniqueIds : uniqueIds (steps chainGoal).
Proof.
  unfold uniqueIds. vm_compute.
  repeat (constructor; [simpl; intuition discriminate|]). constructor.
Defined.

Lemma C7_delete_witness :
  uniqueIds (steps chainGoal) /\
  findStep chainGoal "b" = Some (node "b" (Some "a"%string) 0 [ leaf "c" (Some "b"%string) 0 ]) /\
  (forall x, In x (ids [node "b" (Some "a"%string) 0 [ leaf "c" (Some "b"%string) 0 ]]) ->
             ~ In x (ids (steps (deleteStep 7 chainGoal "b")))).
Proof.
  split; [exact chainGoal_uniqueIds|]. split; [reflexivity|].
  exact (proj1 (C7_delete_removes_subtree chainGoal "b" _ 7 chainGoal_uniqueIds eq_refl)).
Defined.

(* ================================================================== *)
(** ** MoveToParent *)

Lemma removeStepFromParentAt_eq : forall sid s,
  removeStepFromParentAt sid s = setChildren s (removeStepFromParent (children s) sid).
Proof.
  intros sid [i t d c p cs o]. unfold removeStepFromParent. simpl.
  destruct (existsb (hasId sid) cs); reflexivity.
Qed.

Lemma existsb_hasId_In : forall sid l, existsb (hasId sid) l = true -> In sid (ids l).
Proof.
  intros sid l H. apply existsb_exists in H. destruct H as (s & Hs & E).
  unfold hasId in E. apply String.eqb_eq in E. subst.
  apply in_flatten_ids. now apply in_flatten_root.
Qed.

Lemma filter_lacksId_delete : forall sid l,
  (forall s, In s l -> ~ In sid (ids (children s))) ->
  filter (lacksId sid) l = deleteStepRecursive sid l.
Proof.
  intros sid. induction l as [|s l IH]; [reflexivity|].
  intros H. rewrite deleteStepRecursive_cons. simpl. unfold lacksId at 1.
  destruct (String.eqb (id s) sid); simpl.
  - apply IH. intros; apply H; simpl; auto.
  - rewrite deleteStepRecursive_absent by (apply H; simpl; auto).
    rewrite setChildren_same. f_equal. apply IH. intros; apply H; simpl; auto.
Qed.

Lemma uniqueIds_root_hit : forall l sid,
  uniqueIds l -> existsb (hasId sid) l = true ->
  forall s, In s l -> ~ In sid (ids (children s)).
Proof.
  induction l as [|r l IH]; [discriminate|].
  intros sid Hu Hex s Hs. apply uniqueIds_cons in Hu.
  destruct Hu as (Hrc & Hrl & Huc & Hul & Hdisj).
  simpl in Hex. apply orb_true_iff in Hex. destruct Hex as [Hex|Hex].
  - unfold hasId in Hex. apply String.eqb_eq in Hex. subst sid.
    destruct Hs as [->|Hs]; [assumption|].
    intro Hin. apply Hrl. eapply in_ids_child; [|exact Hin]. now apply in_flatten_root.
  - destruct Hs as [->|Hs]; [|now apply IH].
    intro Hin. apply (Hdisj sid Hin). now apply existsb_hasId_In.
Qed.

(** Under I1 the detaching step of [moveStepToParent] removes what
    [deleteStep] removes. *)
Lemma removeStepFromParent_delete : forall sid l,
  uniqueIds l -> removeStepFromParent l sid = deleteStepRecursive sid l.
Proof.
  intros sid.
  induction l as [|s l IHc IHl] using forest_ind; [reflexivity|].
  intros Hu. unfold removeStepFromParent.
  destruct (existsb (hasId sid) (s :: l)) eqn:Hex.
  - apply filter_lacksId_delete. now apply uniqueIds_root_hit.
  - pose proof (uniqueIds_cons _ _ Hu) as (Hsc & Hsl & Huc & Hul & Hdisj).
    simpl in Hex. apply orb_false_iff in Hex. destruct Hex as [Hs Hl].
    unfold hasId in Hs. rewrite deleteStepRecursive_cons, Hs. simpl.
    rewrite removeStepFromParentAt_eq, (IHc Huc). f_equal.
    specialize (IHl Hul). unfold removeStepFromParent in IHl.
    now rewrite Hl in IHl.
Qed.

Lemma isDescendant_S : forall fuel goal p x,
  isDescendant (S fuel) goal p x =
  match findStep goal p with
  | None => Some false
  | Some parent => descendantLoop (fun c => isDescendant fuel goal c x) x (children parent)
  end.
Proof.
  intros. simpl. destruct (findStep goal p) as [parent|]; [|reflexivity].
  induction (children parent) as [|c cs IH]; simpl; [reflexivity|].
  destruct (String.eqb (id c) x); [reflexivity|].
  destruct (isDescendant fuel goal (id c) x) as [[|]|]; auto.
Qed.

Lemma memId_app : forall x l1 l2, memId x (l1 ++ l2) = memId x l1 || memId x l2.
Proof. intros. unfold memId. apply existsb_app. Qed.

Lemma memId_ids_cons : forall x s l,
  memId x (ids (s :: l)) =
  String.eqb (id s) x || memId x (ids (children s)) || memId x (ids l).
Proof.
  intros. rewrite ids_cons. unfold memId at 1. simpl. fold (memId x (ids (children s) ++ ids l)).
  rewrite memId_app, (String.eqb_sym x). now rewrite orb_assoc.
Qed.

Lemma flatten_length_root : forall c l,
  In c l -> (List.length (flatten [c]) <= List.length (flatten l))%nat.
Proof.
  induction l as [|s l IH]; [intros []|].
  intros [->|Hin].
  - change (c :: l) with ([c] ++ l). rewrite flatten_app, length_app. lia.
  - change (s :: l) with ([s] ++ l). rewrite flatten_app, length_app.
    specialize (IH Hin). lia.
Qed.

(** Under I1 [isDescendant] comes back as soon as the fuel covers the
    subtree of the parent, and says whether the candidate is the id of a
    step below it. *)
Lemma isDescendant_unique : forall goal x,
  uniqueIds (steps goal) ->
  forall fuel P,
    In P (flatten (steps goal)) ->
    (List.length (flatten [P]) <= fuel)%nat ->
    isDescendant fuel goal (id P) x = Some (memId x (ids (children P))).
Proof.
  intros goal x Hu.
  induction fuel as [|fuel IH]; intros P Hin Hsz.
  - rewrite flatten_cons in Hsz. simpl in Hsz. lia.
  - rewrite isDescendant_S. unfold findStep. rewrite (uniqueIds_find _ _ Hu Hin).
    assert (Hloop : forall cs,
      (forall c, In c cs -> In c (flatten (steps goal)) /\
                            (List.length (flatten [c]) <= fuel)%nat) ->
      descendantLoop (fun c => isDescendant fuel goal c x) x cs = Some (memId x (ids cs))).
    { induction cs as [|c cs IHcs]; intros Hcs; [reflexivity|].
      simpl. rewrite memId_ids_cons.
      destruct (String.eqb (id c) x); [reflexivity|].
      destruct (Hcs c (or_introl eq_refl)) as [Hc1 Hc2].
      rewrite (IH c Hc1 Hc2). simpl.
      destruct (memId x (ids (children c))); [reflexivity|].
      apply IHcs. intros c' Hc'. apply Hcs. now right. }
    apply Hloop. intros c Hc. split.
    + eapply in_flatten_child; [exact Hin|]. now apply in_flatten_root.
    + pose proof (flatten_length_root c (children P) Hc) as Hle.
      rewrite (flatten_cons P []) in Hsz. simpl in Hsz. rewrite length_app in Hsz.
      simpl in Hsz. lia.
Qed.

Lemma flatten_length_cons : forall s l,
  List.length (flatten (s :: l)) =
  S (List.length (flatten (children s)) + List.length (flatten l)).
Proof. intros. rewrite flatten_cons. simpl. now rewrite length_app. Qed.

Lemma flatten_length_in : forall l P,
  In P (flatten l) -> (List.length (flatten [P]) <= List.length (flatten l))%nat.
Proof.
  induction l as [|s l IHc IHl] using forest_ind; [intros P []|].
  intros P Hin. rewrite in_flatten_cons in Hin.
  rewrite (flatten_length_cons s l).
  destruct Hin as [->|[Hin|Hin]].
  - rewrite flatten_length_cons. simpl. lia.
  - specialize (IHc P Hin). lia.
  - specialize (IHl P Hin). lia.
Qed.

(** X4: the descendant half of I4: under I1 a move of A below one of its
    own descendants is rejected and the goal comes back as it was. *)
Lemma moveStepToParent_rejects_descendant :
  forall (goal : Goal) (A : Step) (target : string) (now : Z) (fuel : nat),
    uniqueIds (steps goal) ->
    In A (flatten (steps goal)) ->
    In target (ids (children A)) ->
    target <> EmptyString ->
    (List.length (flatten (steps goal)) <= fuel)%nat ->
    moveStepToParent fuel now goal (id A) (Some target) = Some goal.
Proof.
  intros goal A target now fuel Hu HA Ht Hne Hfuel.
  unfold moveStepToParent, findStep. rewrite (uniqueIds_find _ _ Hu HA).
  rewrite truthy_some by assumption.
  rewrite (isDescendant_unique goal target Hu fuel A HA).
  - apply memId_In in Ht. now rewrite Ht.
  - pose proof (flatten_length_in _ _ HA). lia.
Qed.

(** The scenario of the specification: in a -> b -> c, moving a below c is
    rejected. *)
Example moveStepToParent_scenario :
  moveStepToParent 4 7 chainGoal "a" (Some "c"%string) = Some chainGoal.
Proof. reflexivity. Qed.

(** A move below a parent that is not in the tree is not a no-op either:
    the step is detached and never attached again. *)
Example moveStepToParent_missing_parent :
  option_map (fun g => ids (steps g)) (moveStepToParent 4 7 chainGoal "d" (Some "zz"%string))
  = Some [ "a"; "b"; "c" ]%string.
Proof. reflexivity. Qed.

(** C1 (evaluation at the failing input): a move of a step below itself is
    not rejected. [isDescendant] looks only at the steps below the moved
    one, so the move goes on: the step is detached, its id is then no
    longer in the tree and it is never attached again. The goal that
    comes back has lost a and its subtree and has a new [updatedAt]. *)
Theorem C1_self_move_not_rejected :
  moveStepToParent 4 7 chainGoal "a" (Some "a"%string)
    = Some (mkGoal "g"%string "goal"%string None 0 7 [ leaf "d" None 1 ] 0) /\
  moveStepToParent 4 7 chainGoal "a" (Some "a"%string) <> Some chainGoal.
Proof.
  split; [reflexivity|]. intro H. vm_compute in H. discriminate.
Qed.

(** C10, as stated, fails: that the id of S names none of the descendants
    of S is not enough. When another step of the tree carries the id of S
    (roots a and p, p with a child that is also named a), the root a is
    taken out of the root list and attached again below the other a, so
    it is still in the goal that comes back. When the id of S is the
    empty string, the new parent counts as none and S is moved to the end
    of the root list. *)
Lemma C10_self_move_keeps_step :
  (let goal := goalOf [ leaf "a" None 0; node "p" None 1 [ leaf "a" (Some "p"%string) 0 ] ] in
   let S := leaf "a" None 0 in
   In S (flatten (steps goal)) /\
   ~ In (id S) (ids (children S)) /\
   moveStepToParent 4 7 goal (id S) (Some (id S))
   = Some (mkGoal "g" "goal" None 0 7
             [ node "p" None 1
                 [ mkStep "a" "a" None false (Some "p"%string)
                          [ leaf "a" (Some "a"%string) 1 ] 0 ] ] 0)%string) /\
  (let goal := goalOf [ leaf "" None 0; leaf "d" None 1 ] in
   let S := leaf "" None 0 in
   In S (flatten (steps goal)) /\
   ~ In (id S) (ids (children S)) /\
   forall fuel,
     moveStepToParent fuel 7 goal (id S) (Some (id S))
     = Some (mkGoal "g" "goal" None 0 7 [ leaf "d" None 1; leaf "" (Some ""%string) 2 ] 0)%string).
Proof.
  split.
  - split; [left; reflexivity|]. split; [intros []|reflexivity].
  - split; [left; reflexivity|]. split; [intros []|]. intros fuel. reflexivity.
Qed.

(** C10 (amended): for a goal whose step identifiers are pairwise distinct
    (I1, so that the id of S names no other step) and a step S of it with
    a non-empty id, moving S below itself is carried out as a deletion:
    with fuel for the size of the tree the call returns the goal that
    [deleteStep] returns, and no identifier of S's subtree is left in
    it. *)
Theorem C10_self_move_discards_step :
  forall (goal : Goal) (S : Step) (now : Z) (fuel : nat),
    uniqueIds (steps goal) ->
    In S (flatten (steps goal)) ->
    id S <> EmptyString ->
    (List.length (flatten (steps goal)) <= fuel)%nat ->
    moveStepToParent fuel now goal (id S) (Some (id S)) = Some (deleteStep now goal (id S)) /\
    (forall x, In x (ids [S]) -> ~ In x (ids (steps (deleteStep now goal (id S))))).
Proof.
  intros goal S now fuel Hu HS Hne Hfuel.
  pose proof (uniqueIds_find _ _ Hu HS) as Hfind.
  destruct (uniqueIds_child _ _ Hu HS) as [_ Hself].
  split.
  - unfold moveStepToParent, findStep. rewrite Hfind.
    rewrite truthy_some by assumption.
    rewrite (isDescendant_unique goal (id S) Hu fuel S HS).
    2:{ pose proof (flatten_length_in _ _ HS). lia. }
    apply memId_false in Hself. rewrite Hself.
    unfold addStepToNewParent. simpl steps.
    rewrite (removeStepFromParent_delete _ _ Hu).
    rewrite (map_ext _ _ (addStepToNewParentAt_skeleton _ (id S))).
    rewrite rewriteAt_absent by apply deleteStepRecursive_removes.
    reflexivity.
  - simpl steps. now apply deleteStepRecursive_subtree_gone.
Qed.

Lemma C10_self_move_witness :
  uniqueIds (steps chainGoal) /\
  moveStepToParent 4 7 chainGoal "b" (Some "b"%string) = Some (deleteStep 7 chainGoal "b").
Proof.
  split; [exact chainGoal_uniqueIds|].
  refine (proj1 (C10_self_move_discards_step chainGoal
                   (node "b" (Some "a"%string) 0 [ leaf "c" (Some "b"%string) 0 ])
                   7 4%nat chainGoal_uniqueIds _ _ _)).
  - vm_compute. auto.
  - discriminate.
  - vm_compute. lia.
Defined.

(* ================================================================== *)
(** ** Where the target sits in [s :: l] under I1 *)

Lemma locate : forall sid X s l,
  uniqueIds (s :: l) -> findStepRecursive (s :: l) sid = Some X -> Located sid X s l.
Proof.
  intros sid X s l Hu Hf.
  pose proof (uniqueIds_cons _ _ Hu) as (Hsc & Hsl & Huc & Hul & Hdisj).
  rewrite findStepRecursive_cons in Hf.
  destruct (String.eqb_spec (id s) sid) as [E|E].
  - injection Hf as <-. apply AtHead; try congruence.
    intros x Hx. rewrite ids_single in Hx. destruct Hx as [<-|Hx]; auto.
  - destruct (findStepRecursive (children s) sid) eqn:Ec.
    + injection Hf as ->.
      pose proof (findStepRecursive_subtree _ _ _ Ec) as Hsub.
      pose proof (findStepRecursive_some _ _ _ Ec) as [HXin HXid].
      apply BelowHead; auto.
      intro Hin. apply (Hdisj sid); [|assumption].
      rewrite <- HXid. now apply in_flatten_ids.
    + pose proof (findStepRecursive_subtree _ _ _ Hf) as Hsub.
      pose proof (findStepRecursive_some _ _ _ Hf) as [HXin HXid].
      apply InTail; auto.
      * apply findStepRecursive_in_none. assumption.
      * intros x Hx Hc. apply (Hdisj x Hc). now apply Hsub.
Qed.

(* ================================================================== *)
(** ** Update *)

Lemma retitle_eq : forall sid t d s,
  retitle sid t d s =
  mkStep (id s)
         (if String.eqb (id s) sid then t else title s)
         (if String.eqb (id s) sid then d else description s)
         (completed s) (parentId s) (map (retitle sid t d) (children s)) (order s).
Proof. intros sid t d []; reflexivity. Qed.

Lemma retitle_absent : forall sid t d l,
  ~ In sid (ids l) -> map (retitle sid t d) l = l.
Proof.
  intros sid t d.
  induction l as [|s l IHc IHl] using forest_ind; [reflexivity|].
  intros Hn. rewrite in_ids_cons in Hn. simpl. rewrite retitle_eq.
  destruct (String.eqb_spec (id s) sid) as [E|E]; [exfalso; auto|].
  rewrite IHc, IHl by tauto. destruct s; reflexivity.
Qed.

Lemma updateStepRecursive_retitle : forall sid t d X l,
  uniqueIds l ->
  findStepRecursive l sid = Some X ->
  updateStepRecursive
    (mkStep (id X) t d (completed X) (parentId X) (children X) (order X)) l
  = map (retitle sid t d) l.
Proof.
  intros sid t d X. set (u := mkStep (id X) t d (completed X) (parentId X) (children X) (order X)).
  unfold updateStepRecursive.
  induction l as [|s l IHc IHl] using forest_ind; [reflexivity|].
  intros Hu Hf.
  assert (HidX : id X = sid) by (apply findStepRecursive_some in Hf; tauto).
  pose proof (uniqueIds_cons _ _ Hu) as (_ & _ & Huc & Hul & _).
  simpl. rewrite (updateStepAt_skeleton u s), rewriteAt_eq, retitle_eq.
  rewrite <- (map_ext _ _ (updateStepAt_skeleton u)).
  change (id u) with (id X). rewrite HidX.
  destruct (locate _ _ _ _ Hu Hf) as [E EX Hc Hl _|E Hfc Hl _ _|E Hfl Hc _ _].
  - subst X. clear HidX. subst sid. rewrite String.eqb_refl.
    rewrite (map_ext _ _ (updateStepAt_skeleton u)).
    change (id u) with (id s).
    rewrite rewriteAt_absent, !retitle_absent by assumption.
    reflexivity.
  - apply String.eqb_neq in E. rewrite E.
    rewrite (IHc Huc Hfc).
    rewrite (map_ext _ _ (updateStepAt_skeleton u)).
    change (id u) with (id X). rewrite HidX.
    rewrite rewriteAt_absent, (retitle_absent sid t d l) by assumption.
    reflexivity.
  - apply String.eqb_neq in E. rewrite E.
    rewrite (IHl Hul Hfl).
    rewrite (map_ext _ _ (updateStepAt_skeleton u)).
    change (id u) with (id X). rewrite HidX.
    rewrite rewriteAt_absent, (retitle_absent sid t d (children s)) by assumption.
    reflexivity.
Qed.

Lemma retitle_find : forall sid t d X l,
  uniqueIds l ->
  findStepRecursive l sid = Some X ->
  findStepRecursive (map (retitle sid t d) l) sid =
  Some (mkStep (id X) t d (completed X) (parentId X) (children X) (order X)).
Proof.
  intros sid t d X.
  induction l as [|s l IHc IHl] using forest_ind; [discriminate|].
  intros Hu Hf.
  pose proof (uniqueIds_cons _ _ Hu) as (_ & _ & Huc & Hul & _).
  simpl map. rewrite findStepRecursive_cons, retitle_eq. simpl id. simpl children.
  destruct (locate _ _ _ _ Hu Hf) as [E EX Hc Hl _|E Hfc Hl _ _|E Hfl Hc _ _].
  - subst X. rewrite E, String.eqb_refl.
    now rewrite retitle_absent by assumption.
  - apply String.eqb_neq in E. rewrite E. now rewrite (IHc Huc Hfc).
  - apply String.eqb_neq in E. rewrite E.
    rewrite retitle_absent by assumption.
    rewrite findStepRecursive_none by assumption. now apply IHl.
Qed.

(** C8, as stated, fails where the step is not found: the call is not a
    no-op. [stepHelpers.updateStep] with a step whose id is not in the
    tree returns a goal with a new [updatedAt], and the provider's
    [updateStep] throws [Step not found], which its [catch] turns into the
    error message of the provider. *)
Lemma C8_absent_update_is_not_a_noop :
  findStep chainGoal "zz" = None /\
  updatedAt chainGoal = 0 /\
  updatedAt (updateStep 7 chainGoal (leaf "zz" None 0)) = 7 /\
  updateStep 7 chainGoal (leaf "zz" None 0) <> chainGoal /\
  error (ctxUpdateStep 7 true (mkProvider [ chainGoal ] None) "g" "zz" "t" None)
    = Some "Failed to update step. Please try again later."%string /\
  ctxUpdateStep 7 true (mkProvider [ chainGoal ] None) "g" "zz" "t" None
    <> mkProvider [ chainGoal ] None.
Proof.
  split; [reflexivity|]. split; [reflexivity|]. split; [reflexivity|].
  split; [intro H; vm_compute in H; discriminate|].
  split; [reflexivity|]. intro H. vm_compute in H. discriminate.
Qed.

(** C8 (amended): for a goal whose step identifiers are pairwise distinct
    (I1), Update of a step X that [findStep] finds returns a goal whose
    step tree is the one given with the new title and description on the
    step named [stepId] and every other field of every step - [children],
    [order], [completed], [parentId] of the target included - as it was
    ([retitle]); [findStep] then returns X with the new title and
    description; [updatedAt] is the current time and every other field of
    the goal is kept; and the provider, when the store accepts, puts that
    goal in the place of the old one. If the step is not found, the
    provider's [updateStep] stops with [Step not found]: its goals are
    left as they were and its error message is set, whatever the store
    would answer; [stepHelpers.updateStep] itself then leaves the step
    tree as it was but sets [updatedAt]. *)
Theorem C8_update_replaces_title_and_description :
  forall (goal : Goal) (sid newTitle : string) (newDescription : option string) (now : Z),
    uniqueIds (steps goal) ->
    (forall X, findStep goal sid = Some X ->
       exists goal',
         updateStepInGoal now goal sid newTitle newDescription = Some goal' /\
         steps goal' = map (retitle sid newTitle newDescription) (steps goal) /\
         findStep goal' sid =
           Some (mkStep (id X) newTitle newDescription (completed X) (parentId X)
                        (children X) (order X)) /\
         updatedAt goal' = now /\
         keepsGoalFields goal goal' /\
         (forall st gid,
            findGoal (goals st) gid = Some goal ->
            ctxUpdateStep now true st gid sid newTitle newDescription
            = mkProvider (replaceGoal (goals st) gid goal') (error st))) /\
    (findStep goal sid = None ->
       updateStepInGoal now goal sid newTitle newDescription = None /\
       (forall stored st gid,
          findGoal (goals st) gid = Some goal ->
          ctxUpdateStep now stored st gid sid newTitle newDescription
          = mkProvider (goals st)
                       (Some "Failed to update step. Please try again later."%string)) /\
       (forall u, id u = sid ->
          steps (updateStep now goal u) = steps goal /\
          updatedAt (updateStep now goal u) = now /\
          keepsGoalFields goal (updateStep now goal u))).
Proof.
  intros goal sid newTitle newDescription now Hu. split.
  - intros X Hf.
    assert (Hrun : updateStepInGoal now goal sid newTitle newDescription =
                   Some (setSteps (touch goal now)
                           (map (retitle sid newTitle newDescription) (steps goal)))).
    { unfold updateStepInGoal. rewrite Hf. unfold updateStep. simpl steps.
      unfold findStep in Hf.
      now rewrite (updateStepRecursive_retitle sid newTitle newDescription X _ Hu Hf). }
    eexists. split; [exact Hrun|]. split; [reflexivity|].
    split; [unfold findStep; simpl steps; now apply retitle_find|].
    split; [reflexivity|]. split; [repeat split|].
    intros st gid Hg. unfold ctxUpdateStep. now rewrite Hg, Hrun.
  - intros Hf. unfold updateStepInGoal. rewrite Hf. split; [reflexivity|]. split.
    + intros stored st gid Hg. unfold ctxUpdateStep, updateStepInGoal. rewrite Hg, Hf.
      reflexivity.
    + intros u Hid. apply findStepRecursive_in_none in Hf.
      rewrite (updateStep_absent goal sid now Hf u Hid).
      split; [reflexivity|]. split; [reflexivity|]. repeat split.
Qed.

Lemma C8_update_witness :
  uniqueIds (steps chainGoal) /\
  exists goal',
    updateStepInGoal 7 chainGoal "b" "B2" None = Some goal' /\
    findStep goal' "b" =
      Some (mkStep "b" "B2" None false (Some "a"%string) [ leaf "c" (Some "b"%string) 0 ] 0).
Proof.
  split; [exact chainGoal_uniqueIds|].
  destruct (proj1 (C8_update_replaces_title_and_description chainGoal "b" "B2" None 7
                     chainGoal_uniqueIds) _ eq_refl)
    as (goal' & Hrun & _ & Hfind & _).
  exists goal'. split; [exact Hrun|exact Hfind].
Defined.

(* ================================================================== *)
(** ** ToggleCompletion *)

Lemma setCompletion_eq : forall D b s,
  setCompletion D b s =
  mkStep (id s) (title s) (description s)
         (if memId (id s) D then b else completed s) (parentId s)
         (map (setCompletion D b) (children s)) (order s).
Proof. intros D b []; reflexivity. Qed.

Lemma toggleCompletionForceAt_eq : forall b s,
  toggleCompletionForceAt b s =
  mkStep (id s) (title s) (description s) b (parentId s)
         (map (toggleCompletionForceAt b) (children s)) (order s).
Proof. intros b []; reflexivity. Qed.

Lemma setCompletion_outside : forall D b l,
  (forall x, In x D -> ~ In x (ids l)) -> map (setCompletion D b) l = l.
Proof.
  intros D b.
  induction l as [|s l IHc IHl] using forest_ind; [reflexivity|].
  intros Hd. simpl. rewrite setCompletion_eq.
  assert (Hs : memId (id s) D = false).
  { apply memId_false. intro Hin. apply (Hd _ Hin). rewrite in_ids_cons. auto. }
  rewrite Hs, IHc, IHl.
  - destruct s; reflexivity.
  - intros x Hx Hin. apply (Hd x Hx). rewrite in_ids_cons. auto.
  - intros x Hx Hin. apply (Hd x Hx). rewrite in_ids_cons. auto.
Qed.

Lemma setCompletion_inside : forall D b l,
  (forall x, In x (ids l) -> In x D) ->
  map (setCompletion D b) l = map (toggleCompletionForceAt b) l.
Proof.
  intros D b.
  induction l as [|s l IHc IHl] using forest_ind; [reflexivity|].
  intros Hd. simpl. rewrite setCompletion_eq, toggleCompletionForceAt_eq.
  assert (Hs : memId (id s) D = true).
  { apply memId_In. apply Hd. rewrite in_ids_cons. auto. }
  rewrite Hs, IHc, IHl.
  - reflexivity.
  - intros x Hx. apply Hd. rewrite in_ids_cons. auto.
  - intros x Hx. apply Hd. rewrite in_ids_cons. auto.
Qed.

Lemma toggleCompletionRecursive_setCompletion : forall sid X l,
  uniqueIds l ->
  findStepRecursive l sid = Some X ->
  toggleCompletionRecursive sid l =
  map (setCompletion (ids [X]) (negb (completed X))) l.
Proof.
  intros sid X. unfold toggleCompletionRecursive.
  induction l as [|s l IHc IHl] using forest_ind; [reflexivity|].
  intros Hu Hf.
  pose proof (uniqueIds_cons _ _ Hu) as (_ & _ & Huc & Hul & _).
  simpl. rewrite (toggleCompletionAt_skeleton sid s), rewriteAt_eq, setCompletion_eq.
  rewrite <- (map_ext _ _ (toggleCompletionAt_skeleton sid)).
  destruct (locate _ _ _ _ Hu Hf) as [E EX Hc Hl Hd|E Hfc Hl HsX Hd|E Hfl Hc HsX Hd].
  - subst X. subst sid. rewrite String.eqb_refl.
    rewrite (map_ext _ _ (toggleCompletionAt_skeleton (id s))).
    rewrite rewriteAt_absent by assumption.
    rewrite (setCompletion_outside _ _ l) by assumption.
    rewrite setCompletion_inside.
    2:{ intros x Hx. rewrite ids_single. now right. }
    replace (memId (id s) (ids [s])) with true.
    2:{ symmetry. apply memId_In. rewrite ids_single. now left. }
    reflexivity.
  - apply String.eqb_neq in E. rewrite E.
    apply memId_false in HsX. rewrite HsX.
    rewrite (IHc Huc Hfc).
    rewrite (map_ext _ _ (toggleCompletionAt_skeleton sid)).
    rewrite rewriteAt_absent by assumption.
    rewrite (setCompletion_outside _ _ l) by assumption.
    reflexivity.
  - apply String.eqb_neq in E. rewrite E.
    apply memId_false in HsX. rewrite HsX.
    rewrite (IHl Hul Hfl).
    rewrite (map_ext _ _ (toggleCompletionAt_skeleton sid)).
    rewrite rewriteAt_absent by assumption.
    rewrite (setCompletion_outside _ _ (children s)) by assumption.
    destruct s; reflexivity.
Qed.

Lemma setCompletion_listing : forall D b l,
  map (fun s => (id s, completed s)) (flatten (map (setCompletion D b) l)) =
  map (fun s => (id s, if memId (id s) D then b else completed s)) (flatten l).
Proof.
  intros D b.
  induction l as [|s l IHc IHl] using forest_ind; [reflexivity|].
  simpl map at 2. rewrite !flatten_cons. simpl. rewrite !map_app.
  rewrite setCompletion_eq. simpl. now rewrite IHc, IHl.
Qed.

(** The cascade on the chain a -> b -> c: toggling b completes b and c
    and leaves a and d as they were. *)
Example toggleStepCompletion_scenario :
  map (fun s => (id s, completed s)) (flatten (steps (toggleStepCompletion 7 chainGoal "b")))
  = [("a", false); ("b", true); ("c", true); ("d", false)]%string.
Proof. reflexivity. Qed.

(** C6: for a goal whose step identifiers are pairwise distinct (I1) and a
    step X found in it, ToggleCompletion returns the tree in which X and
    every descendant of X have the completion [not X.completed] and every
    other step - the ancestors of X among them - has the completion it
    had, nothing else being changed ([setCompletion]); listed in
    pre-order, the steps of the result carry exactly those flags. *)
Theorem C6_toggle_cascades_to_descendants_only :
  forall (goal : Goal) (sid : string) (X : Step) (now : Z),
    uniqueIds (steps goal) ->
    findStep goal sid = Some X ->
    steps (toggleStepCompletion now goal sid) =
      map (setCompletion (ids [X]) (negb (completed X))) (steps goal) /\
    map (fun s => (id s, completed s)) (flatten (steps (toggleStepCompletion now goal sid))) =
      map (fun s => (id s, if memId (id s) (ids [X]) then negb (completed X) else completed s))
          (flatten (steps goal)).
Proof.
  intros goal sid X now Hu Hf. unfold findStep in Hf.
  assert (E : steps (toggleStepCompletion now goal sid) =
              map (setCompletion (ids [X]) (negb (completed X))) (steps goal)).
  { simpl steps. now apply toggleCompletionRecursive_setCompletion. }
  split; [exact E|]. rewrite E. apply setCompletion_listing.
Qed.

Lemma C6_toggle_witness :
  uniqueIds (steps chainGoal) /\
  steps (toggleStepCompletion 7 chainGoal "b") =
    map (setCompletion (ids [node "b" (Some "a"%string) 0 [ leaf "c" (Some "b"%string) 0 ]]) true)
        (steps chainGoal).
Proof.
  split; [exact chainGoal_uniqueIds|].
  exact (proj1 (C6_toggle_cascades_to_descendants_only chainGoal "b" _ 7
                  chainGoal_uniqueIds eq_refl)).
Defined.

(* ================================================================== *)
(** ** reorderGoals *)

Lemma spliceStart_in_range : forall len i,
  0 <= i <= Z.of_nat len -> spliceStart len i = Z.to_nat i.
Proof.
  intros len i H. unfold spliceStart.
  destruct (Z.ltb_spec i 0); [lia|]. f_equal. lia.
Qed.





Lemma splice_rest_length : forall (A : Type) (l : list A) k,
  (k < List.length l)%nat ->
  List.length (firstn k l ++ skipn (S k) l) = (List.length l - 1)%nat.
Proof.
  intros A l k Hk. rewrite length_app, length_firstn, length_skipn. lia.
Qed.

Lemma splice_insert_length : forall (A : Type) (l : list A) k x,
  List.length (firstn k l ++ x :: skipn k l) = S (List.length l).
Proof.
  intros A l k x. rewrite length_app. simpl. rewrite length_firstn, length_skipn. lia.
Qed.

(** The scenario of a drag from the first to the last position. *)
Example reorderGoals_scenario :
  option_map (map (fun g => (goalId g, goalOrder g)))
    (reorderGoals [ mkGoal "x" "x" None 0 0 [] 0; mkGoal "y" "y" None 0 0 [] 1;
                    mkGoal "z" "z" None 0 0 [] 2 ]%string 0 2)
  = Some [("y", 0); ("z", 1); ("x", 2)]%string.
Proof. reflexivity. Qed.



(* ================================================================== *)
(** ** C5: parent consistency *)

(** C5 (evaluation at the failing input): duplicating a, which has the
    child b, in a goal that satisfies I3 gives a goal that does not: the
    copy of a is n0, the copy of b sits below n0 and still names a as
    its parent. *)
Theorem C5_duplicate_breaks_parent_consistency :
  parentConsistent (steps chainGoal) = true /\
  parentConsistent (steps (fst (duplicateStep sampleGen 0 7 chainGoal "a"))) = false /\
  (exists copyA copyB,
     In copyA (steps (fst (duplicateStep sampleGen 0 7 chainGoal "a"))) /\
     id copyA = "n0"%string /\
     In copyB (children copyA) /\
     parentId copyB = Some "a"%string).
Proof.
  split; [reflexivity|]. split; [reflexivity|].
  eexists _, _. vm_compute. split; [right; right; left; reflexivity|].
  split; [reflexivity|]. split; [left; reflexivity|reflexivity].
Qed.

(* ================================================================== *)
(** ** Density of sibling sets *)

Lemma dense_ext : forall a b, map order a = map order b -> dense a -> dense b.
Proof.
  unfold dense. intros a b E H.
  assert (L : List.length a = List.length b).
  { apply (f_equal (@List.length Z)) in E. now rewrite !length_map in E. }
  now rewrite <- E, <- L.
Qed.

Lemma dense_nil : dense [].
Proof. unfold dense. simpl. constructor. Qed.

Lemma dense_snoc : forall l x,
  dense l -> order x = Z.of_nat (List.length l) -> dense (l ++ [x]).
Proof.
  unfold dense. intros l x H E.
  rewrite map_app, length_app. simpl. rewrite Nat.add_1_r, seq_S, map_app. simpl.
  rewrite E. now apply Permutation_app_tail.
Qed.

Lemma innerDense_cons : forall s l,
  innerDense (s :: l) <-> dense (children s) /\ innerDense (children s) /\ innerDense l.
Proof.
  unfold innerDense. intros s l. split.
  - intros H. repeat split; intros; apply H; rewrite in_flatten_cons; auto.
  - intros (H1 & H2 & H3) x Hx. rewrite in_flatten_cons in Hx.
    destruct Hx as [->|[Hx|Hx]]; auto.
Qed.

Lemma innerDense_nil : innerDense [].
Proof. intros s []. Qed.

Lemma innerDense_app : forall l1 l2, innerDense (l1 ++ l2) <-> innerDense l1 /\ innerDense l2.
Proof.
  unfold innerDense. intros. split.
  - intros H. split; intros s Hs; apply H; rewrite flatten_app, in_app_iff; auto.
  - intros [H1 H2] s Hs. rewrite flatten_app, in_app_iff in Hs. destruct Hs; auto.
Qed.

Lemma allDense_split : forall l, allDense l <-> dense l /\ innerDense l.
Proof.
  unfold allDense, innerDense, siblingSet. intros l. split.
  - intros H. split; [apply H; now left|]. intros s Hs. apply H. right. eauto.
  - intros [H1 H2] sibs [->|(s & Hs & <-)]; auto.
Qed.

Lemma dense_orders_in_range : forall l x,
  dense l -> In x (map order l) -> 0 <= x < Z.of_nat (List.length l).
Proof.
  unfold dense. intros l x H Hx.
  apply (Permutation_in _ H) in Hx. rewrite in_map_iff in Hx.
  destruct Hx as (n & <- & Hn). rewrite in_seq in Hn. lia.
Qed.

Lemma dense_has_last : forall l,
  dense l -> l <> [] -> In (Z.of_nat (List.length l) - 1) (map order l).
Proof.
  unfold dense. intros l H Hne.
  apply (Permutation_in _ (Permutation_sym H)).
  rewrite in_map_iff. exists (List.length l - 1)%nat.
  destruct l; [contradiction|]. simpl List.length. split; [lia|].
  rewrite in_seq. lia.
Qed.

Lemma mathMax0_bound : forall l m, (forall x, In x l -> x <= m) -> 0 <= m -> mathMax0 l <= m.
Proof.
  unfold mathMax0. induction l as [|a l IH]; simpl; intros m H Hm; [assumption|].
  specialize (IH m (fun x Hx => H x (or_intror Hx)) Hm).
  specialize (H a (or_introl eq_refl)). lia.
Qed.

Lemma mathMax0_ge : forall l x, In x l -> x <= mathMax0 l.
Proof.
  unfold mathMax0. induction l as [|a l IH]; simpl; [tauto|].
  intros x [->|Hx]; [lia|]. specialize (IH x Hx). lia.
Qed.

Lemma mathMax0_dense : forall l,
  dense l -> l <> [] -> mathMax0 (map order l) = Z.of_nat (List.length l) - 1.
Proof.
  intros l H Hne.
  assert (Hle : mathMax0 (map order l) <= Z.of_nat (List.length l) - 1).
  { apply mathMax0_bound.
    - intros x Hx. pose proof (dense_orders_in_range l x H Hx). lia.
    - destruct l; [contradiction|]. simpl List.length. lia. }
  pose proof (mathMax0_ge _ _ (dense_has_last l H Hne)). lia.
Qed.

Lemma mathMaxOrMinus1_nonneg : forall l,
  l <> [] -> (forall x, In x l -> 0 <= x) -> mathMaxOrMinus1 l = mathMax0 l.
Proof.
  intros [|a l] Hne Hpos; [contradiction|]. unfold mathMaxOrMinus1, mathMax0. simpl.
  assert (Ha : 0 <= a) by (apply Hpos; now left).
  assert (Hl : forall x, In x l -> 0 <= x) by (intros; apply Hpos; now right).
  clear Hne Hpos. revert Hl. induction l as [|b l IH]; simpl; intros Hl; [lia|].
  rewrite IH by (intros; apply Hl; now right). lia.
Qed.

Lemma mathMaxOrMinus1_dense : forall l,
  dense l -> mathMaxOrMinus1 (map order l) + 1 = Z.of_nat (List.length l).
Proof.
  intros l H. destruct (list_eq_dec Z.eq_dec (map order l) []) as [E|E].
  - destruct l; [reflexivity|discriminate].
  - assert (Hne : l <> []) by (intros ->; now apply E).
    rewrite mathMaxOrMinus1_nonneg.
    + rewrite mathMax0_dense by assumption. lia.
    + assumption.
    + intros x Hx. pose proof (dense_orders_in_range l x H Hx). lia.
Qed.

(* ================================================================== *)
(** ** The copy made by [duplicateStepRecursive] *)

Lemma duplicateStepRecursive_eq : forall gen s k,
  duplicateStepRecursive gen s k =
  let (copies, k') := mapState (duplicateStepRecursive gen) (children s) (S k) in
  (mkStep (gen k) (copyTitle s) (description s) (completed s) (parentId s) copies (order s), k').
Proof. intros gen [] k; reflexivity. Qed.

Lemma mapState_duplicate : forall gen l k,
  exists cs,
    mapState (duplicateStepRecursive gen) l k = (cs, (k + List.length (flatten l))%nat) /\
    copiedForest gen k l cs.
Proof.
  intros gen.
  induction l as [|s l IHc IHl] using forest_ind; intros k.
  - exists []. simpl. rewrite Nat.add_0_r. unfold copiedForest. simpl.
    repeat split; auto.
  - destruct (IHc (S k)) as (copies & Ec & Lc & Oc & Ic & Tc & Sc & Pc & Dc).
    destruct (IHl (S k + List.length (flatten (children s)))%nat)
      as (bs & El & Ll & Ol & Il & Tl & Sl & Pl & Dl).
    set (b := mkStep (gen k) (copyTitle s) (description s) (completed s)
                     (parentId s) copies (order s)).
    exists (b :: bs). split.
    + rewrite flatten_length_cons. cbn [mapState].
      rewrite duplicateStepRecursive_eq, Ec. fold b. rewrite El.
      f_equal. lia.
    + unfold copiedForest. rewrite !flatten_length_cons.
      repeat split.
      * simpl. now rewrite Ll.
      * simpl. now rewrite Ol.
      * rewrite ids_cons. simpl children. rewrite Ic, Il.
        simpl id. cbn [seq map]. f_equal. rewrite seq_app, map_app. reflexivity.
      * rewrite !flatten_cons. simpl. rewrite !map_app. now rewrite Tc, Tl.
      * rewrite !flatten_cons. simpl. rewrite !map_app. rewrite Sc, Sl.
        unfold shape at 1. simpl. rewrite Lc. reflexivity.
      * rewrite !flatten_cons. simpl. rewrite !map_app. now rewrite Pc, Pl.
      * rewrite !innerDense_cons. simpl children. intros (H1 & H2 & H3).
        repeat split; auto. apply (dense_ext (children s)); auto.
Qed.

Lemma duplicateStepRecursive_copy : forall gen X k,
  exists copy,
    duplicateStepRecursive gen X k = (copy, (k + List.length (flatten [X]))%nat) /\
    copiedForest gen k [X] [copy].
Proof.
  intros gen X k. destruct (mapState_duplicate gen [X] k) as (cs & E & H).
  simpl in E. destruct (duplicateStepRecursive gen X k) as [copy k'].
  injection E as <- Ek. exists copy. split; [now rewrite Ek|exact H].
Qed.

(* ================================================================== *)
(** ** Parent consistency and the sibling set of a step *)

Lemma optEqb_eq : forall a b, optEqb a b = true <-> a = b.
Proof.
  intros [x|] [y|]; simpl; try (split; congruence).
  rewrite String.eqb_eq. split; congruence.
Qed.

Lemma parentConsistentAt_eq : forall pid s,
  parentConsistentAt pid s = true <->
  parentId s = pid /\ forallb (parentConsistentAt (Some (id s))) (children s) = true.
Proof.
  intros pid [i t d c p cs o]. simpl. now rewrite andb_true_iff, optEqb_eq.
Qed.

Lemma parentConsistent_inside : forall l pid,
  forallb (parentConsistentAt pid) l = true ->
  forall P, In P (flatten l) ->
    forallb (parentConsistentAt (Some (id P))) (children P) = true.
Proof.
  induction l as [|s l IHc IHl] using forest_ind; [intros pid _ P []|].
  intros pid H P HP. simpl in H. apply andb_true_iff in H. destruct H as [Hs Hl].
  apply parentConsistentAt_eq in Hs. destruct Hs as [_ Hc].
  rewrite in_flatten_cons in HP. destruct HP as [->|[HP|HP]]; eauto.
Qed.

Lemma parentConsistent_roots : forall l pid,
  forallb (parentConsistentAt pid) l = true -> forall s, In s l -> parentId s = pid.
Proof.
  intros l pid H s Hs. rewrite forallb_forall in H.
  specialize (H s Hs). now apply parentConsistentAt_eq in H.
Qed.

Lemma parentConsistent_member : forall l pid,
  forallb (parentConsistentAt pid) l = true ->
  forall X, In X (flatten l) ->
    (In X l /\ parentId X = pid) \/
    (exists P, In P (flatten l) /\ In X (children P) /\ parentId X = Some (id P)).
Proof.
  induction l as [|s l IHc IHl] using forest_ind; [intros pid _ X []|].
  intros pid H X HX. simpl in H. apply andb_true_iff in H. destruct H as [Hs Hl].
  apply parentConsistentAt_eq in Hs. destruct Hs as [Hp Hc].
  rewrite in_flatten_cons in HX. destruct HX as [->|[HX|HX]].
  - left. split; [now left|assumption].
  - right. destruct (IHc _ Hc X HX) as [[Hin Hpar]|(P & HP & Hin & Hpar)].
    + exists s. rewrite in_flatten_cons. auto.
    + exists P. rewrite in_flatten_cons. auto.
  - destruct (IHl _ Hl X HX) as [[Hin Hpar]|(P & HP & Hin & Hpar)].
    + left. split; [now right|assumption].
    + right. exists P. rewrite in_flatten_cons. auto.
Qed.

Lemma findMaxOrder_all : forall l pid,
  (forall s, In s l -> parentId s = pid) ->
  findMaxOrder l pid = mathMax0 (map order l).
Proof.
  intros l pid H. unfold findMaxOrder. rewrite filter_all; [reflexivity|].
  intros s Hs. apply optEqb_eq. auto.
Qed.

(** *** The order that the shared copy ends with *)

Lemma duplicatedOrder_cons : forall pid s l cur,
  duplicatedOrder pid (s :: l) cur =
  duplicatedOrder pid l
    (if String.eqb (id s) pid then findMaxOrder (children s) (Some (id s)) + 1
     else duplicatedOrder pid (children s) cur).
Proof. intros pid [i t d c p cs o] l cur. reflexivity. Qed.

Lemma duplicatedOrder_absent : forall pid l cur,
  ~ In pid (ids l) -> duplicatedOrder pid l cur = cur.
Proof.
  intros pid.
  induction l as [|s l IHc IHl] using forest_ind; [reflexivity|].
  intros cur Hn. rewrite in_ids_cons in Hn. rewrite duplicatedOrder_cons.
  destruct (String.eqb_spec (id s) pid) as [E|E]; [exfalso; auto|].
  rewrite IHl, IHc; tauto.
Qed.

Lemma duplicatedOrder_unique : forall pid P l cur,
  uniqueIds l ->
  findStepRecursive l pid = Some P ->
  duplicatedOrder pid l cur = findMaxOrder (children P) (Some (id P)) + 1.
Proof.
  intros pid P.
  induction l as [|s l IHc IHl] using forest_ind; [discriminate|].
  intros cur Hu Hf.
  pose proof (uniqueIds_cons _ _ Hu) as (_ & _ & Huc & Hul & _).
  rewrite duplicatedOrder_cons.
  destruct (locate _ _ _ _ Hu Hf) as [E EX Hc Hl _|E Hfc Hl _ _|E Hfl Hc _ _].
  - subst P. rewrite E, String.eqb_refl. now apply duplicatedOrder_absent.
  - apply String.eqb_neq in E. rewrite E.
    rewrite duplicatedOrder_absent by assumption. now apply IHc.
  - now apply IHl.
Qed.

(** *** The rewritten step in the result *)

Lemma rewriteAt_hit_in : forall pid H P l,
  uniqueIds l ->
  findStepRecursive l pid = Some P ->
  In (H P) (flatten (map (rewriteAt pid H) l)).
Proof.
  intros pid H P.
  induction l as [|s l IHc IHl] using forest_ind; [discriminate|].
  intros Hu Hf.
  pose proof (uniqueIds_cons _ _ Hu) as (_ & _ & Huc & Hul & _).
  simpl map. rewrite in_flatten_cons, rewriteAt_eq.
  destruct (locate _ _ _ _ Hu Hf) as [E EX Hc Hl _|E Hfc Hl _ _|E Hfl Hc _ _].
  - subst P. rewrite E, String.eqb_refl. now left.
  - apply String.eqb_neq in E. rewrite E. right. left. simpl. now apply IHc.
  - right. right. now apply IHl.
Qed.

Lemma rewriteAt_orders : forall pid H l,
  (forall s, order (H s) = order s) ->
  map order (map (rewriteAt pid H) l) = map order l.
Proof.
  intros pid H l HH. rewrite map_map. apply map_ext. intros s.
  rewrite rewriteAt_eq. destruct (String.eqb (id s) pid); [apply HH|reflexivity].
Qed.

Lemma rewriteAt_innerDense : forall pid H l,
  (forall s, order (H s) = order s) ->
  (forall s, In s (flatten l) -> id s = pid ->
             dense (children (H s)) /\ innerDense (children (H s))) ->
  innerDense l -> innerDense (map (rewriteAt pid H) l).
Proof.
  intros pid H l HH. 
  induction l as [|s l IHc IHl] using forest_ind; [intros; apply innerDense_nil|].
  intros Hhit Hd. apply innerDense_cons in Hd. destruct Hd as (Hd1 & Hd2 & Hd3).
  simpl map. apply innerDense_cons. rewrite rewriteAt_eq.
  assert (Htail : innerDense (map (rewriteAt pid H) l)).
  { apply IHl; [|assumption]. intros x Hx. apply Hhit. rewrite in_flatten_cons. auto. }
  destruct (String.eqb_spec (id s) pid) as [E|E].
  - destruct (Hhit s) as [H1 H2]; [rewrite in_flatten_cons; auto|assumption|]. auto.
  - simpl children. repeat split; [| |assumption].
    + apply (dense_ext (children s)); [|assumption]. symmetry. now apply rewriteAt_orders.
    + apply IHc; [|assumption]. intros x Hx. apply Hhit. rewrite in_flatten_cons. auto.
Qed.

Lemma rewriteAt_allDense : forall pid H l,
  (forall s, order (H s) = order s) ->
  (forall s, In s (flatten l) -> id s = pid ->
             dense (children (H s)) /\ innerDense (children (H s))) ->
  allDense l -> allDense (map (rewriteAt pid H) l).
Proof.
  intros pid H l HH Hhit Hd. rewrite allDense_split in *. destruct Hd as [Hd1 Hd2]. split.
  - apply (dense_ext l); [|assumption]. symmetry. now apply rewriteAt_orders.
  - now apply rewriteAt_innerDense.
Qed.

(* ================================================================== *)
(** ** C4: DuplicateSubtree *)

(** C4, as stated, fails: the titles of the copied descendants get the
    suffix too. Duplicating a (children: b, whose child is c) gives the
    copies the titles "a (Copy)", "b (Copy)" and "c (Copy)". *)
Lemma C4_descendant_titles_get_suffix :
  exists copyA copyB,
    In copyA (steps (fst (duplicateStep sampleGen 0 7 chainGoal "a"))) /\
    title copyA = "a (Copy)"%string /\
    children copyA = [copyB] /\
    title copyB = "b (Copy)"%string /\
    title copyB <> "b"%string.
Proof.
  eexists _, _. vm_compute.
  split; [right; right; left; reflexivity|].
  repeat split; try reflexivity. discriminate.
Qed.

Lemma flatten_setOrder : forall (A : Type) (f : Step -> A) c v,
  (forall s o, f (setOrder s o) = f s) ->
  map f (flatten [setOrder c v]) = map f (flatten [c]).
Proof.
  intros A f c v Hf. rewrite !(flatten_cons _ []). simpl. now rewrite Hf.
Qed.

Lemma gen_draws_fresh : forall (gen : nat -> string) k n (old : list string),
  (forall i, ~ In (gen i) old) ->
  (forall i j, gen i = gen j -> i = j) ->
  NoDup (map gen (seq k n)) /\ (forall x, In x (map gen (seq k n)) -> ~ In x old).
Proof.
  intros gen k n old Hold Hinj. split.
  - apply Injective_map_NoDup; [exact Hinj|apply seq_NoDup].
  - intros x Hx. rewrite in_map_iff in Hx. destruct Hx as (i & <- & _). apply Hold.
Qed.

(** The step that an in-place rewrite is aimed at is found again under
    its identifier, rewritten. *)
Lemma rewriteAt_find_target : forall p H P l,
  uniqueIds l ->
  findStepRecursive l p = Some P ->
  id (H P) = p ->
  findStepRecursive (map (rewriteAt p H) l) p = Some (H P).
Proof.
  intros p H P.
  induction l as [|s l IHc IHl] using forest_ind; [discriminate|].
  intros Hu Hf HH.
  pose proof (uniqueIds_cons _ _ Hu) as (_ & _ & Huc & Hul & _).
  simpl map. rewrite findStepRecursive_cons, rewriteAt_eq.
  destruct (locate _ _ _ _ Hu Hf) as [E EX Hc Hl _|E Hfc Hl _ _|E Hfl Hc _ _].
  - subst P. rewrite E, String.eqb_refl. rewrite HH, String.eqb_refl. reflexivity.
  - apply String.eqb_neq in E. rewrite E. simpl id. rewrite E. simpl children.
    now rewrite (IHc Huc Hfc HH).
  - apply String.eqb_neq in E. rewrite E. simpl id. rewrite E. simpl children.
    rewrite rewriteAt_absent by assumption.
    rewrite findStepRecursive_none by assumption. now apply IHl.
Qed.

Lemma copyParent_cases : forall X,
  (copyParent X = None /\ truthy (parentId X) = false) \/
  (exists p, copyParent X = Some p /\ parentId X = Some p /\ p <> EmptyString /\
             truthy (parentId X) = true).
Proof.
  intros X. unfold copyParent. destruct (parentId X) as [p|] eqn:E; [|now left].
  simpl. destruct (String.eqb_spec p EmptyString) as [E'|E']; simpl; [now left|].
  right. exists p. auto.
Qed.

(** What a copy made of a child of a copy does: duplicating a, whose
    child is b, gives the copy n0 with the child n1, and n1 still names a
    as its parent (C5). A copy of n1 is then put below a, not below n0
    where n1 is. And once a step n3 has been added below n0 and moved to
    the front of its children, its copy gets the order 1, which the
    sibling n1 has: only the children that name n0 as their parent are
    counted. Every goal on the way satisfies I1. *)
Example duplicateStep_after_duplicateStep :
  let g1 := fst (duplicateStep sessionGen 0 7 chainGoal "a") in
  let g2 := fst (addStepToGoal sessionGen 3 8 g1 "t" None (Some "n0"%string)) in
  let g3 := reorderStep 9 g2 "n3" 0 (Some "n0"%string) in
  let g4 := fst (duplicateStep sessionGen 4 10 g3 "n3") in
  uniqueIds (steps g3) /\ uniqueIds (steps g4) /\
  option_map (fun s => map id (children s))
             (findStep (fst (duplicateStep sessionGen 3 8 g1 "n1")) "a")
    = Some [ "b"; "n3" ]%string /\
  option_map (fun s => map id (children s))
             (findStep (fst (duplicateStep sessionGen 3 8 g1 "n1")) "n0")
    = Some [ "n1" ]%string /\
  option_map (fun s => map (fun c => (id c, order c)) (children s)) (findStep g3 "n0")
    = Some [ ("n3", 0); ("n1", 1) ]%string /\
  option_map (fun s => map (fun c => (id c, order c)) (children s)) (findStep g4 "n0")
    = Some [ ("n3", 0); ("n1", 1); ("n4", 1) ]%string.
Proof.
  cbv zeta. split; [|split; [|repeat split]].
  - unfold uniqueIds. vm_compute.
    repeat (constructor; [simpl; intuition discriminate|]). constructor.
  - unfold uniqueIds. vm_compute.
    repeat (constructor; [simpl; intuition discriminate|]). constructor.
Qed.

(** C4 (amended): for a goal that satisfies I1 and a step X found in it,
    DuplicateSubtree draws one identifier from [generateId] for the copy
    of X and for every copied descendant, in pre-order (fresh whenever the
    generator is); appends " (Copy)" to the title of the copy of X and of
    every copied descendant; mirrors the descriptions, completion flags
    and child counts of X's subtree; leaves the [parentId] of the copy and
    [parentId] and [order] of the copied descendants as they were in the
    original. The copy is appended to the list that the [parentId] of X
    stands for ([copyParent]) - the root list when it is absent or empty,
    the children of the step of that name otherwise - with order = max(0,
    orders of those steps of the list that carry that parent as their
    [parentId], no [parentId] in the root list) + 1; when no step has
    that name, the copy is dropped and the tree stays as it was. When
    every step of that list carries that parent, the order is max(0,
    orders of the list) + 1, above every order of the list; and in a
    goal that satisfies I3 (the [parentId] of X not being the empty
    string), that list is the sibling set of X. *)
Theorem C4_duplicate_copies_subtree :
  forall (gen : nat -> string) (k : nat) (now : Z) (goal : Goal) (sid : string) (X : Step),
    uniqueIds (steps goal) ->
    findStep goal sid = Some X ->
    exists goal' copy,
      duplicateStep gen k now goal sid = (goal', (k + List.length (flatten [X]))%nat) /\
      ids [copy] = map gen (seq k (List.length (flatten [X]))) /\
      ((forall i, ~ In (gen i) (ids (steps goal))) ->
       (forall i j, gen i = gen j -> i = j) ->
       NoDup (ids [copy]) /\ forall x, In x (ids [copy]) -> ~ In x (ids (steps goal))) /\
      map title (flatten [copy]) = map copyTitle (flatten [X]) /\
      map shape (flatten [copy]) = map shape (flatten [X]) /\
      parentId copy = parentId X /\
      map placement (flatten (children copy)) = map placement (flatten (children X)) /\
      (forall sibs,
         targetSiblings goal (copyParent X) sibs ->
         targetSiblings goal' (copyParent X) (sibs ++ [copy]) /\
         order copy = findMaxOrder sibs (copyParent X) + 1 /\
         ((forall s, In s sibs -> parentId s = copyParent X) ->
          order copy = mathMax0 (map order sibs) + 1 /\
          (forall s, In s sibs -> order s < order copy))) /\
      (forall p, copyParent X = Some p -> findStep goal p = None ->
                 steps goal' = steps goal) /\
      (parentConsistent (steps goal) = true ->
       parentId X <> Some EmptyString ->
       exists sibs,
         siblingSet (steps goal) sibs /\ In X sibs /\
         siblingSet (steps goal') (sibs ++ [copy]) /\
         order copy = mathMax0 (map order sibs) + 1 /\
         (forall s, In s sibs -> order s < order copy)).
Proof.
  intros gen k now goal sid X Hu Hf.
  unfold findStep in Hf. pose proof (findStepRecursive_some _ _ _ Hf) as [HXin HXid].
  destruct (duplicateStepRecursive_copy gen X k) as (c & Ec & Lc & Oc & Ic & Tc & Sc & Pc & Dc).
  assert (Hfacts : forall v,
    ids [setOrder c v] = map gen (seq k (List.length (flatten [X]))) /\
    map title (flatten [setOrder c v]) = map copyTitle (flatten [X]) /\
    map shape (flatten [setOrder c v]) = map shape (flatten [X]) /\
    parentId (setOrder c v) = parentId X /\
    map placement (flatten (children (setOrder c v))) = map placement (flatten (children X))).
  { intros v. rewrite !(flatten_cons _ []) in Pc. simpl in Pc. rewrite !app_nil_r in Pc.
    unfold placement at 1 3 in Pc. injection Pc as Hp _ Hrest.
    split; [|split; [|split; [|split]]].
    - unfold ids. rewrite flatten_setOrder by reflexivity. exact Ic.
    - rewrite flatten_setOrder by reflexivity. exact Tc.
    - rewrite flatten_setOrder by reflexivity. exact Sc.
    - exact Hp.
    - exact Hrest. }
  assert (Habove : forall sibs v,
            v = mathMax0 (map order sibs) + 1 -> forall s, In s sibs -> order s < v).
  { intros sibs v -> s Hs.
    pose proof (mathMax0_ge (map order sibs) (order s) (in_map order _ _ Hs)). lia. }
  assert (Hmax : forall sibs pid,
            (forall s, In s sibs -> parentId s = pid) ->
            findMaxOrder sibs pid + 1 = mathMax0 (map order sibs) + 1).
  { intros sibs pid H. now rewrite findMaxOrder_all. }
  destruct (copyParent_cases X) as [[Hcp Htr]|(p & Hcp & Hpar & Hpne & Htr)].
  - (* the copy goes to the root list *)
    set (v := findMaxOrder (steps goal) None + 1).
    assert (Hrun : duplicateStep gen k now goal sid =
                   (setSteps (touch goal now) (steps goal ++ [setOrder c v]),
                    (k + List.length (flatten [X]))%nat)).
    { unfold duplicateStep, findStep. rewrite Hf, Ec.
      destruct (parentId X) as [q|]; [|reflexivity]. now rewrite Htr. }
    destruct (Hfacts v) as (F1 & F2 & F3 & F4 & F5).
    exists (setSteps (touch goal now) (steps goal ++ [setOrder c v])), (setOrder c v).
    split; [exact Hrun|]. split; [exact F1|].
    split; [intros Hfresh Hinj; rewrite F1; now apply gen_draws_fresh|].
    split; [exact F2|]. split; [exact F3|]. split; [exact F4|]. split; [exact F5|].
    rewrite Hcp. split; [|split].
    + intros sibs Hs. simpl in Hs. subst sibs. split; [reflexivity|].
      split; [reflexivity|]. intros Hall.
      assert (Hv : v = mathMax0 (map order (steps goal)) + 1) by (now apply Hmax).
      split; [exact Hv|]. now apply Habove.
    + intros q Hq. discriminate Hq.
    + intros Hpc Hne.
      destruct (parentConsistent_member _ _ Hpc X HXin) as [[Hroot HpX]|(P & HP & HXP & HpX)].
      * exists (steps goal). split; [now left|]. split; [assumption|].
        split; [now left|].
        assert (Hv : v = mathMax0 (map order (steps goal)) + 1).
        { apply Hmax. now apply parentConsistent_roots. }
        split; [exact Hv|]. now apply Habove.
      * exfalso. rewrite HpX in Htr. simpl in Htr.
        destruct (String.eqb_spec (id P) EmptyString) as [E|E]; [|discriminate].
        apply Hne. now rewrite HpX, E.
  - (* the copy goes below the step named p *)
    set (v := duplicatedOrder p (steps goal) (order c)).
    assert (Hrun : duplicateStep gen k now goal sid =
                   (setSteps (touch goal now)
                      (addDuplicatedStepToParent (setOrder c v) p (steps goal)),
                    (k + List.length (flatten [X]))%nat)).
    { unfold duplicateStep, findStep. rewrite Hf, Ec, Hpar.
      rewrite truthy_some by assumption. reflexivity. }
    assert (Hsteps : addDuplicatedStepToParent (setOrder c v) p (steps goal) =
                     map (rewriteAt p (appendChild (setOrder c v))) (steps goal)).
    { unfold addDuplicatedStepToParent.
      apply map_ext. intros s. apply addDuplicatedStepToParentAt_skeleton. }
    destruct (Hfacts v) as (F1 & F2 & F3 & F4 & F5).
    exists (setSteps (touch goal now)
              (addDuplicatedStepToParent (setOrder c v) p (steps goal))), (setOrder c v).
    split; [exact Hrun|]. split; [exact F1|].
    split; [intros Hfresh Hinj; rewrite F1; now apply gen_draws_fresh|].
    split; [exact F2|]. split; [exact F3|]. split; [exact F4|]. split; [exact F5|].
    rewrite Hcp.
    assert (Htarget : forall P,
              findStepRecursive (steps goal) p = Some P ->
              findStepRecursive (addDuplicatedStepToParent (setOrder c v) p (steps goal)) p
                = Some (appendChild (setOrder c v) P) /\
              v = findMaxOrder (children P) (Some p) + 1).
    { intros P HfP. pose proof (findStepRecursive_some _ _ _ HfP) as [_ HidP]. split.
      - rewrite Hsteps. apply rewriteAt_find_target; assumption.
      - unfold v. rewrite (duplicatedOrder_unique p P _ _ Hu HfP). now rewrite HidP. }
    split; [|split].
    + intros sibs (_ & P & HfP & ->). unfold findStep in HfP.
      destruct (Htarget P HfP) as [Hfind Hv].
      split; [|split].
      * split; [assumption|]. exists (appendChild (setOrder c v) P).
        split; [exact Hfind|reflexivity].
      * exact Hv.
      * intros Hall.
        assert (Hv' : v = mathMax0 (map order (children P)) + 1)
          by (rewrite Hv; now apply Hmax).
        split; [exact Hv'|]. now apply Habove.
    + intros q [= <-] Hnone. simpl steps. rewrite Hsteps.
      apply rewriteAt_absent. now apply findStepRecursive_in_none.
    + intros Hpc Hne.
      destruct (parentConsistent_member _ _ Hpc X HXin) as [[Hroot HpX]|(P & HP & HXP & HpX)];
        [congruence|].
      assert (p = id P) by congruence. subst p.
      pose proof (uniqueIds_find _ _ Hu HP) as HfP.
      destruct (Htarget P HfP) as [Hfind Hv].
      exists (children P). split; [right; eauto|]. split; [assumption|].
      split.
      * right. exists (appendChild (setOrder c v) P). split; [|reflexivity].
        simpl steps. apply findStepRecursive_some in Hfind. tauto.
      * assert (Hv' : v = mathMax0 (map order (children P)) + 1).
        { rewrite Hv. apply Hmax. apply parentConsistent_roots.
          eapply parentConsistent_inside; eauto. }
        split; [exact Hv'|]. now apply Habove.
Qed.

Lemma C4_duplicate_witness :
  uniqueIds (steps chainGoal) /\
  exists goal' copy,
    duplicateStep sampleGen 0 7 chainGoal "b" = (goal', 2%nat) /\
    ids [copy] = [ "n0"; "n1" ]%string /\
    targetSiblings goal' (Some "a"%string) [ node "b" (Some "a"%string) 0
                                               [ leaf "c" (Some "b"%string) 0 ]; copy ] /\
    order copy = 1.
Proof.
  split; [exact chainGoal_uniqueIds|].
  destruct (C4_duplicate_copies_subtree sampleGen 0 7 chainGoal "b"
              (node "b" (Some "a"%string) 0 [ leaf "c" (Some "b"%string) 0 ])
              chainGoal_uniqueIds eq_refl)
    as (goal' & copy & Hrun & Hids & _ & _ & _ & _ & _ & Hplace & _).
  destruct (Hplace [ node "b" (Some "a"%string) 0 [ leaf "c" (Some "b"%string) 0 ] ])
    as (Ht & Ho & _).
  { split; [discriminate|]. eexists. split; reflexivity. }
  exists goal', copy. split; [exact Hrun|]. split; [exact Hids|].
  split; [exact Ht|exact Ho].
Defined.

(* ================================================================== *)
(** ** C2: order density *)

Lemma innerDense_child : forall l s,
  innerDense l -> In s (flatten l) -> dense (children s) /\ innerDense (children s).
Proof.
  unfold innerDense. intros l s H Hs. split; [auto|].
  intros x Hx. apply H. eapply in_flatten_child; eauto.
Qed.

Lemma innerDense_roots : forall l,
  innerDense l <-> (forall s, In s l -> dense (children s) /\ innerDense (children s)).
Proof.
  induction l as [|a l IH].
  - split; [intros _ s []|intros; apply innerDense_nil].
  - rewrite innerDense_cons, IH. split.
    + intros (H1 & H2 & H3) x Hx. destruct Hx as [<-|Hx]; auto.
    + intros H. split; [apply H; now left|]. split; [apply H; now left|].
      intros x Hx. apply H. now right.
Qed.

Lemma innerDense_leaf : forall x, children x = [] -> innerDense [x].
Proof.
  intros x E. apply innerDense_cons. rewrite E.
  repeat split; auto using dense_nil, innerDense_nil.
Qed.

Lemma allDense_snoc : forall l x,
  allDense l -> order x = Z.of_nat (List.length l) -> innerDense [x] -> allDense (l ++ [x]).
Proof.
  intros l x H E Hx. rewrite allDense_split in *. destruct H as [H1 H2]. split.
  - now apply dense_snoc.
  - apply innerDense_app. auto.
Qed.

(** *** Insert *)

Lemma addStepToGoal_allDense :
  forall gen k now goal newTitle newDescription parentStepId,
    allDense (steps goal) ->
    uniqueIds (steps goal) ->
    allDense (steps (fst (addStepToGoal gen k now goal newTitle newDescription parentStepId))).
Proof.
  intros gen k now goal newTitle newDescription parentStepId Hd Hu.
  assert (Hroot : forall x,
            order x = mathMaxOrMinus1 (map order (steps goal)) + 1 -> children x = [] ->
            allDense (steps goal ++ [x])).
  { intros x Ho Hc. apply allDense_snoc; [assumption| |now apply innerDense_leaf].
    rewrite Ho. apply mathMaxOrMinus1_dense. now apply allDense_split in Hd. }
  unfold addStepToGoal, addStep, addStepMaxOrder. simpl fst.
  destruct parentStepId as [p|]; [|now apply Hroot].
  destruct (truthy (Some p)); [|now apply Hroot].
  simpl steps. unfold addStepRecursive, findParent.
  rewrite (map_ext _ _ (addStepAt_skeleton _ p)).
  fold (findStepRecursive (steps goal) p).
  destruct (findStepRecursive (steps goal) p) as [parent|] eqn:Hf.
  - apply rewriteAt_allDense; [reflexivity| |assumption].
    intros s Hs Hid.
    assert (s = parent).
    { pose proof (uniqueIds_find _ _ Hu Hs) as Hfs. rewrite Hid, Hf in Hfs. congruence. }
    subst s. apply allDense_split in Hd. destruct Hd as [_ Hin].
    destruct (innerDense_child _ _ Hin Hs) as [Hc1 Hc2].
    unfold appendChild. simpl children. split.
    + apply dense_snoc; [assumption|]. simpl. now apply mathMaxOrMinus1_dense.
    + apply innerDense_app. split; [assumption|now apply innerDense_leaf].
  - rewrite rewriteAt_absent; [assumption|]. now apply findStepRecursive_in_none.
Qed.

(** *** ReorderSiblings *)

Lemma renumberFrom_orders : forall l k,
  map order (renumberFrom k l) = map Z.of_nat (seq k (List.length l)).
Proof. induction l; simpl; intros; [reflexivity|]. now rewrite IHl. Qed.

Lemma renumberFrom_length : forall l k, List.length (renumberFrom k l) = List.length l.
Proof. induction l; simpl; intros; [reflexivity|]. now rewrite IHl. Qed.

Lemma renumberFrom_children : forall l k s',
  In s' (renumberFrom k l) -> exists s, In s l /\ children s' = children s.
Proof.
  induction l as [|a l IH]; simpl; intros k s' H; [contradiction|].
  destruct H as [<-|H].
  - exists a. split; [now left|reflexivity].
  - destruct (IH _ _ H) as (s & Hs & E). exists s. auto.
Qed.

Lemma In_firstn : forall (A : Type) (l : list A) k x, In x (firstn k l) -> In x l.
Proof.
  intros A l k x H. rewrite <- (firstn_skipn k l). apply in_or_app. now left.
Qed.

Lemma In_skipn : forall (A : Type) (l : list A) k x, In x (skipn k l) -> In x l.
Proof.
  intros A l k x H. rewrite <- (firstn_skipn k l). apply in_or_app. now right.
Qed.

Lemma findIndex_bound : forall sid l i, findIndex sid l = Some i -> (i < List.length l)%nat.
Proof.
  induction l as [|a l IH]; simpl; intros i H; [discriminate|].
  destruct (String.eqb (id a) sid).
  - injection H as <-. lia.
  - destruct (findIndex sid l) as [j|]; [|discriminate].
    injection H as <-. specialize (IH j eq_refl). lia.
Qed.

(** The sibling list that [reorderList] returns. *)
Lemma reorderList_spec : forall l sid newIndex l',
  reorderList l sid newIndex = Some l' ->
  List.length l' = List.length l /\
  map order l' = map Z.of_nat (seq 0 (List.length l)) /\
  (forall s', In s' l' -> exists s, In s l /\ children s' = children s).
Proof.
  intros l sid newIndex l'. unfold reorderList.
  destruct (findIndex sid l) as [i|] eqn:Hi; [|discriminate].
  apply findIndex_bound in Hi.
  unfold spliceRemove1. rewrite spliceStart_in_range by lia. rewrite Nat2Z.id.
  destruct (nth_error l i) as [moved|] eqn:Hnth; [|discriminate].
  set (rest := firstn i l ++ skipn (S i) l).
  intros Heq.
  assert (El' : renumber (spliceInsert rest newIndex moved) = l') by congruence.
  clear Heq. subst l'.
  assert (Hrest : List.length rest = (List.length l - 1)%nat)
    by (apply splice_rest_length; assumption).
  assert (Hlen : List.length (spliceInsert rest newIndex moved) = List.length l).
  { unfold spliceInsert. rewrite splice_insert_length. lia. }
  unfold renumber. split; [|split].
  - now rewrite renumberFrom_length.
  - now rewrite renumberFrom_orders, Hlen.
  - intros s' Hs'. apply renumberFrom_children in Hs'. destruct Hs' as (s & Hs & E).
    exists s. split; [|exact E].
    unfold spliceInsert in Hs. apply in_app_or in Hs.
    assert (Hin_rest : forall x, In x rest -> In x l).
    { intros x Hx. unfold rest in Hx. apply in_app_or in Hx.
      destruct Hx; [eapply In_firstn|eapply In_skipn]; eauto. }
    destruct Hs as [Hs|[<-|Hs]].
    + apply Hin_rest. eapply In_firstn; eauto.
    + eapply nth_error_In; eauto.
    + apply Hin_rest. eapply In_skipn; eauto.
Qed.

Lemma findIndex_present : forall sid l,
  In sid (map id l) -> exists i, findIndex sid l = Some i.
Proof.
  induction l as [|a l IH]; simpl; [intros []|].
  intros [E|H].
  - rewrite E, String.eqb_refl. eauto.
  - destruct (String.eqb (id a) sid); [eauto|].
    destruct (IH H) as [i Hi]. rewrite Hi. simpl. eauto.
Qed.

(** [reorderList] succeeds as soon as the step is in the list. *)
Lemma reorderList_found : forall l sid newIndex,
  In sid (map id l) -> exists l', reorderList l sid newIndex = Some l'.
Proof.
  intros l sid newIndex H. destruct (findIndex_present _ _ H) as [i Hi].
  unfold reorderList. rewrite Hi. apply findIndex_bound in Hi.
  unfold spliceRemove1. rewrite spliceStart_in_range by lia. rewrite Nat2Z.id.
  destruct (nth_error l i) eqn:Hnth; [eauto|].
  apply nth_error_None in Hnth. lia.
Qed.

Lemma reorderList_dense : forall l sid newIndex l',
  reorderList l sid newIndex = Some l' ->
  dense l' /\ (innerDense l -> innerDense l').
Proof.
  intros l sid newIndex l' H. destruct (reorderList_spec _ _ _ _ H) as (Hlen & Hord & Hch).
  split.
  - unfold dense. rewrite Hord, Hlen. apply Permutation_refl.
  - rewrite !innerDense_roots. intros Hin s' Hs'.
    destruct (Hch s' Hs') as (s & Hs & E). rewrite E. auto.
Qed.

Lemma reorderStep_allDense : forall now goal sid newIndex pid,
  allDense (steps goal) -> allDense (steps (reorderStep now goal sid newIndex pid)).
Proof.
  intros now goal sid newIndex pid Hd. unfold reorderStep, reorderStepsAtSameLevel.
  simpl steps.
  assert (Hroot : allDense match reorderList (steps goal) sid newIndex with
                           | Some reorderedSteps => reorderedSteps
                           | None => steps goal
                           end).
  { destruct (reorderList (steps goal) sid newIndex) as [l'|] eqn:E; [|assumption].
    destruct (reorderList_dense _ _ _ _ E) as [H1 H2].
    apply allDense_split. apply allDense_split in Hd. tauto. }
  destruct pid as [p|]; [|exact Hroot].
  destruct (truthy (Some p)); [|exact Hroot].
  rewrite (map_ext _ _ (reorderWithinParentAt_skeleton sid newIndex p)).
  apply rewriteAt_allDense; [| |assumption].
  - intros s. unfold reorderChildren.
    destruct (reorderList (children s) sid newIndex); reflexivity.
  - intros s Hs _. apply allDense_split in Hd. destruct Hd as [_ Hin].
    destruct (innerDense_child _ _ Hin Hs) as [Hc1 Hc2].
    unfold reorderChildren.
    destruct (reorderList (children s) sid newIndex) as [l'|] eqn:E; [|auto].
    destruct (reorderList_dense _ _ _ _ E) as [H1 H2]. simpl children. auto.
Qed.

(** *** DuplicateSubtree *)

Lemma innerDense_single : forall x,
  innerDense [x] <-> dense (children x) /\ innerDense (children x).
Proof.
  intros x. rewrite innerDense_cons. split; [tauto|].
  intros [H1 H2]. repeat split; auto using innerDense_nil.
Qed.

Lemma duplicateStep_allDense : forall gen k now goal sid,
  allDense (steps goal) ->
  uniqueIds (steps goal) ->
  parentConsistent (steps goal) = true ->
  allDense (steps (fst (duplicateStep gen k now goal sid))).
Proof.
  intros gen k now goal sid Hd Hu Hpc.
  unfold duplicateStep, findStep.
  destruct (findStepRecursive (steps goal) sid) as [X|] eqn:Hf; [|assumption].
  pose proof (findStepRecursive_some _ _ _ Hf) as [HXin _].
  destruct (duplicateStepRecursive_copy gen X k) as (c & Ec & _ & _ & _ & _ & _ & _ & Dc).
  rewrite Ec.
  pose proof (proj1 (allDense_split _) Hd) as [Hdr Hdi].
  assert (Hcopy : forall v, innerDense [setOrder c v]).
  { intros v. apply innerDense_single. simpl children. apply innerDense_single.
    apply Dc. apply innerDense_single. now apply innerDense_child with (l := steps goal). }
  assert (Hroot : allDense (steps goal ++
                            [setOrder c (findMaxOrder (steps goal) None + 1)])).
  { apply allDense_snoc; [assumption| |apply Hcopy]. simpl order.
    rewrite findMaxOrder_all by (now apply parentConsistent_roots).
    rewrite mathMax0_dense; [lia|assumption|].
    intro E. rewrite E in HXin. destruct HXin. }
  destruct (parentId X) as [pid|] eqn:Hpar; [|exact Hroot].
  destruct (truthy (Some pid)); [|exact Hroot].
  simpl fst. simpl steps.
  destruct (parentConsistent_member _ _ Hpc X HXin) as [[_ Hp]|(P & HP & HXP & Hp)];
    [congruence|].
  assert (pid = id P) by congruence. subst pid.
  pose proof (uniqueIds_find _ _ Hu HP) as HfP.
  unfold addDuplicatedStepToParent.
  rewrite (map_ext _ _ (addDuplicatedStepToParentAt_skeleton _ (id P))).
  apply rewriteAt_allDense; [reflexivity| |assumption].
  intros s Hs Hid.
  assert (s = P).
  { pose proof (uniqueIds_find _ _ Hu Hs) as Hfs. rewrite Hid, HfP in Hfs. congruence. }
  subst s. destruct (innerDense_child _ _ Hdi HP) as [Hc1 Hc2].
  unfold appendChild. simpl children. split.
  - apply dense_snoc; [assumption|]. simpl order.
    rewrite (duplicatedOrder_unique (id P) P _ _ Hu HfP).
    rewrite findMaxOrder_all.
    + rewrite mathMax0_dense; [lia|assumption|]. intro E. rewrite E in HXP. destruct HXP.
    + apply parentConsistent_roots. eapply parentConsistent_inside; eauto.
  - apply innerDense_app. split; [assumption|apply Hcopy].
Qed.

(** The scenario of the specification: with the roots A (order 0) and
    B (order 1), inserting C gives the orders 0, 1, 2 and moving C to the
    front gives C 0, A 1, B 2. *)
Example insert_then_reorder_scenario :
  let g := goalOf [ leaf "A" None 0; leaf "B" None 1 ] in
  let g1 := fst (addStepToGoal (fun _ => "C"%string) 0 7 g "C" None None) in
  map (fun s => (id s, order s)) (steps g1) = [("A", 0); ("B", 1); ("C", 2)]%string /\
  map (fun s => (id s, order s)) (steps (reorderStep 8 g1 "C" 0 None))
    = [("C", 0); ("A", 1); ("B", 2)]%string.
Proof. split; reflexivity. Qed.

(** *** DuplicateSubtree, by the list the copy is put in *)

Lemma duplicateStep_allDense_target : forall gen k now goal sid,
  allDense (steps goal) ->
  uniqueIds (steps goal) ->
  (forall X sibs,
      findStep goal sid = Some X -> targetSiblings goal (copyParent X) sibs ->
      sibs <> [] /\ forall s, In s sibs -> parentId s = copyParent X) ->
  allDense (steps (fst (duplicateStep gen k now goal sid))).
Proof.
  intros gen k now goal sid Hd Hu Hlocal.
  unfold duplicateStep.
  destruct (findStep goal sid) as [X|] eqn:Hf; [|assumption].
  specialize (Hlocal X).
  unfold findStep in Hf. pose proof (findStepRecursive_some _ _ _ Hf) as [HXin _].
  destruct (duplicateStepRecursive_copy gen X k) as (c & Ec & _ & _ & _ & _ & _ & _ & Dc).
  rewrite Ec.
  pose proof (proj1 (allDense_split _) Hd) as [Hdr Hdi].
  assert (Hcopy : forall v, innerDense [setOrder c v]).
  { intros v. apply innerDense_single. simpl children. apply innerDense_single.
    apply Dc. apply innerDense_single. now apply innerDense_child with (l := steps goal). }
  assert (Hlast : forall sibs pid,
            dense sibs -> sibs <> [] -> (forall s, In s sibs -> parentId s = pid) ->
            findMaxOrder sibs pid + 1 = Z.of_nat (List.length sibs)).
  { intros sibs pid H1 H2 H3. rewrite findMaxOrder_all by assumption.
    rewrite mathMax0_dense by assumption. lia. }
  destruct (copyParent_cases X) as [[Hcp Htr]|(p & Hcp & Hpar & Hpne & Htr)];
    rewrite Hcp in Hlocal.
  - assert (Hroot : allDense (steps goal ++
                              [setOrder c (findMaxOrder (steps goal) None + 1)])).
    { destruct (Hlocal (steps goal) eq_refl eq_refl) as [Hne Hall].
      apply allDense_snoc; [assumption| |apply Hcopy]. simpl order.
      now apply Hlast. }
    destruct (parentId X) as [q|]; [|exact Hroot]. rewrite Htr. exact Hroot.
  - rewrite Hpar. rewrite truthy_some by assumption. simpl fst. simpl steps.
    unfold addDuplicatedStepToParent.
    rewrite (map_ext _ _ (addDuplicatedStepToParentAt_skeleton _ p)).
    destruct (findStepRecursive (steps goal) p) as [P|] eqn:HfP.
    + pose proof (findStepRecursive_some _ _ _ HfP) as [HP HidP].
      destruct (Hlocal (children P) eq_refl) as [Hne Hall].
      { split; [assumption|]. exists P. split; [exact HfP|reflexivity]. }
      apply rewriteAt_allDense; [reflexivity| |assumption].
      intros s Hs Hid.
      assert (s = P).
      { pose proof (uniqueIds_find _ _ Hu Hs) as Hfs. rewrite Hid, HfP in Hfs. congruence. }
      subst s. destruct (innerDense_child _ _ Hdi HP) as [Hc1 Hc2].
      unfold appendChild. simpl children. split.
      * apply dense_snoc; [assumption|]. simpl order.
        rewrite (duplicatedOrder_unique p P _ _ Hu HfP). rewrite HidP.
        now apply Hlast.
      * apply innerDense_app. split; [assumption|apply Hcopy].
    + rewrite rewriteAt_absent; [assumption|]. now apply findStepRecursive_in_none.
Qed.

(** *** ReorderSiblings, on the list it is aimed at *)

Lemma uniqueIds_roots : forall l, uniqueIds l -> NoDup (map id l).
Proof.
  induction l as [|s l IH]; intros Hu; [constructor|].
  pose proof (uniqueIds_cons _ _ Hu) as (_ & Hsl & _ & Hul & _).
  simpl. constructor; [|now apply IH].
  intro Hin. apply Hsl. now apply in_root_ids.
Qed.

Lemma findIndex_nth : forall l i x,
  NoDup (map id l) -> nth_error l i = Some x -> findIndex (id x) l = Some i.
Proof.
  induction l as [|a l IH]; intros i x Hnd Hn; [destruct i; discriminate|].
  simpl in Hnd. inversion Hnd as [|? ? Hni Hnd']; subst.
  destruct i as [|i]; simpl in Hn.
  - injection Hn as ->. simpl. now rewrite String.eqb_refl.
  - simpl. destruct (String.eqb_spec (id a) (id x)) as [E|E].
    + exfalso. apply Hni. rewrite E. apply in_map. eapply nth_error_In; eauto.
    + now rewrite (IH i x Hnd' Hn).
Qed.

Lemma renumberFrom_same_steps : forall l k,
  map (fun s => setOrder s 0) (renumberFrom k l) = map (fun s => setOrder s 0) l.
Proof. induction l; simpl; intros; [reflexivity|]. now rewrite IHl. Qed.

Lemma targetSiblings_unique : forall goal pid sibs,
  uniqueIds (steps goal) -> targetSiblings goal pid sibs -> NoDup (map id sibs).
Proof.
  intros goal [p|] sibs Hu Ht; simpl in Ht.
  - destruct Ht as (_ & P & HfP & ->). unfold findStep in HfP.
    apply findStepRecursive_some in HfP. destruct HfP as [HP _].
    apply uniqueIds_roots. now apply (uniqueIds_child _ _ Hu HP).
  - subst sibs. now apply uniqueIds_roots.
Qed.

(** The list that [reorderStep] is aimed at is, in the goal it returns,
    what [reorderList] makes of it. *)
Lemma reorderStep_target : forall now goal sid newIndex pid sibs sibs',
  uniqueIds (steps goal) ->
  targetSiblings goal pid sibs ->
  reorderList sibs sid newIndex = Some sibs' ->
  targetSiblings (reorderStep now goal sid newIndex pid) pid sibs'.
Proof.
  intros now goal sid newIndex [p|] sibs sibs' Hu Ht Hr; simpl in Ht.
  - destruct Ht as (Hpne & P & HfP & ->). split; [assumption|].
    exists (setChildren P sibs'). split; [|reflexivity].
    unfold findStep, reorderStep, reorderStepsAtSameLevel. cbn [steps setSteps touch].
    rewrite truthy_some by assumption.
    rewrite (map_ext _ _ (reorderWithinParentAt_skeleton sid newIndex p)).
    unfold findStep in HfP.
    replace (setChildren P sibs') with (reorderChildren sid newIndex P)
      by (unfold reorderChildren; now rewrite Hr).
    apply rewriteAt_find_target; [assumption|assumption|].
    unfold reorderChildren. rewrite Hr. simpl id.
    apply findStepRecursive_some in HfP. tauto.
  - subst sibs. unfold reorderStep, reorderStepsAtSameLevel. simpl. now rewrite Hr.
Qed.

(** *** The claim and the goals it fails on *)

Lemma chainGoal_allDense : allDense (steps chainGoal).
Proof.
  apply allDense_split. split.
  - apply Permutation_refl.
  - intros s Hs. vm_compute in Hs.
    repeat (destruct Hs as [<-|Hs]; [apply Permutation_refl|]). destruct Hs.
Defined.

(** C2, as stated, fails for MoveToParent: in the goal with the roots
    a (order 0) and d (order 1), all of whose sibling sets are dense,
    moving a below d leaves the root list [d] with the order 1 and gives
    a the order 1 in the sibling set [a] of d. *)
Lemma C2_move_leaves_gaps :
  allDense (steps chainGoal) /\
  exists goal',
    moveStepToParent 4 7 chainGoal "a" (Some "d"%string) = Some goal' /\
    map order (steps goal') = [1] /\
    ~ allDense (steps goal').
Proof.
  split; [exact chainGoal_allDense|].
  eexists. split; [reflexivity|]. split; [reflexivity|].
  intro H. apply allDense_split in H. destruct H as [H _].
  unfold dense in H. vm_compute in H.
  apply Permutation_length_1 in H. discriminate.
Qed.

(** DuplicateSubtree keeps the orders dense only where the steps of the
    list that receives the copy name their parent, which a copy made by
    DuplicateSubtree does not (C5). In the goal reached from the chain by
    duplicating a, adding n3 below the copy n0 and moving n3 to the
    front, every sibling set is dense and the identifiers are pairwise
    distinct; duplicating n3 gives the children of n0 the orders 0, 1,
    1. *)
Lemma duplicateStep_after_duplicateStep_leaves_gaps :
  let g1 := fst (duplicateStep sessionGen 0 7 chainGoal "a") in
  let g2 := fst (addStepToGoal sessionGen 3 8 g1 "t" None (Some "n0"%string)) in
  let g3 := reorderStep 9 g2 "n3" 0 (Some "n0"%string) in
  let g4 := fst (duplicateStep sessionGen 4 10 g3 "n3") in
  uniqueIds (steps g3) /\ allDense (steps g3) /\ ~ allDense (steps g4).
Proof.
  cbv zeta. split; [|split].
  - unfold uniqueIds. vm_compute.
    repeat (constructor; [simpl; intuition discriminate|]). constructor.
  - apply allDense_split. split.
    + apply Permutation_refl.
    + intros s Hs. vm_compute in Hs.
      repeat (destruct Hs as [<-|Hs]; [apply Permutation_refl|]). destruct Hs.
  - intro H. apply allDense_split in H. destruct H as [_ H].
    match goal with
    | H : innerDense (steps ?g) |- _ =>
        destruct (findStep g "n0") as [P|] eqn:HP; [|vm_compute in HP; discriminate]
    end.
    unfold findStep in HP. pose proof (findStepRecursive_some _ _ _ HP) as [Hin _].
    specialize (H P Hin). vm_compute in HP. injection HP as <-.
    unfold dense in H. vm_compute in H.
    assert (H2 : In 2 [0; 1; 1]) by (apply (Permutation_in _ (Permutation_sym H)); simpl; auto).
    simpl in H2. intuition discriminate.
Qed.

(** C2 (amended): for every goal all of whose sibling sets are dense,
    every sibling set is dense again after ReorderSiblings; after Insert
    through the provider (which computes the order of the new step) when
    the step identifiers are pairwise distinct (I1); and after
    DuplicateSubtree when moreover the list that receives the copy is not
    empty and its steps carry the parent that DuplicateSubtree reads off
    the copied step ([copyParent]: its [parentId], none for the root
    list), as they do in a goal that satisfies I3. And in every goal that
    satisfies I1,
    dense or not: when the step is in the sibling list that
    ReorderSiblings is aimed at (the root list, or the children of the
    step found for a non-empty parent identifier), that list of the result
    has the length it had and the orders 0..N-1 by position, and for an
    index within bounds it is the list with the step taken out and put in
    again at the index, all fields but [order] as they were. MoveToParent
    is left out: it does not renumber the sibling set that the step
    leaves. *)
Theorem C2_density_preserved :
  forall (goal : Goal),
    (allDense (steps goal) ->
     (forall now sid newIndex pid,
         allDense (steps (reorderStep now goal sid newIndex pid))) /\
     (uniqueIds (steps goal) ->
      forall gen k now newTitle newDescription parentStepId,
        allDense (steps (fst (addStepToGoal gen k now goal newTitle newDescription
                                            parentStepId)))) /\
     (uniqueIds (steps goal) ->
      forall gen k now sid,
        (forall X sibs,
            findStep goal sid = Some X -> targetSiblings goal (copyParent X) sibs ->
            sibs <> [] /\ forall s, In s sibs -> parentId s = copyParent X) ->
        allDense (steps (fst (duplicateStep gen k now goal sid)))) /\
     (uniqueIds (steps goal) -> parentConsistent (steps goal) = true ->
      forall gen k now sid,
        allDense (steps (fst (duplicateStep gen k now goal sid))))) /\
    (uniqueIds (steps goal) ->
     forall now newIndex pid sibs i moved,
       targetSiblings goal pid sibs ->
       nth_error sibs i = Some moved ->
       exists sibs',
         targetSiblings (reorderStep now goal (id moved) newIndex pid) pid sibs' /\
         List.length sibs' = List.length sibs /\
         map order sibs' = map Z.of_nat (seq 0 (List.length sibs)) /\
         (0 <= newIndex < Z.of_nat (List.length sibs) ->
          map (fun s => setOrder s 0) sibs' =
          map (fun s => setOrder s 0)
              (let rest := firstn i sibs ++ skipn (S i) sibs in
               firstn (Z.to_nat newIndex) rest ++ moved :: skipn (Z.to_nat newIndex) rest))) /\
    (forall now sid newIndex,
        In sid (map id (steps goal)) ->
        map order (steps (reorderStep now goal sid newIndex None)) =
        map Z.of_nat (seq 0 (List.length (steps goal)))) /\
    (forall sibs sid newIndex sibs',
        reorderList sibs sid newIndex = Some sibs' ->
        List.length sibs' = List.length sibs /\
        map order sibs' = map Z.of_nat (seq 0 (List.length sibs))).
Proof.
  intros goal. split; [|split; [|split]].
  - intros Hd. split; [|split; [|split]].
    + intros. now apply reorderStep_allDense.
    + intros. now apply addStepToGoal_allDense.
    + intros. now apply duplicateStep_allDense_target.
    + intros. now apply duplicateStep_allDense.
  - intros Hu now newIndex pid sibs i moved Ht Hnth.
    pose proof (targetSiblings_unique _ _ _ Hu Ht) as Hnd.
    assert (Hi : (i < List.length sibs)%nat) by (apply nth_error_Some; congruence).
    set (rest := firstn i sibs ++ skipn (S i) sibs).
    assert (Hrun : reorderList sibs (id moved) newIndex =
                   Some (renumber (spliceInsert rest newIndex moved))).
    { unfold reorderList. rewrite (findIndex_nth _ _ _ Hnd Hnth).
      unfold spliceRemove1. rewrite spliceStart_in_range by lia. rewrite Nat2Z.id.
      now rewrite Hnth. }
    exists (renumber (spliceInsert rest newIndex moved)).
    destruct (reorderList_spec _ _ _ _ Hrun) as (Hlen & Hord & _).
    split; [now apply (reorderStep_target now goal (id moved) newIndex pid sibs)|].
    split; [exact Hlen|]. split; [exact Hord|].
    intros Hb. unfold renumber. rewrite renumberFrom_same_steps.
    unfold spliceInsert. rewrite spliceStart_in_range; [reflexivity|].
    unfold rest. rewrite splice_rest_length by assumption. lia.
  - intros now sid newIndex Hin.
    destruct (reorderList_found (steps goal) sid newIndex Hin) as [l' Hl'].
    unfold reorderStep, reorderStepsAtSameLevel. simpl steps. rewrite Hl'.
    now destruct (reorderList_spec _ _ _ _ Hl') as (_ & H2 & _).
  - intros sibs sid newIndex sibs' H.
    destruct (reorderList_spec _ _ _ _ H) as (H1 & H2 & _). auto.
Qed.

Lemma C2_density_witness :
  allDense (steps chainGoal) /\
  allDense (steps (reorderStep 7 chainGoal "d" 0 None)) /\
  allDense (steps (fst (duplicateStep sampleGen 0 7 chainGoal "b"))) /\
  exists sibs',
    targetSiblings (reorderStep 7 chainGoal "d" 0 None) None sibs' /\
    map order sibs' = [0; 1].
Proof.
  split; [exact chainGoal_allDense|]. split; [|split].
  - exact (proj1 (proj1 (C2_density_preserved chainGoal) chainGoal_allDense)
             7 "d"%string 0 None).
  - exact (proj2 (proj2 (proj2 (proj1 (C2_density_preserved chainGoal) chainGoal_allDense)))
             chainGoal_uniqueIds eq_refl sampleGen 0%nat 7 "b"%string).
  - destruct (proj1 (proj2 (C2_density_preserved chainGoal)) chainGoal_uniqueIds
                7 0 None (steps chainGoal) 1%nat (leaf "d" None 1) eq_refl eq_refl)
      as (sibs' & Ht & _ & Ho & _).
    exists sibs'. split; [exact Ht|exact Ho].
Defined.

(* ================================================================== *)
(** * Further properties of the code *)

(* ================================================================== *)
(** ** The locator *)

Lemma findStepRecursive_first : forall l sid found,
  findStepRecursive l sid = Some found ->
  exists pre post, flatten l = pre ++ found :: post /\ ~ In sid (map id pre).
Proof.
  induction l as [|s l IHc IHl] using forest_ind; [discriminate|].
  intros sid found. rewrite findStepRecursive_cons, flatten_cons.
  destruct (String.eqb_spec (id s) sid) as [E|E].
  - intros [= <-]. exists [], (flatten (children s) ++ flatten l). split; [reflexivity|].
    intros [].
  - destruct (findStepRecursive (children s) sid) eqn:Ec.
    + intros [= <-]. destruct (IHc _ _ Ec) as (pre & post & Hf & Hn).
      exists (s :: pre), (post ++ flatten l). split.
      * rewrite Hf. simpl. now rewrite <- app_assoc.
      * simpl. intros [H|H]; auto.
    + intros Hl. destruct (IHl _ _ Hl) as (pre & post & Hf & Hn).
      exists (s :: flatten (children s) ++ pre), post. split.
      * rewrite Hf. simpl. now rewrite <- app_assoc.
      * simpl. rewrite map_app, in_app_iff. intros [H|[H|H]]; auto.
        apply findStepRecursive_in_none in Ec. now apply Ec.
Qed.

(** X1: [findStep] returns a step exactly when the identifier occurs in
    the tree, and the step it returns is the first one in pre-order that
    carries the identifier. *)
Theorem findStep_first_match :
  forall (goal : Goal) (sid : string),
    (findStep goal sid = None <-> ~ In sid (ids (steps goal))) /\
    (forall found, findStep goal sid = Some found ->
       id found = sid /\
       exists pre post,
         flatten (steps goal) = pre ++ found :: post /\ ~ In sid (map id pre)).
Proof.
  intros goal sid. unfold findStep. split; [split|].
  - apply findStepRecursive_in_none.
  - apply findStepRecursive_none.
  - intros found Hf. split.
    + apply findStepRecursive_some in Hf. tauto.
    + now apply findStepRecursive_first.
Qed.

(** X2: in a goal whose step identifiers are pairwise distinct (I1),
    [isDescendant] comes back as soon as the fuel covers the tree, and it
    answers true exactly when the candidate is the identifier of a step
    strictly below the parent; for a parent that is not in the tree it
    answers false. *)
Theorem isDescendant_decides_descendants :
  forall (goal : Goal) (fuel : nat) (x : string),
    uniqueIds (steps goal) ->
    (List.length (flatten (steps goal)) <= fuel)%nat ->
    (forall P, In P (flatten (steps goal)) ->
       exists b, isDescendant fuel goal (id P) x = Some b /\
                 (b = true <-> In x (ids (children P)))) /\
    (forall p, ~ In p (ids (steps goal)) -> (0 < fuel)%nat ->
       isDescendant fuel goal p x = Some false).
Proof.
  intros goal fuel x Hu Hfuel. split.
  - intros P HP. exists (memId x (ids (children P))). split.
    + apply isDescendant_unique; [assumption|assumption|].
      pose proof (flatten_length_in _ _ HP). lia.
    + apply memId_In.
  - intros p Hp Hpos. destruct fuel as [|fuel]; [lia|].
    rewrite isDescendant_S. unfold findStep. now rewrite findStepRecursive_none.
Qed.

Lemma isDescendant_witness :
  uniqueIds (steps chainGoal) /\
  (List.length (flatten (steps chainGoal)) <= 4)%nat /\
  exists b, isDescendant 4 chainGoal "a" "c" = Some b /\
            (b = true <-> In "c"%string (ids [ node "b" (Some "a"%string) 0
                                                  [ leaf "c" (Some "b"%string) 0 ] ])).
Proof.
  assert (Hlen : (List.length (flatten (steps chainGoal)) <= 4)%nat) by (vm_compute; lia).
  split; [exact chainGoal_uniqueIds|]. split; [exact Hlen|].
  apply (proj1 (isDescendant_decides_descendants chainGoal 4 "c" chainGoal_uniqueIds Hlen)
               (node "a" None 0 [ node "b" (Some "a"%string) 0
                                    [ leaf "c" (Some "b"%string) 0 ] ])).
  vm_compute. auto.
Defined.

(** When the first child of a step carries the step's own identifier,
    [isDescendant] resolves the child to the step again and never comes
    back. *)
Lemma isDescendant_self_named_child : forall goal p x P c rest,
  findStep goal p = Some P ->
  children P = c :: rest ->
  id c = p ->
  p <> x ->
  forall fuel, isDescendant fuel goal p x = None.
Proof.
  intros goal p x P c rest Hf Hc Hid Hne.
  induction fuel as [|fuel IH]; [reflexivity|].
  rewrite isDescendant_S, Hf, Hc. simpl. rewrite Hid.
  apply String.eqb_neq in Hne. rewrite Hne. now rewrite IH.
Qed.

(** X3: if a step found by [findStep] has a first child that carries the
    step's own identifier, a move of that step below any other non-empty
    identifier never gets past [isDescendant], whatever the fuel, and the
    provider's [moveStepToParent] ends in its [catch]: the goals stay as
    they were and the error is "Failed to move step". *)
Theorem moveStepToParent_self_named_child_never_returns :
  forall (goal : Goal) (p x : string) (P c : Step) (rest : list Step),
    findStep goal p = Some P ->
    children P = c :: rest ->
    id c = p ->
    p <> x ->
    x <> EmptyString ->
    (forall fuel now, moveStepToParent fuel now goal p (Some x) = None) /\
    (forall fuel now stored st gid,
       findGoal (goals st) gid = Some goal ->
       ctxMoveStepToParent fuel now stored st gid p (Some x) =
       mkProvider (goals st) (Some "Failed to move step. Please try again later."%string)).
Proof.
  intros goal p x P c rest Hf Hc Hid Hne Hx.
  assert (Hmove : forall fuel now, moveStepToParent fuel now goal p (Some x) = None).
  { intros fuel now. unfold moveStepToParent. rewrite Hf.
    rewrite truthy_some by assumption.
    now rewrite (isDescendant_self_named_child goal p x P c rest Hf Hc Hid Hne). }
  split; [exact Hmove|].
  intros fuel now stored st gid Hg. unfold ctxMoveStepToParent. rewrite Hg, Hmove.
  reflexivity.
Qed.

Lemma moveStepToParent_self_named_child_witness :
  findStep selfNamedGoal "a" = Some (node "a" None 0 [ leaf "a" (Some "a"%string) 0 ]) /\
  (forall fuel now, moveStepToParent fuel now selfNamedGoal "a" (Some "d"%string) = None).
Proof.
  split; [reflexivity|].
  refine (proj1 (moveStepToParent_self_named_child_never_returns selfNamedGoal "a" "d"
                   (node "a" None 0 [ leaf "a" (Some "a"%string) 0 ])
                   (leaf "a" (Some "a"%string) 0) [] eq_refl eq_refl eq_refl _ _));
    discriminate.
Defined.

Lemma moveStepToParent_rejects_descendant_witness :
  uniqueIds (steps chainGoal) /\
  moveStepToParent 4 7 chainGoal "a" (Some "c"%string) = Some chainGoal.
Proof.
  split; [exact chainGoal_uniqueIds|].
  refine (moveStepToParent_rejects_descendant chainGoal
            (node "a" None 0 [ node "b" (Some "a"%string) 0 [ leaf "c" (Some "b"%string) 0 ] ])
            "c" 7 4 chainGoal_uniqueIds _ _ _ _).
  - vm_compute. auto.
  - vm_compute. auto.
  - discriminate.
  - vm_compute. lia.
Defined.

(* ================================================================== *)
(** ** What the in-place operations leave alone *)

Lemma flatten_cons_app : forall s l, flatten (s :: l) = flatten [s] ++ flatten l.
Proof. intros. change (s :: l) with ([s] ++ l). apply flatten_app. Qed.

Lemma flatten_single : forall s, flatten [s] = s :: flatten (children s).
Proof. intros. rewrite flatten_cons. simpl. now rewrite app_nil_r. Qed.

(** A listing [map f (flatten _)] is kept by [rewriteAt] as soon as [f]
    does not look below the number of children and the rewrite of a hit
    keeps the listing of its subtree. *)
Lemma rewriteAt_listing : forall (A : Type) (f : Step -> A) target H l,
  (forall s cs, List.length cs = List.length (children s) -> f (setChildren s cs) = f s) ->
  (forall s, id s = target -> map f (flatten [H s]) = map f (flatten [s])) ->
  map f (flatten (map (rewriteAt target H) l)) = map f (flatten l).
Proof.
  intros A f target H l Hf Hhit.
  induction l as [|s l IHc IHl] using forest_ind; [reflexivity|].
  simpl map at 2. rewrite (flatten_cons_app s l), (flatten_cons_app (rewriteAt target H s)).
  rewrite !map_app, IHl. f_equal. rewrite rewriteAt_eq.
  destruct (String.eqb_spec (id s) target) as [E|E]; [now apply Hhit|].
  rewrite !flatten_single. simpl. rewrite IHc. f_equal.
  apply Hf. apply length_map.
Qed.

Lemma toggleCompletionForce_unflagged : forall b l,
  map unflagged (flatten (map (toggleCompletionForceAt b) l)) = map unflagged (flatten l).
Proof.
  intros b.
  induction l as [|s l IHc IHl] using forest_ind; [reflexivity|].
  simpl map at 2. rewrite !flatten_cons. simpl. rewrite !map_app.
  rewrite toggleCompletionForceAt_eq. simpl children. rewrite IHc, IHl.
  unfold unflagged at 1. simpl. now rewrite length_map.
Qed.

Lemma toggleCompletionRecursive_unflagged : forall sid l,
  map unflagged (flatten (toggleCompletionRecursive sid l)) = map unflagged (flatten l).
Proof.
  intros sid l. unfold toggleCompletionRecursive.
  rewrite (map_ext _ _ (toggleCompletionAt_skeleton sid)).
  apply rewriteAt_listing.
  - intros s cs Hlen. unfold unflagged. simpl. now rewrite Hlen.
  - intros s _. rewrite !flatten_single. unfold forceChildren at 2. simpl children.
    simpl. rewrite toggleCompletionForce_unflagged. f_equal.
    unfold unflagged, forceChildren. simpl. now rewrite length_map.
Qed.

Lemma updateStepRecursive_skeleton : forall u l,
  map skeleton (flatten (updateStepRecursive u l)) = map skeleton (flatten l).
Proof.
  intros u l. unfold updateStepRecursive.
  rewrite (map_ext _ _ (updateStepAt_skeleton u)).
  apply rewriteAt_listing.
  - intros s cs Hlen. unfold skeleton. simpl. now rewrite Hlen.
  - intros s E. rewrite !flatten_single. simpl. f_equal.
    unfold skeleton. simpl. now rewrite E.
Qed.

(** X5: whatever the goal and the identifier, ToggleCompletion changes
    no field but [completed] (the steps of the result, in pre-order, have
    the ids, titles, descriptions, parentIds, orders and child counts of
    the input), and Update keeps the identifier and the number of children
    of every step: neither adds, removes or moves a step. *)
Theorem toggle_and_update_keep_the_tree :
  forall (goal : Goal) (sid : string) (u : Step) (now : Z),
    map unflagged (flatten (steps (toggleStepCompletion now goal sid))) =
      map unflagged (flatten (steps goal)) /\
    map skeleton (flatten (steps (updateStep now goal u))) =
      map skeleton (flatten (steps goal)).
Proof.
  intros. split.
  - apply toggleCompletionRecursive_unflagged.
  - apply updateStepRecursive_skeleton.
Qed.

(* ================================================================== *)
(** ** Delete, once more *)

Lemma deleteStepRecursive_incl : forall sid l x,
  In x (ids (deleteStepRecursive sid l)) -> In x (ids l).
Proof.
  intros sid.
  induction l as [|s l IHc IHl] using forest_ind; [intros x []|].
  intros x. rewrite deleteStepRecursive_cons, in_ids_cons.
  destruct (String.eqb (id s) sid); [auto|].
  rewrite in_ids_cons. simpl. intros [H|[H|H]]; auto.
Qed.

(** X6: whatever the goal, after Delete no step carries the identifier
    any more ([findStep] answers null), every identifier of the result
    was in the input, and a second Delete of the same identifier changes
    nothing but [updatedAt]. *)
Theorem deleteStep_leaves_no_match :
  forall (goal : Goal) (sid : string) (now : Z),
    findStep (deleteStep now goal sid) sid = None /\
    (forall x, In x (ids (steps (deleteStep now goal sid))) ->
               In x (ids (steps goal)) /\ x <> sid) /\
    (forall now', deleteStep now' (deleteStep now goal sid) sid =
                  touch (deleteStep now goal sid) now').
Proof.
  intros goal sid now.
  pose proof (deleteStepRecursive_removes sid (steps goal)) as Hgone.
  split; [|split].
  - unfold findStep. simpl steps. now apply findStepRecursive_none.
  - simpl steps. intros x Hx. split.
    + eapply deleteStepRecursive_incl; eauto.
    + intros ->. now apply Hgone.
  - intros now'. apply deleteStep_absent. exact Hgone.
Qed.

(* ================================================================== *)
(** ** ReorderSiblings loses nothing *)

Lemma renumberFrom_listing : forall (A : Type) (f : Step -> A) l k,
  (forall s o, f (setOrder s o) = f s) ->
  map f (flatten (renumberFrom k l)) = map f (flatten l).
Proof.
  intros A f l k Hf. revert k.
  induction l as [|a l IH]; intros k; [reflexivity|].
  simpl renumberFrom. rewrite !flatten_cons. simpl. rewrite !map_app, IH.
  now rewrite Hf.
Qed.

Lemma nth_error_middle : forall (A : Type) (l : list A) i x,
  nth_error l i = Some x -> l = firstn i l ++ x :: skipn (S i) l.
Proof.
  induction l as [|a l IH]; intros [|i] x H; try discriminate.
  - simpl in *. congruence.
  - simpl in H. simpl. f_equal. now apply IH.
Qed.

Lemma reorderList_permutation : forall l sid newIndex l',
  reorderList l sid newIndex = Some l' ->
  exists m, Permutation m l /\ l' = renumber m.
Proof.
  intros l sid newIndex l'. unfold reorderList.
  destruct (findIndex sid l) as [i|] eqn:Hi; [|discriminate].
  apply findIndex_bound in Hi.
  unfold spliceRemove1. rewrite spliceStart_in_range by lia. rewrite Nat2Z.id.
  destruct (nth_error l i) as [moved|] eqn:Hnth; [|discriminate].
  set (rest := firstn i l ++ skipn (S i) l).
  intros Heq.
  assert (El' : renumber (spliceInsert rest newIndex moved) = l') by congruence.
  exists (spliceInsert rest newIndex moved). split; [|now symmetry].
  unfold spliceInsert.
  set (k := spliceStart (List.length rest) newIndex).
  apply Permutation_trans with (moved :: rest).
  - apply Permutation_sym. rewrite <- (firstn_skipn k rest) at 1.
    apply Permutation_middle.
  - unfold rest.
    apply Permutation_trans with (firstn i l ++ moved :: skipn (S i) l).
    + apply Permutation_middle.
    + rewrite <- (nth_error_middle _ l i moved Hnth). apply Permutation_refl.
Qed.

Lemma flatten_permutation : forall l m, Permutation l m -> Permutation (flatten l) (flatten m).
Proof. intros l m H. unfold flatten. now apply Permutation_flat_map. Qed.

Lemma reorderList_listing : forall l sid newIndex l',
  reorderList l sid newIndex = Some l' ->
  Permutation (map unordered (flatten l')) (map unordered (flatten l)).
Proof.
  intros l sid newIndex l' H.
  destruct (reorderList_permutation _ _ _ _ H) as (m & Hm & ->).
  unfold renumber. rewrite renumberFrom_listing by reflexivity.
  apply Permutation_map. now apply flatten_permutation.
Qed.

(** The permutation counterpart of [rewriteAt_listing]. *)
Lemma rewriteAt_permutation : forall (A : Type) (f : Step -> A) target H l,
  (forall s cs, List.length cs = List.length (children s) -> f (setChildren s cs) = f s) ->
  (forall s, id s = target -> Permutation (map f (flatten [H s])) (map f (flatten [s]))) ->
  Permutation (map f (flatten (map (rewriteAt target H) l))) (map f (flatten l)).
Proof.
  intros A f target H l Hf Hhit.
  induction l as [|s l IHc IHl] using forest_ind; [constructor|].
  simpl map at 2. rewrite (flatten_cons_app s l), (flatten_cons_app (rewriteAt target H s)).
  rewrite !map_app. apply Permutation_app; [|exact IHl]. rewrite rewriteAt_eq.
  destruct (String.eqb_spec (id s) target) as [E|E]; [now apply Hhit|].
  rewrite !flatten_single. simpl. rewrite Hf by apply length_map.
  now apply perm_skip.
Qed.

Lemma reorderStepsAtSameLevel_listing : forall l sid newIndex pid,
  Permutation (map unordered (flatten (reorderStepsAtSameLevel l sid newIndex pid)))
              (map unordered (flatten l)).
Proof.
  intros l sid newIndex pid. unfold reorderStepsAtSameLevel.
  assert (Hroot : Permutation
            (map unordered (flatten match reorderList l sid newIndex with
                                    | Some reorderedSteps => reorderedSteps
                                    | None => l
                                    end))
            (map unordered (flatten l))).
  { destruct (reorderList l sid newIndex) as [l'|] eqn:E; [|apply Permutation_refl].
    eapply reorderList_listing; eauto. }
  destruct pid as [p|]; [|exact Hroot].
  destruct (truthy (Some p)); [|exact Hroot].
  rewrite (map_ext _ _ (reorderWithinParentAt_skeleton sid newIndex p)).
  apply rewriteAt_permutation.
  - intros s cs Hlen. unfold unordered. simpl. now rewrite Hlen.
  - intros s _. unfold reorderChildren.
    destruct (reorderList (children s) sid newIndex) as [l'|] eqn:E; [|apply Permutation_refl].
    rewrite !flatten_single. simpl.
    destruct (reorderList_spec _ _ _ _ E) as (Hlen & _ & _).
    replace (unordered (setChildren s l')) with (unordered s)
      by (unfold unordered; simpl; now rewrite Hlen).
    apply perm_skip. eapply reorderList_listing; eauto.
Qed.

(** X7: whatever the goal, the step, the index (negative or past the
    end included) and the parent, ReorderSiblings returns a tree with the
    same steps: listed with everything but their [order], the steps of
    the result are a permutation of the steps of the input, so no step is
    lost, duplicated or changed in anything but its order. *)
Theorem reorderStep_keeps_every_step :
  forall (goal : Goal) (sid : string) (newIndex : Z) (pid : option string) (now : Z),
    Permutation (map unordered (flatten (steps (reorderStep now goal sid newIndex pid))))
                (map unordered (flatten (steps goal))).
Proof.
  intros. simpl steps. apply reorderStepsAtSameLevel_listing.
Qed.

(* ================================================================== *)
(** ** Where an appended step goes, and what a detached step leaves *)

Lemma rewriteAt_append_listing : forall (A : Type) (f : Step -> A) p x P l,
  (forall s cs, f (setChildren s cs) = f s) ->
  uniqueIds l ->
  findStepRecursive l p = Some P ->
  Permutation (map f (flatten (map (rewriteAt p (appendChild x)) l)))
              (map f (flatten l) ++ map f (flatten [x])).
Proof.
  intros A f p x P l Hf. revert P.
  induction l as [|s l IHc IHl] using forest_ind; [discriminate|].
  intros P Hu Hfind.
  pose proof (uniqueIds_cons _ _ Hu) as (_ & _ & Huc & Hul & _).
  simpl map at 2. rewrite rewriteAt_eq.
  rewrite (flatten_cons s l), map_cons, <- app_comm_cons.
  destruct (locate _ _ _ _ Hu Hfind) as [E EX Hc Hl _|E Hfc Hl _ _|E Hfl Hc _ _].
  - rewrite E, String.eqb_refl. rewrite rewriteAt_absent by assumption.
    unfold appendChild. rewrite flatten_cons, map_cons, Hf. cbn [children setChildren].
    rewrite flatten_app. apply perm_skip. rewrite !map_app, <- !app_assoc.
    apply Permutation_app_head. apply Permutation_app_comm.
  - apply String.eqb_neq in E. rewrite E.
    rewrite rewriteAt_absent with (l := l) by assumption.
    rewrite flatten_cons, map_cons, Hf. cbn [children setChildren].
    apply perm_skip. rewrite !map_app, <- !app_assoc.
    apply Permutation_trans
      with ((map f (flatten (children s)) ++ map f (flatten [x])) ++ map f (flatten l)).
    + apply Permutation_app_tail. now apply (IHc P).
    + rewrite <- app_assoc. apply Permutation_app_head. apply Permutation_app_comm.
  - apply String.eqb_neq in E. rewrite E.
    rewrite rewriteAt_absent with (l := children s) by assumption.
    rewrite setChildren_same, flatten_cons, map_cons.
    apply perm_skip. rewrite !map_app, <- !app_assoc.
    apply Permutation_app_head. now apply (IHl P).
Qed.

Lemma deleteStepRecursive_listing : forall (A : Type) (f : Step -> A) sid X l,
  (forall s cs, f (setChildren s cs) = f s) ->
  uniqueIds l ->
  findStepRecursive l sid = Some X ->
  Permutation (map f (flatten (deleteStepRecursive sid l)) ++ map f (flatten [X]))
              (map f (flatten l)).
Proof.
  intros A f sid X l Hf.
  induction l as [|s l IHc IHl] using forest_ind; [discriminate|].
  intros Hu Hfind.
  pose proof (uniqueIds_cons _ _ Hu) as (_ & _ & Huc & Hul & _).
  rewrite deleteStepRecursive_cons.
  destruct (locate _ _ _ _ Hu Hfind) as [E EX Hc Hl _|E Hfc Hl _ _|E Hfl Hc _ _].
  - subst X. rewrite E, String.eqb_refl. rewrite deleteStepRecursive_absent by assumption.
    rewrite (flatten_cons_app s l), map_app. apply Permutation_app_comm.
  - apply String.eqb_neq in E. rewrite E.
    rewrite deleteStepRecursive_absent with (l := l) by assumption.
    rewrite (flatten_cons s l), flatten_cons, !map_cons, Hf, <- app_comm_cons.
    cbn [children setChildren].
    apply perm_skip. rewrite !map_app, <- !app_assoc.
    apply Permutation_trans
      with ((map f (flatten (deleteStepRecursive sid (children s))) ++ map f (flatten [X]))
            ++ map f (flatten l)).
    + rewrite <- app_assoc. apply Permutation_app_head. apply Permutation_app_comm.
    + apply Permutation_app_tail. now apply IHc.
  - apply String.eqb_neq in E. rewrite E.
    rewrite deleteStepRecursive_absent with (l := children s) by assumption.
    rewrite setChildren_same, !(flatten_cons s), !map_cons, <- app_comm_cons.
    apply perm_skip. rewrite !map_app, <- !app_assoc.
    apply Permutation_app_head. now apply IHl.
Qed.

Lemma deleteStepRecursive_uniqueIds : forall sid l,
  uniqueIds l -> uniqueIds (deleteStepRecursive sid l).
Proof.
  intros sid l Hu. destruct (findStepRecursive l sid) as [X|] eqn:Hf.
  - pose proof (deleteStepRecursive_listing _ id sid X l (fun _ _ => eq_refl) Hu Hf) as Hp.
    unfold uniqueIds, ids in *.
    apply (Permutation_NoDup (Permutation_sym Hp)) in Hu.
    now apply NoDup_app_remove_r in Hu.
  - rewrite deleteStepRecursive_absent; [assumption|now apply findStepRecursive_in_none].
Qed.

Lemma deleteStepRecursive_root_orders : forall sid l x,
  In x (map order (deleteStepRecursive sid l)) -> In x (map order l).
Proof.
  intros sid. induction l as [|s l IH]; [intros x []|].
  intros x. rewrite deleteStepRecursive_cons.
  destruct (String.eqb (id s) sid); simpl; [auto|].
  intros [H|H]; auto.
Qed.

(** The step named [np] is still there after the detaching of [sid], as
    long as it is neither the detached step nor below it. *)
Lemma deleteStepRecursive_find_other : forall sid np P l,
  uniqueIds l ->
  findStepRecursive l np = Some P ->
  (forall X, findStepRecursive l sid = Some X -> ~ In np (ids [X])) ->
  findStepRecursive (deleteStepRecursive sid l) np =
  Some (setChildren P (deleteStepRecursive sid (children P))).
Proof.
  intros sid np P.
  induction l as [|s l IHc IHl] using forest_ind; [discriminate|].
  intros Hu Hfind Hout.
  pose proof (uniqueIds_cons _ _ Hu) as (Hsc & Hsl & Huc & Hul & Hdisj).
  rewrite deleteStepRecursive_cons.
  rewrite findStepRecursive_cons in Hfind.
  destruct (String.eqb_spec (id s) sid) as [Es|Es].
  - (* the head is the detached step *)
    assert (Hns : ~ In np (ids [s])).
    { apply Hout. rewrite findStepRecursive_cons.
      destruct (String.eqb_spec (id s) sid); [reflexivity|contradiction]. }
    rewrite ids_single in Hns. simpl in Hns.
    destruct (String.eqb_spec (id s) np) as [En|En]; [exfalso; auto|].
    rewrite findStepRecursive_none in Hfind by tauto.
    assert (Habs : ~ In sid (ids l)) by (rewrite <- Es; assumption).
    rewrite deleteStepRecursive_absent by assumption. rewrite Hfind. f_equal.
    rewrite deleteStepRecursive_absent; [now rewrite setChildren_same|].
    intro Hin. apply Habs. apply findStepRecursive_some in Hfind.
    eapply in_ids_child; [|exact Hin]. tauto.
  - rewrite findStepRecursive_cons. simpl id. simpl children.
    destruct (String.eqb_spec (id s) np) as [En|En].
    + injection Hfind as <-. reflexivity.
    + destruct (findStepRecursive (children s) np) as [Q|] eqn:Hc.
      * injection Hfind as ->. rewrite (IHc Huc eq_refl); [reflexivity|].
        intros X HX. apply Hout. rewrite findStepRecursive_cons.
        destruct (String.eqb_spec (id s) sid); [contradiction|]. now rewrite HX.
      * rewrite (findStepRecursive_none (deleteStepRecursive sid (children s)) np).
        2:{ intro Hin. apply deleteStepRecursive_incl in Hin.
            now apply (findStepRecursive_in_none _ _ Hc). }
        apply (IHl Hul Hfind).
        intros X HX. apply Hout. rewrite findStepRecursive_cons.
        destruct (String.eqb_spec (id s) sid); [contradiction|].
        rewrite findStepRecursive_none; [assumption|].
        intro Hin. apply (Hdisj sid Hin).
        apply findStepRecursive_some in HX. destruct HX as [HX <-].
        now apply in_flatten_ids.
Qed.

(* ================================================================== *)
(** ** I1 is kept *)

Lemma ids_of_listing : forall (A : Type) (f : Step -> A) (g : A -> string) l,
  (forall s, g (f s) = id s) -> ids l = map g (map f (flatten l)).
Proof. intros A f g l H. unfold ids. rewrite map_map. apply map_ext. intros; now rewrite H. Qed.

Lemma ids_moved : forall X p o, ids [setOrder (setParentId X p) o] = ids [X].
Proof. intros X p o. now rewrite !ids_single. Qed.

Lemma uniqueIds_single : forall l X, uniqueIds l -> In X (flatten l) -> uniqueIds [X].
Proof.
  intros l X Hu HX. destruct (uniqueIds_child _ _ Hu HX) as [Hc Hn].
  unfold uniqueIds. rewrite ids_single. now constructor.
Qed.

Lemma uniqueIds_snoc : forall l x,
  uniqueIds l -> uniqueIds [x] -> (forall i, In i (ids [x]) -> ~ In i (ids l)) ->
  NoDup (ids l ++ ids [x]).
Proof.
  unfold uniqueIds. intros l x Hl Hx Hd.
  apply NoDup_app; [assumption|assumption|].
  intros i Hi Hix. now apply (Hd i Hix).
Qed.

Lemma appendAt_uniqueIds : forall p x l,
  uniqueIds l -> uniqueIds [x] -> (forall i, In i (ids [x]) -> ~ In i (ids l)) ->
  uniqueIds (map (rewriteAt p (appendChild x)) l).
Proof.
  intros p x l Hl Hx Hd. destruct (findStepRecursive l p) as [P|] eqn:Hf.
  - pose proof (rewriteAt_append_listing _ id p x P l (fun _ _ => eq_refl) Hl Hf) as Hp.
    unfold uniqueIds. unfold ids at 1.
    apply (Permutation_NoDup (Permutation_sym Hp)). now apply uniqueIds_snoc.
  - rewrite rewriteAt_absent; [assumption|now apply findStepRecursive_in_none].
Qed.

Lemma snoc_uniqueIds : forall x l,
  uniqueIds l -> uniqueIds [x] -> (forall i, In i (ids [x]) -> ~ In i (ids l)) ->
  uniqueIds (l ++ [x]).
Proof.
  intros x l Hl Hx Hd. unfold uniqueIds. change (ids (l ++ [x])) with (map id (flatten (l ++ [x]))).
  rewrite flatten_app, map_app. now apply uniqueIds_snoc.
Qed.

Lemma moveStepToParent_uniqueIds : forall fuel now goal sid np goal',
  uniqueIds (steps goal) ->
  moveStepToParent fuel now goal sid np = Some goal' ->
  uniqueIds (steps goal').
Proof.
  intros fuel now goal sid np goal' Hu. unfold moveStepToParent, findStep.
  destruct (findStepRecursive (steps goal) sid) as [X|] eqn:Hf; [|now intros [= <-]].
  simpl steps. rewrite (removeStepFromParent_delete _ _ Hu).
  pose proof (deleteStepRecursive_uniqueIds sid _ Hu) as Hdel.
  pose proof (findStepRecursive_some _ _ _ Hf) as [HXin _].
  assert (HX : forall p o, uniqueIds [setOrder (setParentId X p) o]).
  { intros p o. unfold uniqueIds. rewrite ids_moved. now apply (uniqueIds_single (steps goal)). }
  assert (Hd : forall p o i, In i (ids [setOrder (setParentId X p) o]) ->
                             ~ In i (ids (deleteStepRecursive sid (steps goal)))).
  { intros p o i. rewrite ids_moved. now apply deleteStepRecursive_subtree_gone. }
  assert (Hroot : forall o,
            uniqueIds (deleteStepRecursive sid (steps goal) ++ [setOrder (setParentId X np) o])).
  { intros o. apply snoc_uniqueIds; auto. apply (Hd np o). }
  destruct np as [p|]; [|intros [= <-]; apply Hroot].
  destruct (truthy (Some p)); [|intros [= <-]; apply Hroot].
  destruct (isDescendant fuel goal sid p) as [[|]|]; [intros [= <-]; assumption| |discriminate].
  intros [= <-]. simpl steps. unfold addStepToNewParent.
  rewrite (map_ext _ _ (addStepToNewParentAt_skeleton _ p)).
  apply appendAt_uniqueIds; auto. apply (Hd (Some p)).
Qed.

Lemma addStepToGoal_uniqueIds : forall gen k now goal newTitle newDescription parentStepId,
  uniqueIds (steps goal) ->
  ~ In (gen k) (ids (steps goal)) ->
  uniqueIds (steps (fst (addStepToGoal gen k now goal newTitle newDescription parentStepId))).
Proof.
  intros gen k now goal newTitle newDescription parentStepId Hu Hfresh.
  unfold addStepToGoal, addStep. simpl fst.
  set (newStep := mkStep (gen k) newTitle newDescription false parentStepId []
                         (addStepMaxOrder goal parentStepId + 1)).
  assert (Hx : uniqueIds [newStep]).
  { unfold uniqueIds. rewrite ids_single. simpl. constructor; [intros []|constructor]. }
  assert (Hd : forall i, In i (ids [newStep]) -> ~ In i (ids (steps goal))).
  { intros i. rewrite ids_single. simpl. intros [<-|[]]. assumption. }
  destruct parentStepId as [p|]; [|simpl steps; now apply snoc_uniqueIds].
  destruct (truthy (Some p)); [|simpl steps; now apply snoc_uniqueIds].
  simpl steps. unfold addStepRecursive.
  rewrite (map_ext _ _ (addStepAt_skeleton _ p)).
  now apply appendAt_uniqueIds.
Qed.

Lemma duplicateStep_uniqueIds : forall gen k now goal sid,
  uniqueIds (steps goal) ->
  (forall i, ~ In (gen i) (ids (steps goal))) ->
  (forall i j, gen i = gen j -> i = j) ->
  uniqueIds (steps (fst (duplicateStep gen k now goal sid))).
Proof.
  intros gen k now goal sid Hu Hfresh Hinj. unfold duplicateStep, findStep.
  destruct (findStepRecursive (steps goal) sid) as [X|] eqn:Hf; [|assumption].
  destruct (duplicateStepRecursive_copy gen X k) as (c & Ec & _ & _ & Ic & _).
  rewrite Ec.
  destruct (gen_draws_fresh gen k (List.length (flatten [X])) _ Hfresh Hinj) as [Hnd Hout].
  assert (Hids : forall v, ids [setOrder c v] = ids [c])
    by (intros v; now rewrite !ids_single).
  assert (Hx : forall v, uniqueIds [setOrder c v]).
  { intros v. unfold uniqueIds. now rewrite Hids, Ic. }
  assert (Hd : forall v i, In i (ids [setOrder c v]) -> ~ In i (ids (steps goal))).
  { intros v i. rewrite Hids, Ic. apply Hout. }
  assert (Hroot : forall v, uniqueIds (steps goal ++ [setOrder c v])).
  { intros v. apply snoc_uniqueIds; auto. apply (Hd v). }
  destruct (parentId X) as [pid|]; [|apply Hroot].
  destruct (truthy (Some pid)); [|apply Hroot].
  simpl fst. simpl steps. unfold addDuplicatedStepToParent.
  rewrite (map_ext _ _ (addDuplicatedStepToParentAt_skeleton _ pid)).
  apply appendAt_uniqueIds; auto. apply Hd.
Qed.

(** X8: every operation of the engine keeps I1. If the step identifiers of
    a goal are pairwise distinct, they still are after Update, Delete,
    ToggleCompletion, ReorderSiblings and MoveToParent (whenever it
    returns), after Insert through the provider when the identifier that
    [generateId] returns is not in the tree, and after DuplicateSubtree
    when [generateId] never returns an identifier of the tree nor the
    same identifier twice. *)
Theorem operations_keep_unique_ids :
  forall (goal : Goal),
    uniqueIds (steps goal) ->
    (forall now u, uniqueIds (steps (updateStep now goal u))) /\
    (forall now sid, uniqueIds (steps (deleteStep now goal sid))) /\
    (forall now sid, uniqueIds (steps (toggleStepCompletion now goal sid))) /\
    (forall now sid newIndex pid, uniqueIds (steps (reorderStep now goal sid newIndex pid))) /\
    (forall fuel now sid np goal',
        moveStepToParent fuel now goal sid np = Some goal' -> uniqueIds (steps goal')) /\
    (forall gen k now newTitle newDescription parentStepId,
        ~ In (gen k) (ids (steps goal)) ->
        uniqueIds (steps (fst (addStepToGoal gen k now goal newTitle newDescription
                                             parentStepId)))) /\
    (forall gen k now sid,
        (forall i, ~ In (gen i) (ids (steps goal))) ->
        (forall i j, gen i = gen j -> i = j) ->
        uniqueIds (steps (fst (duplicateStep gen k now goal sid)))).
Proof.
  intros goal Hu. repeat split.
  - intros now u. unfold uniqueIds. simpl steps.
    rewrite (ids_of_listing _ skeleton fst) by reflexivity.
    rewrite updateStepRecursive_skeleton.
    now rewrite <- (ids_of_listing _ skeleton fst) by reflexivity.
  - intros now sid. simpl steps. now apply deleteStepRecursive_uniqueIds.
  - intros now sid. unfold uniqueIds. simpl steps.
    rewrite (ids_of_listing _ unflagged (fun t => fst (fst (fst (fst (fst t)))))) by reflexivity.
    rewrite toggleCompletionRecursive_unflagged.
    now rewrite <- (ids_of_listing _ unflagged (fun t => fst (fst (fst (fst (fst t))))))
      by reflexivity.
  - intros now sid newIndex pid. unfold uniqueIds. simpl steps.
    pose proof (reorderStepsAtSameLevel_listing (steps goal) sid newIndex pid) as Hp.
    apply (Permutation_map (fun t : string * string * option string * bool * option string * nat
                            => fst (fst (fst (fst (fst t)))))) in Hp.
    rewrite <- !(ids_of_listing _ unordered) in Hp by reflexivity.
    apply (Permutation_NoDup (Permutation_sym Hp)). exact Hu.
  - intros. eapply moveStepToParent_uniqueIds; eauto.
  - intros. now apply addStepToGoal_uniqueIds.
  - intros. now apply duplicateStep_uniqueIds.
Qed.

Lemma operations_keep_unique_ids_witness :
  uniqueIds (steps chainGoal) /\
  uniqueIds (steps (deleteStep 7 chainGoal "b")) /\
  uniqueIds (steps (reorderStep 7 chainGoal "d" 0 None)).
Proof.
  split; [exact chainGoal_uniqueIds|]. split.
  - exact (proj1 (proj2 (operations_keep_unique_ids chainGoal chainGoal_uniqueIds)) 7 "b"%string).
  - exact (proj1 (proj2 (proj2 (proj2 (operations_keep_unique_ids chainGoal chainGoal_uniqueIds))))
             7 "d"%string 0 None).
Defined.

(* ================================================================== *)
(** ** Insert through the provider *)

Lemma findStepRecursive_app : forall a b sid,
  findStepRecursive (a ++ b) sid =
  match findStepRecursive a sid with
  | Some found => Some found
  | None => findStepRecursive b sid
  end.
Proof.
  induction a as [|s a IH]; intros b sid; [reflexivity|].
  rewrite <- app_comm_cons, !findStepRecursive_cons.
  destruct (String.eqb (id s) sid); [reflexivity|].
  destruct (findStepRecursive (children s) sid); [reflexivity|]. apply IH.
Qed.

Lemma findStepRecursive_head : forall x, findStepRecursive [x] (id x) = Some x.
Proof. intros x. rewrite findStepRecursive_cons. now rewrite String.eqb_refl. Qed.

(** The appended step is what [findStep] returns for its identifier, when
    that identifier is new to the tree and the parent is in it. *)
Lemma find_appended : forall p x l,
  ~ In (id x) (ids l) ->
  In p (ids l) ->
  findStepRecursive (map (rewriteAt p (appendChild x)) l) (id x) = Some x.
Proof.
  intros p x.
  induction l as [|s l IHc IHl] using forest_ind; [intros _ []|].
  intros Hn Hp. rewrite in_ids_cons in Hn, Hp.
  simpl map. rewrite findStepRecursive_cons, rewriteAt_eq.
  destruct (String.eqb_spec (id s) p) as [E|E].
  - unfold appendChild. simpl id. simpl children.
    destruct (String.eqb_spec (id s) (id x)) as [Ex|Ex]; [exfalso; auto|].
    rewrite findStepRecursive_app, findStepRecursive_none by tauto.
    now rewrite findStepRecursive_head.
  - simpl id. simpl children.
    destruct (String.eqb_spec (id s) (id x)) as [Ex|Ex]; [exfalso; auto|].
    destruct (in_dec string_dec p (ids (children s))) as [Hc|Hc].
    + rewrite IHc; [reflexivity|tauto|assumption].
    + rewrite rewriteAt_absent by assumption.
      rewrite findStepRecursive_none by tauto.
      apply IHl; [tauto|].
      destruct Hp as [Hp|[Hp|Hp]]; [congruence|contradiction|assumption].
Qed.

Lemma mathMaxOrMinus1_ge : forall l x, In x l -> x <= mathMaxOrMinus1 l.
Proof.
  intros [|a l] x; [intros []|]. unfold mathMaxOrMinus1.
  revert a x. induction l as [|b l IH]; simpl; intros a x.
  - intros [->|[]]. lia.
  - intros [->|[->|H]].
    + specialize (IH x x (or_introl eq_refl)). lia.
    + lia.
    + specialize (IH a x (or_intror H)). lia.
Qed.

Lemma mathMaxOrMinus1_lower : forall l, (forall x, In x l -> 0 <= x) -> -1 <= mathMaxOrMinus1 l.
Proof.
  intros [|a l] H; [simpl; lia|].
  pose proof (mathMaxOrMinus1_ge (a :: l) a (or_introl eq_refl)).
  specialize (H a (or_introl eq_refl)). lia.
Qed.

(** X9: in a goal that satisfies I1, Insert through the provider with
    no parent, or with a non-empty parent identifier that is in the tree,
    appends the new step (a leaf, not completed, carrying the identifier
    that [generateId] returned and the given [parentId]) at the end of the
    sibling list it is aimed at, with an order above every order of that
    list, gaps or not; if the identifier is new to the tree, [findStep]
    then returns the new step for it, and the identifiers of the result
    are those of the input and the new one. *)
Theorem addStepToGoal_appends_last :
  forall (gen : nat -> string) (k : nat) (now : Z) (goal : Goal) (newTitle : string)
         (newDescription parentStepId : option string) (sibs : list Step),
    uniqueIds (steps goal) ->
    ~ In (gen k) (ids (steps goal)) ->
    targetSiblings goal parentStepId sibs ->
    exists goal' newStep,
      addStepToGoal gen k now goal newTitle newDescription parentStepId = (goal', S k) /\
      newStep = mkStep (gen k) newTitle newDescription false parentStepId []
                       (mathMaxOrMinus1 (map order sibs) + 1) /\
      siblingSet (steps goal') (sibs ++ [newStep]) /\
      (forall s, In s sibs -> order s < order newStep) /\
      findStep goal' (gen k) = Some newStep /\
      Permutation (ids (steps goal')) (ids (steps goal) ++ [gen k]).
Proof.
  intros gen k now goal newTitle newDescription parentStepId sibs Hu Hfresh Hsibs.
  set (newStep := mkStep (gen k) newTitle newDescription false parentStepId []
                         (mathMaxOrMinus1 (map order sibs) + 1)).
  assert (Horder : forall s, In s sibs -> order s < order newStep).
  { intros s Hs. simpl.
    pose proof (mathMaxOrMinus1_ge (map order sibs) (order s) (in_map order _ _ Hs)). lia. }
  destruct parentStepId as [p|].
  - destruct Hsibs as (Hne & P & HfP & ->).
    exists (setSteps (touch goal now) (addStepRecursive newStep p (steps goal))), newStep.
    assert (Hrun : addStepToGoal gen k now goal newTitle newDescription (Some p) =
                   (setSteps (touch goal now) (addStepRecursive newStep p (steps goal)), S k)).
    { unfold addStepToGoal, addStep, addStepMaxOrder, findParent.
      rewrite truthy_some by assumption.
      fold (findStepRecursive (steps goal) p). unfold findStep in HfP. rewrite HfP.
      reflexivity. }
    split; [exact Hrun|]. split; [reflexivity|].
    unfold findStep in HfP |- *. simpl steps. unfold addStepRecursive.
    rewrite (map_ext _ _ (addStepAt_skeleton newStep p)).
    split; [|split; [exact Horder|split]].
    + right. exists (appendChild newStep P). split; [|reflexivity].
      now apply rewriteAt_hit_in.
    + apply (find_appended p newStep); [assumption|].
      apply findStepRecursive_some in HfP. destruct HfP as [HP <-].
      now apply in_flatten_ids.
    + apply (rewriteAt_append_listing _ id p newStep P _ (fun _ _ => eq_refl) Hu HfP).
  - simpl in Hsibs. subst sibs.
    exists (setSteps (touch goal now) (steps goal ++ [newStep])), newStep.
    split; [reflexivity|]. split; [reflexivity|]. split; [now left|].
    split; [exact Horder|]. split.
    + unfold findStep. simpl steps.
      rewrite findStepRecursive_app, findStepRecursive_none by assumption.
      apply (findStepRecursive_head newStep).
    + simpl steps. unfold ids. rewrite flatten_app, map_app. apply Permutation_refl.
Qed.

Lemma addStepToGoal_appends_last_witness :
  uniqueIds (steps chainGoal) /\
  ~ In (sampleGen 0) (ids (steps chainGoal)) /\
  targetSiblings chainGoal (Some "b"%string) [ leaf "c" (Some "b"%string) 0 ] /\
  exists goal' newStep,
    addStepToGoal sampleGen 0 7 chainGoal "t" None (Some "b"%string) = (goal', 1%nat) /\
    findStep goal' (sampleGen 0) = Some newStep /\
    order newStep = 1.
Proof.
  assert (Hfresh : ~ In (sampleGen 0) (ids (steps chainGoal))).
  { vm_compute. intuition discriminate. }
  assert (Hsibs : targetSiblings chainGoal (Some "b"%string) [ leaf "c" (Some "b"%string) 0 ]).
  { split; [discriminate|]. eexists. split; reflexivity. }
  split; [exact chainGoal_uniqueIds|]. split; [exact Hfresh|]. split; [exact Hsibs|].
  destruct (addStepToGoal_appends_last sampleGen 0 7 chainGoal "t" None (Some "b"%string) _
              chainGoal_uniqueIds Hfresh Hsibs)
    as (goal' & newStep & Hrun & Hnew & _ & _ & Hfind & _).
  exists goal', newStep. split; [exact Hrun|]. split; [exact Hfind|].
  rewrite Hnew. reflexivity.
Defined.

(* ================================================================== *)
(** ** MoveToParent, when the move is legal *)

Lemma movedStep_eq : forall X p o, setOrder (setParentId X p) o = movedStep X p o.
Proof. reflexivity. Qed.

Lemma payload_moved : forall X p o,
  map payload (flatten [movedStep X p o]) = map payload (flatten [X]).
Proof. intros. now rewrite !flatten_single. Qed.

(** X10: in a goal that satisfies I1, a move of a found step X below a
    step P that is in the tree, has a non-empty identifier and is neither
    X nor below X is carried out (with fuel for the size of the tree): X
    arrives as the last child of P, with its title, description,
    completion and children as they were, [parentId] set to P's
    identifier and the order max(0, orders of P's children as they were
    before the move) + 1, which is above the order of every other child
    of P; [findStep] returns it for its identifier; and the steps of the
    result are, up to their place, the steps of the input. *)
Theorem moveStepToParent_legal_move :
  forall (goal : Goal) (sid np : string) (X P : Step) (now : Z) (fuel : nat),
    uniqueIds (steps goal) ->
    findStep goal sid = Some X ->
    findStep goal np = Some P ->
    np <> EmptyString ->
    ~ In np (ids [X]) ->
    (List.length (flatten (steps goal)) <= fuel)%nat ->
    exists goal' moved others,
      moveStepToParent fuel now goal sid (Some np) = Some goal' /\
      moved = movedStep X (Some np) (mathMax0 (map order (children P)) + 1) /\
      others = deleteStepRecursive sid (children P) /\
      In (setChildren P (others ++ [moved])) (flatten (steps goal')) /\
      (forall c, In c others -> order c < order moved) /\
      findStep goal' sid = Some moved /\
      updatedAt goal' = now /\
      Permutation (map payload (flatten (steps goal'))) (map payload (flatten (steps goal))).
Proof.
  intros goal sid np X P now fuel Hu HfX HfP Hne Hout Hfuel.
  unfold findStep in HfX, HfP.
  pose proof (findStepRecursive_some _ _ _ HfX) as [HXin HXid].
  set (moved := movedStep X (Some np) (mathMax0 (map order (children P)) + 1)).
  set (inter := deleteStepRecursive sid (steps goal)).
  set (P' := setChildren P (deleteStepRecursive sid (children P))).
  assert (Hrun : moveStepToParent fuel now goal sid (Some np) =
                 Some (setSteps (touch goal now)
                         (map (rewriteAt np (appendChild moved)) inter))).
  { unfold moveStepToParent, findStep. rewrite HfX.
    rewrite truthy_some by assumption.
    rewrite <- HXid at 1.
    rewrite (isDescendant_unique goal np Hu fuel X HXin).
    2:{ pose proof (flatten_length_in _ _ HXin). lia. }
    replace (memId np (ids (children X))) with false.
    2:{ symmetry. apply memId_false. intro Hin. apply Hout. rewrite ids_single. now right. }
    simpl steps. rewrite (removeStepFromParent_delete _ _ Hu).
    unfold getMaxOrder, findStep. rewrite truthy_some by assumption. rewrite HfP.
    rewrite movedStep_eq. unfold addStepToNewParent.
    now rewrite (map_ext _ _ (addStepToNewParentAt_skeleton _ np)). }
  assert (HfP' : findStepRecursive inter np = Some P').
  { apply deleteStepRecursive_find_other; [assumption|assumption|].
    intros X0 HX0. rewrite HfX in HX0. now injection HX0 as <-. }
  assert (Hui : uniqueIds inter) by now apply deleteStepRecursive_uniqueIds.
  exists (setSteps (touch goal now) (map (rewriteAt np (appendChild moved)) inter)),
         moved, (deleteStepRecursive sid (children P)).
  split; [exact Hrun|]. split; [reflexivity|]. split; [reflexivity|].
  simpl steps. split; [|split; [|split; [|split; [reflexivity|]]]].
  - apply (rewriteAt_hit_in np (appendChild moved) P' inter Hui HfP').
  - intros c Hc. simpl order.
    pose proof (deleteStepRecursive_root_orders sid (children P) (order c)
                  (in_map order _ _ Hc)) as Hin.
    pose proof (mathMax0_ge _ _ Hin). lia.
  - unfold findStep. simpl steps. rewrite <- HXid.
    apply (find_appended np moved inter).
    + simpl id. rewrite HXid. apply deleteStepRecursive_removes.
    + apply findStepRecursive_some in HfP'. destruct HfP' as [HP' <-].
      now apply in_flatten_ids.
  - eapply Permutation_trans.
    + apply (rewriteAt_append_listing _ payload np moved P' inter (fun _ _ => eq_refl) Hui HfP').
    + unfold moved. rewrite payload_moved.
      apply (deleteStepRecursive_listing _ payload sid X _ (fun _ _ => eq_refl) Hu HfX).
Qed.

Lemma moveStepToParent_legal_move_witness :
  uniqueIds (steps chainGoal) /\
  findStep chainGoal "c" = Some (leaf "c" (Some "b"%string) 0) /\
  findStep chainGoal "d" = Some (leaf "d" None 1) /\
  exists goal' moved,
    moveStepToParent 4 7 chainGoal "c" (Some "d"%string) = Some goal' /\
    findStep goal' "c" = Some moved /\
    parentId moved = Some "d"%string.
Proof.
  split; [exact chainGoal_uniqueIds|]. split; [reflexivity|]. split; [reflexivity|].
  destruct (moveStepToParent_legal_move chainGoal "c" "d" (leaf "c" (Some "b"%string) 0)
              (leaf "d" None 1) 7 4 chainGoal_uniqueIds eq_refl eq_refl)
    as (goal' & moved & others & Hrun & Hm & _ & _ & _ & Hfind & _).
  - discriminate.
  - vm_compute. intuition discriminate.
  - vm_compute. lia.
  - exists goal', moved. split; [exact Hrun|]. split; [exact Hfind|]. now rewrite Hm.
Defined.

(** X11: in a goal that satisfies I1, a move of a found step X to the
    root (no new parent) needs no cycle check and always returns: the
    tree without X, followed by X as the last root step, with its title,
    description, completion and children as they were, no [parentId], and
    the order max(0, orders of the remaining root steps) + 1, above the
    order of every other root step; the steps of the result are, up to
    their place, the steps of the input. *)
Theorem moveStepToParent_to_root :
  forall (goal : Goal) (sid : string) (X : Step) (now : Z) (fuel : nat),
    uniqueIds (steps goal) ->
    findStep goal sid = Some X ->
    exists goal' moved remaining,
      moveStepToParent fuel now goal sid None = Some goal' /\
      remaining = deleteStepRecursive sid (steps goal) /\
      moved = movedStep X None (mathMax0 (map order remaining) + 1) /\
      steps goal' = remaining ++ [moved] /\
      (forall s, In s remaining -> order s < order moved) /\
      findStep goal' sid = Some moved /\
      Permutation (map payload (flatten (steps goal'))) (map payload (flatten (steps goal))).
Proof.
  intros goal sid X now fuel Hu HfX. unfold findStep in HfX.
  pose proof (findStepRecursive_some _ _ _ HfX) as [HXin HXid].
  set (remaining := deleteStepRecursive sid (steps goal)).
  set (moved := movedStep X None (mathMax0 (map order remaining) + 1)).
  exists (setSteps (touch goal now) (remaining ++ [moved])), moved, remaining.
  split; [|split; [reflexivity|split; [reflexivity|split; [reflexivity|split; [|split]]]]].
  - unfold moveStepToParent, findStep. rewrite HfX. simpl steps.
    now rewrite (removeStepFromParent_delete _ _ Hu).
  - intros s Hs. simpl order.
    pose proof (mathMax0_ge _ _ (in_map order _ _ Hs)). lia.
  - unfold findStep. simpl steps. rewrite findStepRecursive_app.
    rewrite findStepRecursive_none by apply deleteStepRecursive_removes.
    rewrite <- HXid. apply (findStepRecursive_head moved).
  - simpl steps. rewrite flatten_app, map_app. unfold moved. rewrite payload_moved.
    apply (deleteStepRecursive_listing _ payload sid X _ (fun _ _ => eq_refl) Hu HfX).
Qed.

Lemma moveStepToParent_to_root_witness :
  uniqueIds (steps chainGoal) /\
  findStep chainGoal "b" = Some (node "b" (Some "a"%string) 0 [ leaf "c" (Some "b"%string) 0 ]) /\
  exists goal' moved,
    moveStepToParent 0 7 chainGoal "b" None = Some goal' /\
    findStep goal' "b" = Some moved /\
    order moved = 2.
Proof.
  split; [exact chainGoal_uniqueIds|]. split; [reflexivity|].
  destruct (moveStepToParent_to_root chainGoal "b" _ 7 0 chainGoal_uniqueIds eq_refl)
    as (goal' & moved & remaining & Hrun & Hr & Hm & _ & _ & Hfind & _).
  exists goal', moved. split; [exact Hrun|]. split; [exact Hfind|].
  rewrite Hm, Hr. reflexivity.
Defined.

(* ================================================================== *)
(** ** I3 is kept by everything but DuplicateSubtree *)

Lemma parentConsistentAt_setOrder : forall pid s o,
  parentConsistentAt pid (setOrder s o) = parentConsistentAt pid s.
Proof. intros pid [] o. reflexivity. Qed.

Lemma parentConsistentAt_children : forall pid s cs,
  parentConsistentAt pid (setChildren s cs) =
  optEqb (parentId s) pid && forallb (parentConsistentAt (Some (id s))) cs.
Proof. intros pid [] cs. reflexivity. Qed.

Lemma parentConsistentAt_unfold : forall pid s,
  parentConsistentAt pid s =
  optEqb (parentId s) pid && forallb (parentConsistentAt (Some (id s))) (children s).
Proof. intros pid []. reflexivity. Qed.

Lemma forallb_permutation : forall (A : Type) (p : A -> bool) l m,
  Permutation l m -> forallb p l = forallb p m.
Proof.
  intros A p l m H. induction H; simpl; try congruence.
  - destruct (p x), (p y); reflexivity.
Qed.

Lemma forallb_renumberFrom : forall pid l k,
  forallb (parentConsistentAt pid) (renumberFrom k l) = forallb (parentConsistentAt pid) l.
Proof.
  intros pid. induction l as [|a l IH]; intros k; [reflexivity|].
  cbn [renumberFrom forallb]. now rewrite parentConsistentAt_setOrder, IH.
Qed.

Lemma reorderList_consistent : forall pid l sid newIndex l',
  reorderList l sid newIndex = Some l' ->
  forallb (parentConsistentAt pid) l' = forallb (parentConsistentAt pid) l.
Proof.
  intros pid l sid newIndex l' H.
  destruct (reorderList_permutation _ _ _ _ H) as (m & Hm & ->).
  unfold renumber. rewrite forallb_renumberFrom. now apply forallb_permutation.
Qed.

(** [rewriteAt] keeps I3 when the rewrite of a hit keeps the identifier
    and the [parentId] of the step and gives it consistent children. *)
Lemma rewriteAt_consistent : forall target H l pid,
  (forall s, In s (flatten l) -> id s = target ->
     id (H s) = id s /\ parentId (H s) = parentId s /\
     (forallb (parentConsistentAt (Some (id s))) (children s) = true ->
      forallb (parentConsistentAt (Some (id s))) (children (H s)) = true)) ->
  forallb (parentConsistentAt pid) l = true ->
  forallb (parentConsistentAt pid) (map (rewriteAt target H) l) = true.
Proof.
  intros target H l. 
  induction l as [|s l IHc IHl] using forest_ind; [reflexivity|].
  intros pid Hhit Hl. cbn [forallb] in Hl. apply andb_true_iff in Hl. destruct Hl as [Hs Hl].
  cbn [map forallb]. rewrite (IHl pid), andb_true_r; [| |exact Hl].
  2:{ intros x Hx. apply Hhit. rewrite in_flatten_cons. auto. }
  rewrite parentConsistentAt_unfold in Hs. apply andb_true_iff in Hs. destruct Hs as [Hp Hc].
  rewrite rewriteAt_eq.
  destruct (String.eqb_spec (id s) target) as [E|E].
  - destruct (Hhit s) as (Hid & Hpar & Hch); [rewrite in_flatten_cons; auto|assumption|].
    rewrite parentConsistentAt_unfold, Hid, Hpar, Hp. simpl. now apply Hch.
  - rewrite parentConsistentAt_children, Hp. simpl. apply IHc; [|exact Hc].
    intros x Hx. apply Hhit. rewrite in_flatten_cons. auto.
Qed.

Lemma toggleCompletionForce_consistent : forall b l pid,
  forallb (parentConsistentAt pid) (map (toggleCompletionForceAt b) l) =
  forallb (parentConsistentAt pid) l.
Proof.
  intros b.
  induction l as [|s l IHc IHl] using forest_ind; [reflexivity|].
  intros pid. simpl. rewrite IHl. f_equal.
  rewrite toggleCompletionForceAt_eq, (parentConsistentAt_unfold pid s).
  simpl. now rewrite IHc.
Qed.

Lemma deleteStepRecursive_consistent : forall sid l pid,
  forallb (parentConsistentAt pid) l = true ->
  forallb (parentConsistentAt pid) (deleteStepRecursive sid l) = true.
Proof.
  intros sid.
  induction l as [|s l IHc IHl] using forest_ind; [reflexivity|].
  intros pid Hl. simpl in Hl. apply andb_true_iff in Hl. destruct Hl as [Hs Hl].
  rewrite deleteStepRecursive_cons.
  destruct (String.eqb (id s) sid); [now apply IHl|].
  cbn [forallb]. rewrite (IHl pid Hl), andb_true_r.
  rewrite parentConsistentAt_unfold in Hs. apply andb_true_iff in Hs. destruct Hs as [Hp Hc].
  rewrite parentConsistentAt_children, Hp. simpl. now apply IHc.
Qed.

Lemma appendAt_consistent : forall p x l pid,
  parentConsistentAt (Some p) x = true ->
  forallb (parentConsistentAt pid) l = true ->
  forallb (parentConsistentAt pid) (map (rewriteAt p (appendChild x)) l) = true.
Proof.
  intros p x l pid Hx. apply rewriteAt_consistent.
  intros s _ E. split; [reflexivity|]. split; [reflexivity|].
  intros Hc. unfold appendChild. simpl children.
  rewrite forallb_app, Hc. simpl. rewrite E, Hx. reflexivity.
Qed.

Lemma snoc_consistent : forall x l,
  parentConsistentAt None x = true ->
  parentConsistent l = true -> parentConsistent (l ++ [x]) = true.
Proof.
  unfold parentConsistent. intros x l Hx Hl. rewrite forallb_app, Hl. simpl. now rewrite Hx.
Qed.

Lemma moved_consistent : forall l X p o,
  parentConsistent l = true -> In X (flatten l) ->
  parentConsistentAt p (movedStep X p o) = true.
Proof.
  intros l X p o Hl HX. unfold movedStep. simpl.
  apply andb_true_iff. split.
  - now apply optEqb_eq.
  - eapply parentConsistent_inside; eauto.
Qed.

(** X12: in a goal that satisfies I3, every [parentId] still names the step
    that contains it after Delete, ToggleCompletion and ReorderSiblings;
    after Insert through the provider (with no parent or a non-empty
    parent identifier); and, when the goal also satisfies I1, after Update
    through the provider and after MoveToParent to the root or below a
    non-empty identifier, whenever it returns. (DuplicateSubtree is the
    one operation that does not keep I3.) *)
Theorem operations_keep_parent_consistency :
  forall (goal : Goal),
    parentConsistent (steps goal) = true ->
    (forall now sid, parentConsistent (steps (deleteStep now goal sid)) = true) /\
    (forall now sid, parentConsistent (steps (toggleStepCompletion now goal sid)) = true) /\
    (forall now sid newIndex pid,
        parentConsistent (steps (reorderStep now goal sid newIndex pid)) = true) /\
    (forall gen k now newTitle newDescription parentStepId,
        parentStepId <> Some EmptyString ->
        parentConsistent
          (steps (fst (addStepToGoal gen k now goal newTitle newDescription parentStepId)))
        = true) /\
    (uniqueIds (steps goal) ->
     (forall now sid newTitle newDescription goal',
         updateStepInGoal now goal sid newTitle newDescription = Some goal' ->
         parentConsistent (steps goal') = true) /\
     (forall fuel now sid np goal',
         np <> Some EmptyString ->
         moveStepToParent fuel now goal sid np = Some goal' ->
         parentConsistent (steps goal') = true)).
Proof.
  intros goal Hpc. split; [|split; [|split; [|split]]].
  - intros now sid. simpl steps. now apply deleteStepRecursive_consistent.
  - intros now sid. simpl steps. unfold toggleCompletionRecursive, parentConsistent.
    rewrite (map_ext _ _ (toggleCompletionAt_skeleton sid)).
    apply rewriteAt_consistent; [|exact Hpc].
    intros s _ _. split; [reflexivity|]. split; [reflexivity|].
    unfold forceChildren. simpl children. simpl id.
    now rewrite toggleCompletionForce_consistent.
  - intros now sid newIndex pid. simpl steps. unfold reorderStepsAtSameLevel.
    assert (Hroot : parentConsistent match reorderList (steps goal) sid newIndex with
                                     | Some reorderedSteps => reorderedSteps
                                     | None => steps goal
                                     end = true).
    { destruct (reorderList (steps goal) sid newIndex) as [l'|] eqn:E; [|assumption].
      unfold parentConsistent. now rewrite (reorderList_consistent None _ _ _ _ E). }
    destruct pid as [p|]; [|exact Hroot].
    destruct (truthy (Some p)); [|exact Hroot].
    rewrite (map_ext _ _ (reorderWithinParentAt_skeleton sid newIndex p)).
    apply rewriteAt_consistent; [|exact Hpc].
    intros s _ _. unfold reorderChildren.
    destruct (reorderList (children s) sid newIndex) as [l'|] eqn:E; [|auto].
    split; [reflexivity|]. split; [reflexivity|]. simpl children. simpl id.
    now rewrite (reorderList_consistent _ _ _ _ _ E).
  - intros gen k now newTitle newDescription parentStepId Hne.
    unfold addStepToGoal, addStep. simpl fst.
    destruct parentStepId as [p|].
    + destruct (String.eqb_spec p EmptyString) as [Ep|Ep]; [congruence|].
      rewrite truthy_some by assumption. simpl steps. unfold addStepRecursive.
      rewrite (map_ext _ _ (addStepAt_skeleton _ p)).
      apply appendAt_consistent; [|exact Hpc].
      simpl. now rewrite String.eqb_refl.
    + simpl steps. now apply snoc_consistent.
  - intros Hu. split.
    + intros now sid newTitle newDescription goal'. unfold updateStepInGoal.
      destruct (findStep goal sid) as [X|] eqn:Hf; [|discriminate].
      intros [= <-]. unfold findStep in Hf. simpl steps.
      pose proof (findStepRecursive_some _ _ _ Hf) as [HXin HXid].
      unfold updateStepRecursive, parentConsistent.
      rewrite (map_ext _ _ (updateStepAt_skeleton _)).
      apply rewriteAt_consistent; [|exact Hpc].
      cbn [id]. intros s Hs E.
      assert (s = X).
      { pose proof (uniqueIds_find _ _ Hu Hs) as H1.
        pose proof (uniqueIds_find _ _ Hu HXin) as H2.
        rewrite E in H1. rewrite H1 in H2. now injection H2. }
      subst s. simpl. auto.
    + intros fuel now sid np goal' Hne. unfold moveStepToParent, findStep.
      destruct (findStepRecursive (steps goal) sid) as [X|] eqn:Hf; [|now intros [= <-]].
      pose proof (findStepRecursive_some _ _ _ Hf) as [HXin _].
      simpl steps. rewrite (removeStepFromParent_delete _ _ Hu).
      pose proof (deleteStepRecursive_consistent sid _ None Hpc) as Hdel.
      destruct np as [p|].
      * destruct (String.eqb_spec p EmptyString) as [Ep|Ep]; [congruence|].
        rewrite truthy_some by assumption.
        destruct (isDescendant fuel goal sid p) as [[|]|];
          [intros [= <-]; assumption| |discriminate].
        intros [= <-]. simpl steps. unfold addStepToNewParent.
        rewrite (map_ext _ _ (addStepToNewParentAt_skeleton _ p)).
        apply appendAt_consistent; [|exact Hdel].
        rewrite movedStep_eq. now apply (moved_consistent (steps goal)).
      * intros [= <-]. simpl steps. apply snoc_consistent; [|exact Hdel].
        rewrite movedStep_eq. now apply (moved_consistent (steps goal)).
Qed.

Lemma operations_keep_parent_consistency_witness :
  parentConsistent (steps chainGoal) = true /\
  parentConsistent (steps (deleteStep 7 chainGoal "b")) = true /\
  parentConsistent (steps (toggleStepCompletion 7 chainGoal "a")) = true.
Proof.
  split; [reflexivity|]. split.
  - exact (proj1 (operations_keep_parent_consistency chainGoal eq_refl) 7 "b"%string).
  - exact (proj1 (proj2 (operations_keep_parent_consistency chainGoal eq_refl)) 7 "a"%string).
Defined.

(* ================================================================== *)
(** ** ToggleCompletion twice *)

Lemma setCompletion_ids : forall D b l, ids (map (setCompletion D b) l) = ids l.
Proof.
  intros D b.
  induction l as [|s l IHc IHl] using forest_ind; [reflexivity|].
  cbn [map]. rewrite !ids_cons, setCompletion_eq. cbn [id children].
  now rewrite IHc, IHl.
Qed.

Lemma setCompletion_id : forall D b s, id (setCompletion D b s) = id s.
Proof. intros D b []. reflexivity. Qed.

Lemma setCompletion_children : forall D b s,
  children (setCompletion D b s) = map (setCompletion D b) (children s).
Proof. intros D b []. reflexivity. Qed.

Lemma setCompletion_find : forall D b l sid,
  findStepRecursive (map (setCompletion D b) l) sid =
  option_map (setCompletion D b) (findStepRecursive l sid).
Proof.
  intros D b.
  induction l as [|s l IHc IHl] using forest_ind; [reflexivity|].
  intros sid. cbn [map]. rewrite !findStepRecursive_cons.
  rewrite setCompletion_id, setCompletion_children.
  destruct (String.eqb (id s) sid); [reflexivity|].
  rewrite IHc. destruct (findStepRecursive (children s) sid); [reflexivity|]. apply IHl.
Qed.

Lemma setCompletion_twice : forall D b b' l,
  map (setCompletion D b) (map (setCompletion D b') l) = map (setCompletion D b) l.
Proof.
  intros D b b'.
  induction l as [|s l IHc IHl] using forest_ind; [reflexivity|].
  cbn [map]. rewrite IHl. f_equal.
  rewrite (setCompletion_eq D b' s), (setCompletion_eq D b s), setCompletion_eq.
  cbn [id title description completed parentId children order].
  rewrite IHc. destruct (memId (id s) D); reflexivity.
Qed.

Lemma setCompletion_same : forall D b l,
  (forall s, In s (flatten l) -> In (id s) D -> completed s = b) ->
  map (setCompletion D b) l = l.
Proof.
  intros D b.
  induction l as [|s l IHc IHl] using forest_ind; [reflexivity|].
  intros H. cbn [map]. rewrite IHl, setCompletion_eq, IHc.
  - destruct (memId (id s) D) eqn:E.
    + rewrite <- (H s); [now destruct s| |now apply memId_In].
      rewrite in_flatten_cons. auto.
    + now destruct s.
  - intros x Hx. apply H. rewrite in_flatten_cons. auto.
  - intros x Hx. apply H. rewrite in_flatten_cons. auto.
Qed.

Lemma uniqueIds_same_id : forall l s t,
  uniqueIds l -> In s (flatten l) -> In t (flatten l) -> id s = id t -> s = t.
Proof.
  intros l s t Hu Hs Ht E.
  pose proof (uniqueIds_find _ _ Hu Hs) as H1.
  pose proof (uniqueIds_find _ _ Hu Ht) as H2.
  rewrite E in H1. congruence.
Qed.

(** X13: in a goal that satisfies I1, toggling a found step X twice
    gives X its completion back and leaves every step below X with the
    completion that X had, whatever its own was; the second toggle undoes
    the first exactly when every step below X had the completion of X. *)
Theorem toggle_twice :
  forall (goal : Goal) (sid : string) (X : Step) (now now' : Z),
    uniqueIds (steps goal) ->
    findStep goal sid = Some X ->
    steps (toggleStepCompletion now' (toggleStepCompletion now goal sid) sid) =
      map (setCompletion (ids [X]) (completed X)) (steps goal) /\
    ((forall s, In s (flatten (children X)) -> completed s = completed X) <->
     steps (toggleStepCompletion now' (toggleStepCompletion now goal sid) sid) = steps goal).
Proof.
  intros goal sid X now now' Hu Hf. unfold findStep in Hf.
  pose proof (findStepRecursive_some _ _ _ Hf) as [HXin HXid].
  set (D := ids [X]).
  assert (HXD : memId (id X) D = true).
  { apply memId_In. unfold D. rewrite ids_single. now left. }
  assert (E2 : steps (toggleStepCompletion now' (toggleStepCompletion now goal sid) sid) =
               map (setCompletion D (completed X)) (steps goal)).
  { simpl steps.
    rewrite (toggleCompletionRecursive_setCompletion sid X _ Hu Hf). fold D.
    rewrite (toggleCompletionRecursive_setCompletion sid (setCompletion D (negb (completed X)) X)).
    - replace (ids [setCompletion D (negb (completed X)) X]) with D.
      2:{ symmetry. apply (setCompletion_ids D (negb (completed X)) [X]). }
      rewrite setCompletion_eq. cbn [completed]. rewrite HXD, negb_involutive.
      apply setCompletion_twice.
    - unfold uniqueIds. now rewrite setCompletion_ids.
    - rewrite setCompletion_find, Hf. reflexivity. }
  split; [exact E2|]. rewrite E2. split.
  - intros Hall. apply setCompletion_same. intros s Hs HsD.
    unfold D in HsD. unfold ids in HsD. rewrite in_map_iff in HsD.
    destruct HsD as (t & Hid & Ht).
    assert (HtL : In t (flatten (steps goal))).
    { rewrite flatten_single in Ht. destruct Ht as [Ht|Ht]; [now subst t|].
      now apply (in_flatten_child _ X). }
    assert (s = t) by (eapply uniqueIds_same_id; eauto). subst t.
    rewrite flatten_single in Ht. destruct Ht as [Ht|Ht]; [now subst s|now apply Hall].
  - intros Heq s Hs.
    assert (HsL : In s (flatten (steps goal))) by now apply (in_flatten_child _ X).
    assert (HsD : memId (id s) D = true).
    { apply memId_In. unfold D. rewrite ids_single. right. now apply in_flatten_ids. }
    pose proof (setCompletion_listing D (completed X) (steps goal)) as Hl.
    rewrite Heq in Hl.
    assert (Hpair : In (id s, completed s)
                       (map (fun s0 => (id s0, completed s0)) (flatten (steps goal))))
      by (apply (in_map (fun s0 => (id s0, completed s0))); assumption).
    rewrite Hl in Hpair. rewrite in_map_iff in Hpair.
    destruct Hpair as (t & Ht & HtL). injection Ht as Hid Hc.
    assert (t = s) by (eapply uniqueIds_same_id; eauto). subst t.
    rewrite HsD in Hc. now symmetry.
Qed.

Lemma toggle_twice_witness :
  uniqueIds (steps chainGoal) /\
  steps (toggleStepCompletion 8 (toggleStepCompletion 7 chainGoal "b") "b") = steps chainGoal.
Proof.
  split; [exact chainGoal_uniqueIds|].
  apply (proj2 (toggle_twice chainGoal "b"
                  (node "b" (Some "a"%string) 0 [ leaf "c" (Some "b"%string) 0 ])
                  7 8 chainGoal_uniqueIds eq_refl)).
  intros s Hs. vm_compute in Hs. destruct Hs as [<-|[]]. reflexivity.
Defined.

(* ================================================================== *)
(** ** The counters of the goal card *)

Lemma countTotal_fold : forall l acc,
  fold_left (fun a s => countTotalAt s a) l acc =
  acc + Z.of_nat (List.length (flatten l)) - Z.of_nat (List.length l).
Proof.
  induction l as [|s l IHc IHl] using forest_ind; intros acc; [simpl; lia|].
  cbn [fold_left]. rewrite IHl, flatten_length_cons.
  assert (Hs : countTotalAt s acc = acc + Z.of_nat (List.length (flatten (children s)))).
  { destruct s as [i t d c p cs o]. cbn [countTotalAt children] in *.
    destruct cs as [|c0 cs]; [simpl; lia|]. rewrite IHc. lia. }
  rewrite Hs. cbn [List.length]. lia.
Qed.

Lemma countTotalRecursive_eq : forall l count,
  countTotalRecursive l count = count + Z.of_nat (List.length (flatten l)).
Proof. intros. unfold countTotalRecursive. rewrite countTotal_fold. lia. Qed.

Lemma countCompleted_fold : forall l acc,
  fold_left (fun a s => countCompletedAt s a) l acc =
  acc + Z.of_nat (List.length (filter completed (flatten l))).
Proof.
  induction l as [|s l IHc IHl] using forest_ind; intros acc; [simpl; lia|].
  cbn [fold_left]. rewrite IHl, flatten_cons. cbn [filter]. rewrite filter_app.
  assert (Hs : countCompletedAt s acc =
               acc + (if completed s then 1 else 0)
               + Z.of_nat (List.length (filter completed (flatten (children s))))).
  { destruct s as [i t d c p cs o]. cbn [countCompletedAt children completed] in *.
    destruct cs as [|c0 cs].
    - destruct c; simpl; lia.
    - rewrite IHc. destruct c; lia. }
  rewrite Hs. destruct (completed s); cbn [List.length]; rewrite length_app; lia.
Qed.

(** X14: the two counters of the goal card are the number of steps of
    the tree, at every depth, and the number of those that are completed;
    so the completed count is between 0 and the total (the progress is
    never above 100%), the total is 0 exactly for a goal without steps,
    and Update, ToggleCompletion and ReorderSiblings leave the total as it
    was. *)
Theorem step_counters :
  forall (goal : Goal),
    countTotalSteps goal = Z.of_nat (List.length (flatten (steps goal))) /\
    countCompletedSteps goal =
      Z.of_nat (List.length (filter completed (flatten (steps goal)))) /\
    0 <= countCompletedSteps goal <= countTotalSteps goal /\
    (countTotalSteps goal = 0 <-> steps goal = []) /\
    (forall now sid, countTotalSteps (toggleStepCompletion now goal sid) = countTotalSteps goal) /\
    (forall now u, countTotalSteps (updateStep now goal u) = countTotalSteps goal) /\
    (forall now sid newIndex pid,
        countTotalSteps (reorderStep now goal sid newIndex pid) = countTotalSteps goal).
Proof.
  intros goal.
  assert (Ht : forall g, countTotalSteps g = Z.of_nat (List.length (flatten (steps g)))).
  { intros g. unfold countTotalSteps. rewrite countTotalRecursive_eq. lia. }
  assert (Hc : countCompletedSteps goal =
               Z.of_nat (List.length (filter completed (flatten (steps goal))))).
  { unfold countCompletedSteps, countCompletedRecursive. rewrite countCompleted_fold. lia. }
  split; [apply Ht|]. split; [exact Hc|]. split; [|split; [|split; [|split]]].
  - rewrite Hc, Ht. pose proof (filter_length_le completed (flatten (steps goal))). lia.
  - rewrite Ht. split.
    + intros H0. destruct (steps goal) as [|s l]; [reflexivity|].
      rewrite flatten_length_cons in H0. lia.
    + intros ->. reflexivity.
  - intros now sid. rewrite !Ht. f_equal.
    rewrite <- (length_map unflagged), <- (length_map unflagged (flatten (steps goal))).
    simpl steps. now rewrite toggleCompletionRecursive_unflagged.
  - intros now u. rewrite !Ht. f_equal.
    rewrite <- (length_map skeleton), <- (length_map skeleton (flatten (steps goal))).
    simpl steps. now rewrite updateStepRecursive_skeleton.
  - intros now sid newIndex pid. rewrite !Ht. f_equal.
    rewrite <- (length_map unordered), <- (length_map unordered (flatten (steps goal))).
    apply Permutation_length. simpl steps. apply reorderStepsAtSameLevel_listing.
Qed.

(** X15: in a goal that satisfies I1, Delete of a found step X lowers
    the total by the size of X's subtree, and so does no other step
    disappear; when the goal also satisfies I3, DuplicateSubtree of X
    raises the total by the size of X's subtree. *)
Theorem step_counter_after_delete_and_duplicate :
  forall (goal : Goal) (sid : string) (X : Step),
    uniqueIds (steps goal) ->
    findStep goal sid = Some X ->
    (forall now,
        countTotalSteps (deleteStep now goal sid) =
        countTotalSteps goal - Z.of_nat (List.length (flatten [X]))) /\
    (parentConsistent (steps goal) = true ->
     forall gen k now,
        countTotalSteps (fst (duplicateStep gen k now goal sid)) =
        countTotalSteps goal + Z.of_nat (List.length (flatten [X]))).
Proof.
  intros goal sid X Hu Hf.
  assert (Ht : forall g, countTotalSteps g = Z.of_nat (List.length (flatten (steps g)))).
  { intros g. unfold countTotalSteps. rewrite countTotalRecursive_eq. lia. }
  unfold findStep in Hf. pose proof (findStepRecursive_some _ _ _ Hf) as [HXin HXid].
  split.
  - intros now. rewrite !Ht. simpl steps.
    pose proof (deleteStepRecursive_listing _ id sid X _ (fun _ _ => eq_refl) Hu Hf) as Hp.
    apply Permutation_length in Hp. rewrite length_app, !length_map in Hp. lia.
  - intros Hpc gen k now. rewrite !Ht.
    unfold duplicateStep, findStep. rewrite Hf.
    destruct (duplicateStepRecursive_copy gen X k) as (c & Ec & _ & _ & Ic & _).
    rewrite Ec.
    assert (Hsize : forall v, List.length (flatten [setOrder c v]) = List.length (flatten [X])).
    { intros v. rewrite <- (length_map id (flatten [setOrder c v])).
      change (map id (flatten [setOrder c v])) with (ids [setOrder c v]).
      rewrite ids_single. cbn [id children setOrder]. rewrite <- ids_single, Ic.
      now rewrite length_map, length_seq. }
    assert (Hroot : forall v,
              Z.of_nat (List.length (flatten (steps goal ++ [setOrder c v]))) =
              Z.of_nat (List.length (flatten (steps goal)))
              + Z.of_nat (List.length (flatten [X]))).
    { intros v. rewrite flatten_app, length_app, Hsize. lia. }
    destruct (parentId X) as [pid|] eqn:Hpar; [|apply Hroot].
    destruct (truthy (Some pid)); [|apply Hroot].
    cbn [fst]. simpl steps.
    destruct (parentConsistent_member _ _ Hpc X HXin) as [[_ Hp]|(P & HP & _ & Hp)];
      [congruence|].
    assert (pid = id P) by congruence. subst pid.
    pose proof (uniqueIds_find _ _ Hu HP) as HfP.
    unfold addDuplicatedStepToParent.
    rewrite (map_ext _ _ (addDuplicatedStepToParentAt_skeleton _ (id P))).
    match goal with
    | |- context [rewriteAt (id P) (appendChild (setOrder c ?v))] =>
        pose proof (rewriteAt_append_listing _ id (id P) (setOrder c v) P _
                      (fun _ _ => eq_refl) Hu HfP) as Hq;
        apply Permutation_length in Hq;
        rewrite length_app, !length_map in Hq; rewrite Hq;
        rewrite (Hsize v)
    end.
    lia.
Qed.

Lemma step_counter_witness :
  uniqueIds (steps chainGoal) /\
  countTotalSteps (deleteStep 7 chainGoal "b") = countTotalSteps chainGoal - 2.
Proof.
  split; [exact chainGoal_uniqueIds|].
  exact (proj1 (step_counter_after_delete_and_duplicate chainGoal "b"
                  (node "b" (Some "a"%string) 0 [ leaf "c" (Some "b"%string) 0 ])
                  chainGoal_uniqueIds eq_refl) 7).
Defined.

(* ================================================================== *)
(** ** Droppable identifiers and the drag handlers *)

Lemma lastChar_append : forall p t,
  t <> EmptyString -> lastChar (String.append p t) = lastChar t.
Proof.
  induction p as [|c p IH]; intros t Ht; [reflexivity|].
  cbn [String.append lastChar]. rewrite IH by assumption.
  destruct (String.append p t) eqn:E; [|reflexivity].
  destruct p; [simpl in E; contradiction|discriminate].
Qed.

Lemma children_droppable_is_not_root : forall p gid,
  childrenDroppableId p <> rootDroppableId gid.
Proof.
  intros p gid H. apply (f_equal lastChar) in H.
  unfold childrenDroppableId, rootDroppableId in H.
  rewrite !lastChar_append in H by discriminate. discriminate.
Qed.

Lemma beforeHyphen_append : forall p t,
  beforeHyphen (String.append p (String "-"%char t)) = beforeHyphen p.
Proof.
  induction p as [|c p IH]; intros t; [reflexivity|].
  cbn [String.append beforeHyphen]. destruct (Ascii.eqb c "-"%char); [reflexivity|].
  now rewrite IH.
Qed.

Lemma beforeHyphen_fixed : forall p, beforeHyphen p = p <-> hasHyphen p = false.
Proof.
  induction p as [|c p IH]; [split; reflexivity|].
  cbn [beforeHyphen hasHyphen]. destruct (Ascii.eqb c "-"%char); cbn [orb].
  - split; discriminate.
  - rewrite <- IH. split; [intros [= H]; exact H|intros ->; reflexivity].
Qed.

Lemma string_length_append : forall p t,
  String.length (String.append p t) = (String.length p + String.length t)%nat.
Proof. induction p as [|c p IH]; intros t; simpl; [reflexivity|]. now rewrite IH. Qed.

Lemma append_left_injective : forall t p q,
  String.append p t = String.append q t -> p = q.
Proof.
  intros t p q H.
  assert (Hlen : String.length p = String.length q).
  { apply (f_equal String.length) in H. rewrite !string_length_append in H. lia. }
  revert q H Hlen. induction p as [|c p IH]; intros [|d q] H Hlen; try discriminate.
  - reflexivity.
  - cbn [String.append] in H. injection H as -> H. f_equal. apply IH; [assumption|].
    simpl in Hlen. lia.
Qed.

(** X16: the droppable of a step's children stands for its parent as far
    as the identifier goes up to its first hyphen: for an identifier
    without a hyphen [handleDragEnd] recovers the identifier itself, for
    one with a hyphen it recovers a proper prefix; the droppable of the
    root steps always stands for no parent, and no droppable of children
    is taken for it. So a drop elsewhere in the same list of children of
    a hyphen-free step p asks for [reorderSteps] with parent p and the
    destination index, a drop in the list of another step q for
    [moveStepToParent] below q, a drop in the root list for
    [moveStepToParent] with no parent, and a drop at the place of
    origin, or outside every list, for nothing. *)
Theorem handleDragEnd_dispatch :
  forall (goal : Goal) (p q d : string) (i j : Z),
    hasHyphen p = false ->
    hasHyphen q = false ->
    droppableParent goal (rootDroppableId (goalId goal)) = None /\
    droppableParent goal (childrenDroppableId p) = Some p /\
    (forall r, droppableParent goal (childrenDroppableId r) = Some (beforeHyphen r) /\
               (hasHyphen r = true -> beforeHyphen r <> r)) /\
    (i <> j ->
     handleDragEnd goal
       (mkDropResult (mkLocation (childrenDroppableId p) i)
                     (Some (mkLocation (childrenDroppableId p) j)) d)
     = CallReorderSteps (goalId goal) d j (Some p)) /\
    (i <> j ->
     handleDragEnd goal
       (mkDropResult (mkLocation (rootDroppableId (goalId goal)) i)
                     (Some (mkLocation (rootDroppableId (goalId goal)) j)) d)
     = CallReorderSteps (goalId goal) d j None) /\
    (p <> q ->
     handleDragEnd goal
       (mkDropResult (mkLocation (childrenDroppableId p) i)
                     (Some (mkLocation (childrenDroppableId q) j)) d)
     = CallMoveStepToParent (goalId goal) d (Some q)) /\
    handleDragEnd goal
      (mkDropResult (mkLocation (childrenDroppableId p) i)
                    (Some (mkLocation (rootDroppableId (goalId goal)) j)) d)
    = CallMoveStepToParent (goalId goal) d None /\
    handleDragEnd goal
      (mkDropResult (mkLocation (rootDroppableId (goalId goal)) i)
                    (Some (mkLocation (childrenDroppableId q) j)) d)
    = CallMoveStepToParent (goalId goal) d (Some q) /\
    (forall loc, handleDragEnd goal (mkDropResult loc (Some loc) d) = NoAction) /\
    (forall loc, handleDragEnd goal (mkDropResult loc None d) = NoAction).
Proof.
  intros goal p q d i j Hp Hq.
  assert (Hroot : droppableParent goal (rootDroppableId (goalId goal)) = None).
  { unfold droppableParent. now rewrite String.eqb_refl. }
  assert (Hchild : forall r, droppableParent goal (childrenDroppableId r)
                             = Some (beforeHyphen r)).
  { intros r. unfold droppableParent.
    destruct (String.eqb_spec (childrenDroppableId r) (rootDroppableId (goalId goal))) as [E|E].
    - exfalso. eapply children_droppable_is_not_root; eauto.
    - unfold childrenDroppableId. now rewrite beforeHyphen_append. }
  assert (Hfix : forall r, hasHyphen r = false -> beforeHyphen r = r)
    by (intros r; apply beforeHyphen_fixed).
  assert (Hneq : forall r, String.eqb (childrenDroppableId r) (rootDroppableId (goalId goal))
                           = false).
  { intros r. apply String.eqb_neq. apply children_droppable_is_not_root. }
  split; [exact Hroot|]. split; [now rewrite Hchild, Hfix|].
  split.
  { intros r. split; [apply Hchild|]. intros Hr E.
    apply beforeHyphen_fixed in E. congruence. }
  split.
  { intros Hij. unfold handleDragEnd. cbn [destination source droppableId index draggableId].
    rewrite String.eqb_refl. apply Z.eqb_neq in Hij. rewrite Hij. cbn [andb].
    now rewrite Hchild, Hfix. }
  split.
  { intros Hij. unfold handleDragEnd. cbn [destination source droppableId index draggableId].
    rewrite String.eqb_refl. apply Z.eqb_neq in Hij. rewrite Hij. cbn [andb].
    now rewrite Hroot. }
  split.
  { intros Hpq. unfold handleDragEnd. cbn [destination source droppableId index draggableId].
    replace (String.eqb (childrenDroppableId p) (childrenDroppableId q)) with false.
    2:{ symmetry. apply String.eqb_neq. intro E. apply Hpq.
        eapply append_left_injective; eauto. }
    cbn [andb]. now rewrite Hchild, Hfix. }
  split.
  { unfold handleDragEnd. cbn [destination source droppableId index draggableId].
    rewrite Hneq. cbn [andb]. now rewrite Hroot. }
  split.
  { unfold handleDragEnd. cbn [destination source droppableId index draggableId].
    rewrite String.eqb_sym, Hneq. cbn [andb]. now rewrite Hchild, Hfix. }
  split.
  { intros loc. unfold handleDragEnd. cbn [destination source].
    now rewrite String.eqb_refl, Z.eqb_refl. }
  intros loc. reflexivity.
Qed.

Lemma handleDragEnd_dispatch_witness :
  hasHyphen "b" = false /\
  hasHyphen "d" = false /\
  handleDragEnd chainGoal
    (mkDropResult (mkLocation (childrenDroppableId "b") 0)
                  (Some (mkLocation (childrenDroppableId "d") 0)) "c")
  = CallMoveStepToParent "g" "c" (Some "d"%string).
Proof.
  split; [reflexivity|]. split; [reflexivity|].
  refine (proj1 (proj2 (proj2 (proj2 (proj2 (proj2
           (handleDragEnd_dispatch chainGoal "b" "d" "c" 0 0 eq_refl eq_refl)))))) _).
  discriminate.
Defined.

(* ================================================================== *)
(** ** The provider: failure and frame *)

Lemma findGoal_some : forall gs gid g,
  findGoal gs gid = Some g -> In g gs /\ goalId g = gid.
Proof.
  intros gs gid g H. unfold findGoal in H. apply find_some in H.
  destruct H as [Hin E]. apply String.eqb_eq in E. auto.
Qed.

Lemma sameBut_refl : forall gid st e, sameBut gid st (mkProvider (goals st) e).
Proof. intros. split; reflexivity. Qed.

Lemma sameBut_replace : forall gid st g' e,
  goalId g' = gid -> sameBut gid st (mkProvider (replaceGoal (goals st) gid g') e).
Proof.
  intros gid st g' e Hid. unfold sameBut, otherGoals, replaceGoal. cbn [goals].
  rewrite !map_map. split; apply map_ext; intros g;
    destruct (String.eqb_spec (goalId g) gid) as [E|E]; try congruence.
  - now rewrite Hid, String.eqb_refl.
  - apply String.eqb_neq in E. now rewrite E.
Qed.

Lemma ctxStepOperation_frame : forall message transform stored st gid,
  (forall g, goalId (transform g) = goalId g) ->
  sameBut gid st (ctxStepOperation message transform stored st gid).
Proof.
  intros message transform stored st gid Hid. unfold ctxStepOperation, failWith.
  destruct (findGoal (goals st) gid) as [g|] eqn:Hg; [|apply sameBut_refl].
  destruct stored; [|apply sameBut_refl].
  apply sameBut_replace. rewrite Hid. now apply findGoal_some in Hg.
Qed.

Lemma moveStepToParent_goalId : forall fuel now goal sid np goal',
  moveStepToParent fuel now goal sid np = Some goal' -> goalId goal' = goalId goal.
Proof.
  intros fuel now goal sid np goal'. unfold moveStepToParent.
  destruct (findStep goal sid); [|now intros [= <-]].
  destruct np as [p|]; [|now intros [= <-]].
  destruct (truthy (Some p)); [|now intros [= <-]].
  destruct (isDescendant fuel goal sid p) as [[|]|]; [| |discriminate]; now intros [= <-].
Qed.

Lemma duplicateStep_goalId : forall gen k now goal sid,
  goalId (fst (duplicateStep gen k now goal sid)) = goalId goal.
Proof.
  intros. unfold duplicateStep. destruct (findStep goal sid) as [X|]; [|reflexivity].
  destruct (duplicateStepRecursive gen X k) as [c k'].
  destruct (parentId X) as [pid|]; [|reflexivity].
  destruct (truthy (Some pid)); reflexivity.
Qed.

Lemma addStep_goalId : forall now goal step parent,
  goalId (addStep now goal step parent) = goalId goal.
Proof.
  intros. unfold addStep. destruct parent as [p|]; [|reflexivity].
  destruct (truthy (Some p)); reflexivity.
Qed.

(** X17: whatever the state, the goal identifier and the arguments,
    and whether or not the store accepts, a step operation of the
    provider (add, update, delete, toggle, reorder, move, duplicate) and
    [updateGoalDetails] leave the list of goals with the same identifiers
    at the same places, and leave every goal that is not named by the
    given goal identifier exactly as it was. *)
Theorem provider_operations_touch_one_goal :
  forall (st : Provider) (gid sid : string) (now : Z) (stored : bool),
    (forall gen k newTitle newDescription parent,
        sameBut gid st
          (fst (ctxAddStep gen k now stored st gid newTitle newDescription parent))) /\
    (forall newTitle newDescription,
        sameBut gid st (ctxUpdateStep now stored st gid sid newTitle newDescription)) /\
    sameBut gid st (ctxDeleteStep now stored st gid sid) /\
    sameBut gid st (ctxToggleStepCompletion now stored st gid sid) /\
    (forall newIndex parent,
        sameBut gid st (ctxReorderSteps now stored st gid sid newIndex parent)) /\
    (forall fuel np, sameBut gid st (ctxMoveStepToParent fuel now stored st gid sid np)) /\
    (forall gen k, sameBut gid st (fst (ctxDuplicateStep gen k now stored st gid sid))) /\
    (forall newTitle newDescription,
        sameBut gid st (ctxUpdateGoalDetails now stored st gid newTitle newDescription)).
Proof.
  intros st gid sid now stored.
  split; [|split; [|split; [|split; [|split; [|split; [|split]]]]]].
  - intros gen k newTitle newDescription parent. unfold ctxAddStep.
    destruct (findGoal (goals st) gid) as [g|] eqn:Hg; [|apply sameBut_refl].
    unfold addStepToGoal. destruct stored; cbn [fst]; [|apply sameBut_refl].
    apply sameBut_replace.
    rewrite addStep_goalId. now apply findGoal_some in Hg.
  - intros newTitle newDescription. unfold ctxUpdateStep, updateStepInGoal.
    destruct (findGoal (goals st) gid) as [g|] eqn:Hg; [|apply sameBut_refl].
    destruct (findStep g sid); [|apply sameBut_refl].
    destruct stored; [|apply sameBut_refl].
    apply sameBut_replace. now apply findGoal_some in Hg.
  - now apply ctxStepOperation_frame.
  - now apply ctxStepOperation_frame.
  - intros. now apply ctxStepOperation_frame.
  - intros fuel np. unfold ctxMoveStepToParent, failWith.
    destruct (findGoal (goals st) gid) as [g|] eqn:Hg; [|apply sameBut_refl].
    destruct (moveStepToParent fuel now g sid np) as [g'|] eqn:Hm; [|apply sameBut_refl].
    destruct stored; [|apply sameBut_refl].
    apply sameBut_replace. rewrite (moveStepToParent_goalId _ _ _ _ _ _ Hm).
    now apply findGoal_some in Hg.
  - intros gen k. unfold ctxDuplicateStep, failWith.
    destruct (findGoal (goals st) gid) as [g|] eqn:Hg; [|apply sameBut_refl].
    pose proof (duplicateStep_goalId gen k now g sid) as Hid.
    destruct (duplicateStep gen k now g sid) as [g' k']. cbn [fst] in Hid.
    destruct stored; cbn [fst]; [|apply sameBut_refl].
    apply sameBut_replace. rewrite Hid. now apply findGoal_some in Hg.
  - intros newTitle newDescription. unfold ctxUpdateGoalDetails, failWith.
    destruct (findGoal (goals st) gid) as [g|] eqn:Hg; [|apply sameBut_refl].
    destruct stored; [|apply sameBut_refl].
    apply sameBut_replace. now apply findGoal_some in Hg.
Qed.

(** X18: when the goal identifier names no goal of the provider, or the
    store rejects, an operation of the provider changes no goal: the
    state that comes back has the goals as they were and the error message
    of the operation. *)
Theorem provider_failure_keeps_goals :
  forall (st : Provider) (gid sid : string) (now : Z) (stored : bool),
    findGoal (goals st) gid = None \/ stored = false ->
    ctxDeleteStep now stored st gid sid
      = failWith st "Failed to delete step. Please try again later." /\
    ctxToggleStepCompletion now stored st gid sid
      = failWith st "Failed to toggle step completion. Please try again later." /\
    (forall newIndex parent,
        ctxReorderSteps now stored st gid sid newIndex parent
        = failWith st "Failed to reorder steps. Please try again later.") /\
    (forall fuel np,
        ctxMoveStepToParent fuel now stored st gid sid np
        = failWith st "Failed to move step. Please try again later.") /\
    (forall gen k,
        fst (ctxDuplicateStep gen k now stored st gid sid)
        = failWith st "Failed to duplicate step. Please try again later.") /\
    (forall newTitle newDescription,
        ctxUpdateGoalDetails now stored st gid newTitle newDescription
        = failWith st "Failed to update goal. Please try again later.") /\
    (forall gen k newTitle newDescription parent,
        fst (ctxAddStep gen k now stored st gid newTitle newDescription parent)
        = failWith st "Failed to add step. Please try again later.") /\
    (forall newTitle newDescription,
        ctxUpdateStep now stored st gid sid newTitle newDescription
        = failWith st "Failed to update step. Please try again later.") /\
    (stored = false ->
     (forall gen k created updated newTitle newDescription,
         fst (ctxAddGoal gen k created updated stored st newTitle newDescription)
         = failWith st "Failed to add goal. Please try again later.") /\
     ctxDeleteGoal stored st gid
       = failWith st "Failed to delete goal. Please try again later." /\
     (forall src dst updatedGoals,
         reorderGoals (goals st) src dst = Some updatedGoals ->
         ctxReorderGoals stored st src dst
         = Some (failWith st "Failed to reorder goals. Please try again later."))).
Proof.
  intros st gid sid now stored Hfail.
  assert (Hop : forall message transform,
            ctxStepOperation message transform stored st gid = failWith st message).
  { intros message transform. unfold ctxStepOperation.
    destruct Hfail as [Hg| ->]; [now rewrite Hg|].
    destruct (findGoal (goals st) gid); reflexivity. }
  split; [apply Hop|]. split; [apply Hop|]. split; [intros; apply Hop|].
  split.
  { intros fuel np. unfold ctxMoveStepToParent.
    destruct Hfail as [Hg| ->]; [now rewrite Hg|].
    destruct (findGoal (goals st) gid) as [g|]; [|reflexivity].
    destruct (moveStepToParent fuel now g sid np); reflexivity. }
  split.
  { intros gen k. unfold ctxDuplicateStep.
    destruct Hfail as [Hg| ->]; [now rewrite Hg|].
    destruct (findGoal (goals st) gid) as [g|]; [|reflexivity].
    destruct (duplicateStep gen k now g sid); reflexivity. }
  split.
  { intros newTitle newDescription. unfold ctxUpdateGoalDetails.
    destruct Hfail as [Hg| ->]; [now rewrite Hg|].
    destruct (findGoal (goals st) gid); reflexivity. }
  split.
  { intros gen k newTitle newDescription parent. unfold ctxAddStep.
    destruct Hfail as [Hg| ->]; [now rewrite Hg|].
    destruct (findGoal (goals st) gid) as [g|]; [|reflexivity].
    destruct (addStepToGoal gen k now g newTitle newDescription parent); reflexivity. }
  split.
  { intros newTitle newDescription. unfold ctxUpdateStep.
    destruct Hfail as [Hg| ->]; [now rewrite Hg|].
    destruct (findGoal (goals st) gid) as [g|]; [|reflexivity].
    destruct (updateStepInGoal now g sid newTitle newDescription); reflexivity. }
  intros ->. split; [reflexivity|]. split; [reflexivity|].
  intros src dst updatedGoals Hr. unfold ctxReorderGoals. now rewrite Hr.
Qed.

Lemma provider_failure_witness :
  (findGoal (goals (mkProvider [ chainGoal ] None)) "zz" = None \/ true = false) /\
  ctxDeleteStep 7 true (mkProvider [ chainGoal ] None) "zz" "a"
    = failWith (mkProvider [ chainGoal ] None) "Failed to delete step. Please try again later.".
Proof.
  assert (H : findGoal (goals (mkProvider [ chainGoal ] None)) "zz" = None \/ true = false)
    by (left; reflexivity).
  split; [exact H|].
  exact (proj1 (provider_failure_keeps_goals (mkProvider [ chainGoal ] None) "zz" "a" 7 true H)).
Defined.

(* ================================================================== *)
(** ** The provider: the engine applied in place, and the list of goals *)

Lemma findGoal_present : forall gs gid,
  In gid (map goalId gs) -> exists g, findGoal gs gid = Some g.
Proof.
  intros gs gid Hin. apply in_map_iff in Hin. destruct Hin as (g & Hid & Hg).
  destruct (findGoal gs gid) as [g0|] eqn:E; [now exists g0|].
  unfold findGoal in E. apply (find_none _ _ E) in Hg.
  rewrite Hid, String.eqb_refl in Hg. discriminate.
Qed.

Lemma unique_goal : forall gs g1 g2,
  NoDup (map goalId gs) -> In g1 gs -> In g2 gs -> goalId g1 = goalId g2 -> g1 = g2.
Proof.
  induction gs as [|a gs IH]; intros g1 g2 Hnd H1 H2 Hid; [destruct H1|].
  simpl in Hnd. inversion Hnd as [|? ? Hnot Hnd']; subst.
  destruct H1 as [<-|H1], H2 as [<-|H2].
  - reflexivity.
  - exfalso. apply Hnot. rewrite Hid. now apply in_map.
  - exfalso. apply Hnot. rewrite <- Hid. now apply in_map.
  - now apply IH.
Qed.

Lemma replaceGoal_in_place : forall gs gid g0 f,
  NoDup (map goalId gs) -> findGoal gs gid = Some g0 ->
  replaceGoal gs gid (f g0) = map (fun g => if String.eqb (goalId g) gid then f g else g) gs.
Proof.
  intros gs gid g0 f Hnd Hg. apply findGoal_some in Hg. destruct Hg as [Hin Hid].
  unfold replaceGoal. apply map_ext_in. intros g Hgin.
  destruct (String.eqb_spec (goalId g) gid) as [E|E]; [|reflexivity].
  f_equal. apply (unique_goal gs); auto. congruence.
Qed.

(** X19: when the goals of the provider have pairwise distinct
    identifiers, the goal identifier names one of them and the store
    accepts, every operation of the provider on a goal is the operation of
    the engine applied to that goal where it stands: all other goals and
    the error message stay as they were (a success does not clear an
    earlier error message). *)
Theorem provider_applies_engine_in_place :
  forall (st : Provider) (gid sid : string) (now : Z),
    NoDup (map goalId (goals st)) ->
    In gid (map goalId (goals st)) ->
    (forall gen k title description parent,
        fst (ctxAddStep gen k now true st gid title description parent)
        = inPlace st gid (fun g => fst (addStepToGoal gen k now g title description parent))) /\
    (forall title description g g',
        findGoal (goals st) gid = Some g ->
        updateStepInGoal now g sid title description = Some g' ->
        ctxUpdateStep now true st gid sid title description
        = inPlace st gid (fun _ => g')) /\
    ctxDeleteStep now true st gid sid = inPlace st gid (fun g => deleteStep now g sid) /\
    ctxToggleStepCompletion now true st gid sid
      = inPlace st gid (fun g => toggleStepCompletion now g sid) /\
    (forall newIndex parent,
        ctxReorderSteps now true st gid sid newIndex parent
        = inPlace st gid (fun g => reorderStep now g sid newIndex parent)) /\
    (forall fuel np g g',
        findGoal (goals st) gid = Some g ->
        moveStepToParent fuel now g sid np = Some g' ->
        ctxMoveStepToParent fuel now true st gid sid np = inPlace st gid (fun _ => g')) /\
    (forall gen k,
        fst (ctxDuplicateStep gen k now true st gid sid)
        = inPlace st gid (fun g => fst (duplicateStep gen k now g sid))) /\
    (forall title description,
        ctxUpdateGoalDetails now true st gid title description
        = inPlace st gid (withDetails title description now)).
Proof.
  intros st gid sid now Hnd Hin.
  destruct (findGoal_present _ _ Hin) as [g0 Hg0].
  assert (Hop : forall message transform,
            ctxStepOperation message transform true st gid = inPlace st gid transform).
  { intros message transform. unfold ctxStepOperation, inPlace. rewrite Hg0.
    now rewrite (replaceGoal_in_place _ _ g0 transform Hnd Hg0). }
  split; [|split; [|split; [|split; [|split; [|split; [|split]]]]]].
  - intros gen k title description parent. unfold ctxAddStep, inPlace. rewrite Hg0.
    rewrite <- (replaceGoal_in_place _ _ g0
                  (fun g => fst (addStepToGoal gen k now g title description parent)) Hnd Hg0).
    unfold addStepToGoal. reflexivity.
  - intros title description g g' Hg Hu. unfold ctxUpdateStep, inPlace.
    rewrite Hg, Hu. reflexivity.
  - apply Hop.
  - apply Hop.
  - intros. apply Hop.
  - intros fuel np g g' Hg Hm. unfold ctxMoveStepToParent, inPlace.
    rewrite Hg, Hm. reflexivity.
  - intros gen k. unfold ctxDuplicateStep, inPlace. rewrite Hg0.
    rewrite <- (replaceGoal_in_place _ _ g0
                  (fun g => fst (duplicateStep gen k now g sid)) Hnd Hg0).
    destruct (duplicateStep gen k now g0 sid) as [g' k']. reflexivity.
  - intros title description. unfold ctxUpdateGoalDetails, inPlace. rewrite Hg0.
    now rewrite <- (replaceGoal_in_place _ _ g0 (withDetails title description now) Hnd Hg0).
Qed.

Lemma provider_applies_engine_in_place_witness :
  ctxDeleteStep 7 true (mkProvider [ mkGoal "h" "other" None 0 0 [] 0; chainGoal ]%string None)
                (goalId chainGoal) "b"
  = inPlace (mkProvider [ mkGoal "h" "other" None 0 0 [] 0; chainGoal ]%string None)
            (goalId chainGoal) (fun g => deleteStep 7 g "b").
Proof.
  assert (Hnd : NoDup (map goalId
                  (goals (mkProvider [ mkGoal "h" "other" None 0 0 [] 0; chainGoal ]%string
                                     None)))).
  { vm_compute. constructor; [|constructor; [intros []|constructor]].
    intros [H|[]]. discriminate H. }
  assert (Hin : In (goalId chainGoal)
                   (map goalId
                      (goals (mkProvider [ mkGoal "h" "other" None 0 0 [] 0; chainGoal ]%string
                                         None)))).
  { vm_compute. right. left. reflexivity. }
  exact (proj1 (proj2 (proj2
    (provider_applies_engine_in_place
       (mkProvider [ mkGoal "h" "other" None 0 0 [] 0; chainGoal ]%string None)
       (goalId chainGoal) "b" 7 Hnd Hin)))).
Defined.

(* ================================================================== *)
(** ** The list of goals *)




Lemma ascending_snoc : forall xs y,
  StronglySorted Z.lt xs -> (forall x, In x xs -> x < y) -> StronglySorted Z.lt (xs ++ [y]).
Proof.
  induction xs as [|a xs IH]; intros y Hs Hlt; simpl.
  - constructor; constructor.
  - inversion Hs as [|? ? Hs' Hall]; subst. constructor.
    + apply IH; [assumption|]. intros x Hx. apply Hlt. now right.
    + apply Forall_app. split; [assumption|]. constructor; [|constructor].
      apply Hlt. now left.
Qed.

Lemma ascending_filter : forall (p : Goal -> bool) gs,
  ascending gs -> ascending (filter p gs).
Proof.
  unfold ascending. induction gs as [|g gs IH]; intros Hs; simpl; [constructor|].
  simpl in Hs. inversion Hs as [|? ? Hs' Hall]; subst.
  destruct (p g); [|now apply IH]. simpl. constructor; [now apply IH|].
  apply Forall_forall. intros x Hx. apply in_map_iff in Hx. destruct Hx as (y & <- & Hy).
  apply filter_In in Hy. rewrite Forall_forall in Hall. apply Hall. apply in_map. tauto.
Qed.

Lemma goalOrder_range : forall xs,
  Permutation xs (map Z.of_nat (seq 0 (List.length xs))) ->
  mathMaxOrMinus1 xs + 1 = Z.of_nat (List.length xs).
Proof.
  intros xs Hp.
  pose (l := map (fun z => mkStep EmptyString EmptyString None false None [] z) xs).
  assert (Hl : map order l = xs) by (unfold l; rewrite map_map; apply map_id).
  assert (Hn : List.length l = List.length xs) by (unfold l; apply length_map).
  rewrite <- Hl at 1. rewrite <- Hn. apply mathMaxOrMinus1_dense.
  unfold dense. now rewrite Hl, Hn.
Qed.

(** X20: the list of goals under [addGoal] and [deleteGoal] of the
    provider, when the store accepts. [addGoal] appends a goal with the
    drawn identifier, no steps and an [order] above every [order] there
    is, which is N when the N goals carry the orders 0..N-1; [deleteGoal]
    leaves no goal with the identifier, keeps every other goal findable
    and adds none; and a list of goals in strictly ascending [order] is
    again one after either, so that sorting by [order] on the next load
    gives the list back. *)
Theorem goal_list_operations :
  forall (st : Provider),
    (forall gen k created updated title description,
        exists newGoal,
          ctxAddGoal gen k created updated true st title description
          = (mkProvider (goals st ++ [newGoal]) (error st), S k) /\
          goalId newGoal = gen k /\ steps newGoal = [] /\
          (forall g, In g (goals st) -> goalOrder g < goalOrder newGoal) /\
          (Permutation (map goalOrder (goals st))
                       (map Z.of_nat (seq 0 (List.length (goals st)))) ->
           goalOrder newGoal = Z.of_nat (List.length (goals st))) /\
          (ascending (goals st) -> ascending (goals st ++ [newGoal]))) /\
    (forall gid,
        findGoal (goals (ctxDeleteGoal true st gid)) gid = None /\
        (forall other, other <> gid ->
           findGoal (goals (ctxDeleteGoal true st gid)) other = findGoal (goals st) other) /\
        (forall g, In g (goals (ctxDeleteGoal true st gid)) -> In g (goals st)) /\
        (ascending (goals st) -> ascending (goals (ctxDeleteGoal true st gid)))).
Proof.
  intros st. split.
  - intros gen k created updated title description.
    eexists. split; [reflexivity|]. cbn [goalId steps goalOrder].
    split; [reflexivity|]. split; [reflexivity|].
    assert (Habove : forall g, In g (goals st) ->
                       goalOrder g < mathMaxOrMinus1 (map goalOrder (goals st)) + 1).
    { intros g Hg.
      pose proof (mathMaxOrMinus1_ge (map goalOrder (goals st)) (goalOrder g)
                    (in_map goalOrder _ _ Hg)). lia. }
    split; [exact Habove|]. split.
    + intros Hp. rewrite <- (length_map goalOrder). apply goalOrder_range.
      now rewrite length_map.
    + intros Hs. unfold ascending. rewrite map_app. apply ascending_snoc; [exact Hs|].
      intros x Hx. apply in_map_iff in Hx. destruct Hx as (g & <- & Hg). now apply Habove.
  - intros gid. unfold ctxDeleteGoal. cbn [goals].
    split; [|split; [|split]].
    + destruct (findGoal (filter (fun g => negb (String.eqb (goalId g) gid)) (goals st)) gid)
        as [g|] eqn:E; [|reflexivity].
      apply findGoal_some in E. destruct E as [Hin Hid]. apply filter_In in Hin.
      destruct Hin as [_ Hneg]. rewrite Hid, String.eqb_refl in Hneg. discriminate.
    + intros other Hne. unfold findGoal. induction (goals st) as [|g gs IH]; [reflexivity|].
      simpl. destruct (String.eqb_spec (goalId g) gid) as [E|E]; simpl.
      * destruct (String.eqb_spec (goalId g) other) as [E'|E']; [congruence|exact IH].
      * destruct (String.eqb (goalId g) other); [reflexivity|exact IH].
    + intros g Hg. apply filter_In in Hg. tauto.
    + apply ascending_filter.
Qed.




(* ================================================================== *)
(** ** Loading the goals *)

Lemma insertByOrder_permutation : forall g l, Permutation (insertByOrder g l) (g :: l).
Proof.
  intros g. induction l as [|h t IH]; simpl; [apply Permutation_refl|].
  destruct (goalOrder g <=? goalOrder h); [apply Permutation_refl|].
  apply Permutation_trans with (h :: g :: t); [now apply perm_skip|apply perm_swap].
Qed.

Lemma sortByOrder_permutation : forall l, Permutation (sortByOrder l) l.
Proof.
  induction l as [|g l IH]; simpl; [apply Permutation_refl|].
  apply Permutation_trans with (g :: sortByOrder l);
    [apply insertByOrder_permutation|now apply perm_skip].
Qed.

Lemma insertByOrder_sorted : forall g l,
  StronglySorted Z.le (map goalOrder l) ->
  StronglySorted Z.le (map goalOrder (insertByOrder g l)).
Proof.
  intros g. induction l as [|h t IH]; intros Hs; simpl.
  - constructor; constructor.
  - simpl in Hs. inversion Hs as [|? ? Hs' Hall]; subst.
    destruct (Z.leb_spec (goalOrder g) (goalOrder h)) as [Hle|Hlt]; simpl.
    + constructor; [assumption|]. constructor; [assumption|].
      rewrite Forall_forall in *. intros x Hx. specialize (Hall x Hx). lia.
    + constructor; [now apply IH|].
      rewrite Forall_forall in *. intros x Hx. apply in_map_iff in Hx.
      destruct Hx as (y & <- & Hy).
      apply (Permutation_in _ (insertByOrder_permutation g t)) in Hy.
      destruct Hy as [<-|Hy]; [lia|]. apply Hall. now apply in_map.
Qed.

Lemma insertByOrder_stable : forall o g l,
  filter (fun x => goalOrder x =? o) (insertByOrder g l) =
  filter (fun x => goalOrder x =? o) (g :: l).
Proof.
  intros o g. induction l as [|h t IH]; [reflexivity|].
  cbn [insertByOrder].
  destruct (Z.leb_spec (goalOrder g) (goalOrder h)) as [Hle|Hlt]; [reflexivity|].
  cbn [filter] in *. rewrite IH.
  destruct (Z.eqb_spec (goalOrder g) o), (Z.eqb_spec (goalOrder h) o);
    try reflexivity. lia.
Qed.

Lemma sortByOrder_ascending : forall l, ascending l -> sortByOrder l = l.
Proof.
  unfold ascending. induction l as [|g l IH]; intros Hs; [reflexivity|].
  simpl in Hs. inversion Hs as [|? ? Hs' Hall]; subst.
  simpl. rewrite (IH Hs'). destruct l as [|h t]; [reflexivity|].
  simpl. inversion Hall as [|? ? Hlt _]; subst.
  destruct (Z.leb_spec (goalOrder g) (goalOrder h)); [reflexivity|lia].
Qed.

(** X22: loading. When the store answers, the provider holds the loaded
    goals, each once, in non-descending [order], goals of equal [order] in
    the sequence in which the store gave them, and the error message is
    cleared; a list that is already in strictly ascending [order], as
    [addGoal], [deleteGoal] and [reorderGoals] leave it, is taken as it
    is. When the store rejects, the goals stay as they are and the error
    message is that of loading. *)
Theorem loadGoals_sorts_by_order :
  forall (st : Provider) (loadedGoals : list Goal),
    Permutation (goals (ctxLoadGoals (Some loadedGoals) st)) loadedGoals /\
    StronglySorted Z.le (map goalOrder (goals (ctxLoadGoals (Some loadedGoals) st))) /\
    (forall o, filter (fun g => goalOrder g =? o) (goals (ctxLoadGoals (Some loadedGoals) st))
               = filter (fun g => goalOrder g =? o) loadedGoals) /\
    error (ctxLoadGoals (Some loadedGoals) st) = None /\
    (ascending loadedGoals -> goals (ctxLoadGoals (Some loadedGoals) st) = loadedGoals) /\
    ctxLoadGoals None st = failWith st "Failed to load goals. Please try again later.".
Proof.
  intros st loadedGoals. cbn [ctxLoadGoals goals error].
  split; [apply sortByOrder_permutation|]. split; [|split; [|split; [reflexivity|split]]].
  - induction loadedGoals as [|g l IH]; simpl; [constructor|].
    now apply insertByOrder_sorted.
  - intros o. induction loadedGoals as [|g l IH]; [reflexivity|].
    cbn [sortByOrder fold_right]. rewrite insertByOrder_stable.
    cbn [filter]. fold (sortByOrder l). now rewrite IH.
  - apply sortByOrder_ascending.
  - reflexivity.
Qed.
